(** * tesa-ui: detection aggregation, clustering, proximity alerting, geofence ring

    A shallow embedding of the algorithmic core of the dashboard:

    - [ObjectGeo]     : src/utils/objectGeo.ts (coordinate extraction),
    - [Dashboard]     : src/pages/Dashboard.tsx (buildLatestObjects, intruders),
    - [MapComponent]  : the map component (getPrimaryCoordinates,
                        getMarkerDescriptors, createCirclePolygon).

    JavaScript numbers are idealised: a finite number is a real number, and
    NaN and +/-Infinity are kept as separate values, since the code tests for
    them with [Number.isFinite] and its comparisons are false on NaN.
    Arithmetic on numbers ([Js.add], [Js.sub], [Js.mul], [Js.div] and the
    [Math] functions) keeps the range of the doubles: a result is exact
    inside the range and an infinity beyond it, and NaN and the infinities
    propagate as ECMAScript has them; rounding inside the range is left out.
    The clustering pass and the ring, whose properties are stated over real
    arithmetic, compute on reals. The two functions that print digits
    ([formatEta], [formatDistance]) take the division of the doubles, with
    its rounding, as a parameter. *)

From Stdlib Require Import Reals Lra Lia List String Ascii ZArith QArith Qreals.
From Stdlib Require Import Permutation Sorted Bool Zfloor.
Import ListNotations.

Open Scope R_scope.
Open Scope string_scope.
Open Scope list_scope.

(* ================================================================= *)
(** ** The JavaScript values the code handles *)

Module Js.

(** A JavaScript [number]. *)
Inductive number : Type :=
| Finite (r : R)
| NaN
| PosInfinity
| NegInfinity.

(** [Number.isFinite]. *)
Definition Number_isFinite (n : number) : bool :=
  match n with
  | Finite _ => true
  | _ => false
  end.

#[local] Set Warnings "-register-all".

(** Values as they arrive in a decoded JSON payload; [Undefined] is what
    reading an absent property gives. *)
Inductive value : Type :=
| Undefined
| Null
| Num (n : number)
| Str (s : string)
| Obj (props : list (string * value)).

(** [source[key]] on a property bag: the property, or [undefined]. *)
Fixpoint prop (props : list (string * value)) (key : string) : value :=
  match props with
  | [] => Undefined
  | (k, v) :: rest => if String.eqb k key then v else prop rest key
  end.

(** Truthiness: [0] and NaN are falsy numbers; [undefined], [null], a falsy
    number and the empty string are the falsy values. *)
Definition truthy (n : number) : bool :=
  match n with
  | Finite r => if Req_dec_T r 0 then false else true
  | NaN => false
  | PosInfinity | NegInfinity => true
  end.

Definition truthy_value (v : value) : bool :=
  match v with
  | Undefined | Null => false
  | Num n => truthy n
  | Str s => negb (String.eqb s "")
  | Obj _ => true
  end.

(** The value of a decimal digit. *)
Definition digit_of (c : ascii) : option Z :=
  let n := nat_of_ascii c in
  if ((48 <=? n) && (n <=? 57))%nat then Some (Z.of_nat (n - 48)) else None.

(** Reads a run of decimal digits: the accumulated value, how many digits
    were read, and the rest of the string. *)
Fixpoint take_digits (s : string) (acc : Z) (count : nat) : Z * nat * string :=
  match s with
  | String c rest =>
      match digit_of c with
      | Some d => take_digits rest (10 * acc + d)%Z (S count)
      | None => (acc, count, s)
      end
  | EmptyString => (acc, count, s)
  end.

(** A property key that is an array index: decimal digits without a
    leading zero. *)
Definition index_of (key : string) : option nat :=
  match key with
  | EmptyString => None
  | String "0" EmptyString => Some 0%nat
  | String "0" _ => None
  | _ =>
      match take_digits key 0%Z 0%nat with
      | (n, _, EmptyString) => Some (Z.to_nat n)
      | _ => None
      end
  end.

(** [source[key]] on a value that is not [null] or [undefined]: the
    property of an object; the [length] and the characters of a string (a
    character of a Rocq string is one code unit below 256). What a
    primitive inherits from its prototype are functions, which the code
    reads as it reads [undefined]. *)
Definition get (source : value) (key : string) : value :=
  match source with
  | Obj props => prop props key
  | Str s =>
      if String.eqb key "length" then Num (Finite (INR (String.length s)))
      else
        match index_of key with
        | Some i =>
            match String.get i s with
            | Some c => Str (String c EmptyString)
            | None => Undefined
            end
        | None => Undefined
        end
  | _ => Undefined
  end.

(** [a ?? b] on values. *)
Definition nullish (a b : value) : value :=
  match a with
  | Undefined | Null => b
  | _ => a
  end.

(** [a ?? b] where [null] is [None]. *)
Definition nullish_opt {A : Type} (a b : option A) : option A :=
  match a with
  | Some x => Some x
  | None => b
  end.

(** *** [parseFloat]

    ECMAScript: strip leading white space, take the longest prefix that is a
    StrDecimalLiteral, and return its mathematical value; NaN when no prefix
    is one. The syntactic part is computed over [Q]. *)

Inductive literal : Type :=
| LitNaN
| LitInfinity (negative : bool)
| LitDecimal (q : Q).

Definition is_whitespace (c : ascii) : bool :=
  match nat_of_ascii c with
  | 9%nat | 10%nat | 11%nat | 12%nat | 13%nat | 32%nat => true
  | _ => false
  end.

Fixpoint trim_start (s : string) : string :=
  match s with
  | String c rest => if is_whitespace c then trim_start rest else s
  | EmptyString => s
  end.

(** ExponentPart, when well formed; [0] otherwise. *)
Definition exponent_part (s : string) : Z :=
  match s with
  | String c rest =>
      if (Ascii.eqb c "e" || Ascii.eqb c "E")%bool then
        let '(negative, digits) :=
          match rest with
          | String "+" r => (false, r)
          | String "-" r => (true, r)
          | _ => (false, rest)
          end in
        let '(e, n, _) := take_digits digits 0%Z 0%nat in
        match n with
        | O => 0%Z
        | S _ => if negative then (- e)%Z else e
        end
      else 0%Z
  | EmptyString => 0%Z
  end.

(** [m * 10^e] as a rational. *)
Definition scale10 (m e : Z) : Q :=
  match e with
  | Zneg p => Qmake m (Pos.pow 10 p)
  | _ => Qmake (m * 10 ^ e) 1
  end.

Definition StrUnsignedDecimalLiteral (s : string) : option Q :=
  let '(int_part, n_int, after_int) := take_digits s 0%Z 0%nat in
  let '(mantissa, n_frac, after_frac) :=
    match after_int with
    | String "." r => take_digits r int_part 0%nat
    | _ => (int_part, 0%nat, after_int)
    end in
  match (n_int + n_frac)%nat with
  | O => None
  | S _ => Some (scale10 mantissa (exponent_part after_frac - Z.of_nat n_frac))
  end.

Definition StrDecimalLiteral (s : string) : literal :=
  let '(negative, unsigned) :=
    match s with
    | String "+" r => (false, r)
    | String "-" r => (true, r)
    | _ => (false, s)
    end in
  if String.prefix "Infinity" unsigned then LitInfinity negative
  else
    match StrUnsignedDecimalLiteral unsigned with
    | Some q => LitDecimal (if negative then Qopp q else q)
    | None => LitNaN
    end.

Definition number_of_literal (l : literal) : number :=
  match l with
  | LitNaN => NaN
  | LitInfinity false => PosInfinity
  | LitInfinity true => NegInfinity
  | LitDecimal q => Finite (Q2R q)
  end.

Definition parseFloat (s : string) : number :=
  number_of_literal (StrDecimalLiteral (trim_start s)).

(** *** Comparisons and arithmetic on numbers *)

Definition ltb (x y : R) : bool := if Rlt_dec x y then true else false.
Definition leb (x y : R) : bool := if Rle_dec x y then true else false.

(** [n > 0]; false for NaN. *)
Definition gt0 (n : number) : bool :=
  match n with
  | Finite r => ltb 0 r
  | PosInfinity => true
  | NaN | NegInfinity => false
  end.

(** [a < b]; false as soon as one of them is NaN. *)
Definition lt (a b : number) : bool :=
  match a, b with
  | Finite x, Finite y => ltb x y
  | NaN, _ | _, NaN => false
  | _, NegInfinity => false
  | PosInfinity, _ => false
  | NegInfinity, _ => true
  | Finite _, PosInfinity => true
  end.

(** [a > b] and [a <= b]; false as soon as one of them is NaN. *)
Definition gt (a b : number) : bool := lt b a.

Definition le (a b : number) : bool :=
  match a, b with
  | Finite x, Finite y => leb x y
  | NaN, _ | _, NaN => false
  | NegInfinity, _ => true
  | _, PosInfinity => true
  | _, _ => false
  end.

(** The range of the doubles: an exact result of magnitude
    [2^1024 - 2^970] or more rounds to an infinity. *)
Definition overflow_threshold : R := 2 ^ 1024 - 2 ^ 970.

(** The number an exact result [r] becomes. *)
Definition of_real (r : R) : number :=
  if Rle_dec overflow_threshold r then PosInfinity
  else if Rle_dec r (- overflow_threshold) then NegInfinity
  else Finite r.

Definition is_zero (n : number) : bool :=
  match n with
  | Finite r => if Req_dec_T r 0 then true else false
  | _ => false
  end.

Definition is_negative (n : number) : bool :=
  match n with
  | Finite r => ltb r 0
  | NegInfinity => true
  | NaN | PosInfinity => false
  end.

Definition infinity (negative : bool) : number :=
  if negative then NegInfinity else PosInfinity.

(** [a + b]. *)
Definition add (a b : number) : number :=
  match a, b with
  | Finite x, Finite y => of_real (x + y)
  | NaN, _ | _, NaN => NaN
  | PosInfinity, NegInfinity | NegInfinity, PosInfinity => NaN
  | PosInfinity, _ | _, PosInfinity => PosInfinity
  | NegInfinity, _ | _, NegInfinity => NegInfinity
  end.

(** [a - b]. *)
Definition sub (a b : number) : number :=
  match a, b with
  | Finite x, Finite y => of_real (x - y)
  | NaN, _ | _, NaN => NaN
  | PosInfinity, PosInfinity | NegInfinity, NegInfinity => NaN
  | PosInfinity, _ | _, NegInfinity => PosInfinity
  | NegInfinity, _ | _, PosInfinity => NegInfinity
  end.

(** [a * b]: an infinity times zero is NaN. *)
Definition mul (a b : number) : number :=
  match a, b with
  | Finite x, Finite y => of_real (x * y)
  | NaN, _ | _, NaN => NaN
  | _, _ =>
      if (is_zero a || is_zero b)%bool then NaN
      else infinity (xorb (is_negative a) (is_negative b))
  end.

(** [a / b]. The model has one zero, taken as [+0] when it divides. *)
Definition div (a b : number) : number :=
  match a, b with
  | Finite x, Finite y =>
      if Req_dec_T y 0 then
        if Req_dec_T x 0 then NaN else infinity (ltb x 0)
      else of_real (x / y)
  | NaN, _ | _, NaN => NaN
  | Finite _, _ => Finite 0
  | _, Finite y => infinity (xorb (is_negative a) (ltb y 0))
  | _, _ => NaN
  end.

(** [Math.sin] and [Math.cos]: NaN on NaN and on the infinities. *)
Definition Math_sin (x : number) : number :=
  match x with
  | Finite r => Finite (sin r)
  | _ => NaN
  end.

Definition Math_cos (x : number) : number :=
  match x with
  | Finite r => Finite (cos r)
  | _ => NaN
  end.

(** [Math.sqrt]: NaN on NaN and below zero. *)
Definition Math_sqrt (x : number) : number :=
  match x with
  | Finite r => if Rlt_dec r 0 then NaN else Finite (sqrt r)
  | PosInfinity => PosInfinity
  | NaN | NegInfinity => NaN
  end.

(** [Math.atan2(y, x)] on finite arguments. *)
Definition atan2 (y x : R) : R :=
  if Rlt_dec 0 x then atan (y / x)
  else if Rlt_dec x 0 then
    if Rlt_dec y 0 then atan (y / x) - PI else atan (y / x) + PI
  else if Rlt_dec 0 y then PI / 2
  else if Rlt_dec y 0 then - PI / 2
  else 0.

(** [Math.atan2(y, x)]: NaN as soon as one argument is NaN. *)
Definition Math_atan2 (y x : number) : number :=
  match y, x with
  | Finite y, Finite x => Finite (atan2 y x)
  | NaN, _ | _, NaN => NaN
  | Finite y, PosInfinity => Finite 0
  | Finite y, NegInfinity => Finite (if Rlt_dec y 0 then - PI else PI)
  | PosInfinity, Finite _ => Finite (PI / 2)
  | NegInfinity, Finite _ => Finite (- PI / 2)
  | PosInfinity, PosInfinity => Finite (PI / 4)
  | PosInfinity, NegInfinity => Finite (3 * PI / 4)
  | NegInfinity, PosInfinity => Finite (- PI / 4)
  | NegInfinity, NegInfinity => Finite (- 3 * PI / 4)
  end.

(** *** [Array.prototype.sort]

    ECMAScript asks for a stable sort and reads a NaN result of the
    comparator as [+0]. Modelled as the stable insertion sort: [x] stays in
    front of [y] unless [comparefn x y > 0]. *)
Fixpoint insert {A : Type} (comparefn : A -> A -> number) (x : A) (sorted : list A)
  : list A :=
  match sorted with
  | [] => [x]
  | y :: ys =>
      if gt0 (comparefn x y) then y :: insert comparefn x ys else x :: sorted
  end.

Definition Array_sort {A : Type} (comparefn : A -> A -> number) (l : list A) : list A :=
  fold_right (insert comparefn) [] l.

(** *** [Map<string, V>]

    A JavaScript Map keeps its keys in insertion order; [set] on a key that
    is present replaces the value and keeps the key's position. *)
Module Map.

Definition t (V : Type) : Type := list (string * V).

Definition empty {V : Type} : t V := [].

Fixpoint set {V : Type} (key : string) (v : V) (m : t V) : t V :=
  match m with
  | [] => [(key, v)]
  | (k, v') :: rest =>
      if String.eqb k key then (key, v) :: rest else (k, v') :: set key v rest
  end.

Fixpoint has {V : Type} (key : string) (m : t V) : bool :=
  match m with
  | [] => false
  | (k, _) :: rest => if String.eqb k key then true else has key rest
  end.

Definition values {V : Type} (m : t V) : list V := List.map snd m.

Definition keys {V : Type} (m : t V) : list string := List.map fst m.

End Map.

End Js.

(* ================================================================= *)
(** ** src/types/detection.ts *)

(** A detected object. [obj_id] is taken at its declared type; the other own
    properties ([lat], [lng], [speed], [details], ...) are kept as received
    in [raw], because the code reads them through [Record<string, unknown>]
    casts and [typeof] tests. *)
Record DetectedObject : Type := mkObject {
  obj_id : string;
  raw : list (string * Js.value)
}.

(** The object seen as a property bag. *)
Definition as_record (object : DetectedObject) : list (string * Js.value) :=
  ("obj_id", Js.Str (obj_id object)) :: raw object.

(** A detection event. [objects = None] stands for an [objects] field that
    is [null] or [undefined]. *)
Record DetectionEvent : Type := mkEvent {
  id : Z;
  cam_id : string;
  timestamp : string;
  image_path : string;
  objects : option (list DetectedObject)
}.

(** [type LatLng = { lat: number; lng: number }], with finite coordinates. *)
Module LatLng.
Record t : Type := mk { lat : R; lng : R }.
End LatLng.

Definition EARTH_RADIUS_METERS : R := 6371000.

(* ================================================================= *)
(** ** src/utils/objectGeo.ts *)

Module ObjectGeo.
Import Js.

Definition toValidNumber (value : value) : option R :=
  match value with
  | Num (Finite r) => Some r
  | Str s =>
      match parseFloat s with
      | Finite parsed => Some parsed
      | _ => None
      end
  | _ => None
  end.

(** [source] is any value: a falsy source gives [null] at once, and any
    other source is indexed with each key in turn. *)
Definition extractFromSource (source : value) (keys : list string) : option R :=
  if truthy_value source then
    (fix loop (keys : list string) : option R :=
       match keys with
       | [] => None
       | key :: rest =>
           match toValidNumber (get source key) with
           | Some numeric => Some numeric
           | None => loop rest
           end
       end) keys
  else None.

Definition extractCoordinate (object : DetectedObject) (keys : list string) : option R :=
  nullish_opt (extractFromSource (Obj (as_record object)) keys)
    (nullish_opt (extractFromSource (prop (as_record object) "details") keys)
       (nullish_opt (extractFromSource (prop (as_record object) "detail") keys)
          None)).

Definition getObjectLatitude (object : DetectedObject) : option R :=
  extractCoordinate object ["lat"; "latitude"].

Definition getObjectLongitude (object : DetectedObject) : option R :=
  extractCoordinate object ["lng"; "lon"; "long"; "longitude"].

End ObjectGeo.

(* ================================================================= *)
(** ** src/pages/Dashboard.tsx *)

Module LatestObjectEntry.
Record t : Type := mk { object : DetectedObject; lastSeen : string }.
End LatestObjectEntry.

(** An entry of the proximity alert list. *)
Module Intruder.
Record t : Type := mk {
  object : DetectedObject;
  distance : Js.number;
  etaSeconds : option Js.number
}.
End Intruder.

Module Dashboard.
Import Js.

Section Registry.

(** [new Date(s).getTime()]: milliseconds since the epoch, NaN for a string
    that is not a date. *)
Variable Date_getTime : string -> number.

(** The body of the inner [forEach] of [buildLatestObjects]. *)
Definition record_object (event : DetectionEvent)
    (map : Map.t LatestObjectEntry.t) (obj : DetectedObject) : Map.t LatestObjectEntry.t :=
  Map.set (obj_id obj) (LatestObjectEntry.mk obj (timestamp event)) map.

(** The body of the outer [forEach]: [event.objects?.forEach(...)]. *)
Definition record_event (map : Map.t LatestObjectEntry.t) (event : DetectionEvent)
  : Map.t LatestObjectEntry.t :=
  match objects event with
  | Some objs => fold_left (record_object event) objs map
  | None => map
  end.

Definition latest_map (events : list DetectionEvent) : Map.t LatestObjectEntry.t :=
  fold_left record_event events Map.empty.

Definition buildLatestObjects (events : list DetectionEvent) : list LatestObjectEntry.t :=
  Array_sort
    (fun a b => sub (Date_getTime (LatestObjectEntry.lastSeen b))
                    (Date_getTime (LatestObjectEntry.lastSeen a)))
    (Map.values (latest_map events)).

End Registry.

Definition toRadians (value : number) : number :=
  div (mul value (Finite PI)) (Finite 180).

Definition calculateDistanceMeters (from to : LatLng.t) : number :=
  let dLat := toRadians (sub (Finite (LatLng.lat to)) (Finite (LatLng.lat from))) in
  let dLng := toRadians (sub (Finite (LatLng.lng to)) (Finite (LatLng.lng from))) in
  let lat1 := toRadians (Finite (LatLng.lat from)) in
  let lat2 := toRadians (Finite (LatLng.lat to)) in
  let sinDLat := Math_sin (div dLat (Finite 2)) in
  let sinDLng := Math_sin (div dLng (Finite 2)) in
  let a :=
    add (mul sinDLat sinDLat)
        (mul (mul (mul (Math_cos lat1) (Math_cos lat2)) sinDLng) sinDLng) in
  let c := mul (Finite 2) (Math_atan2 (Math_sqrt a) (Math_sqrt (sub (Finite 1) a))) in
  mul (Finite EARTH_RADIUS_METERS) c.

Definition DEFAULT_DEFENCE_LOCATION : LatLng.t := LatLng.mk 14.297567 101.166279.
Definition DEFAULT_OFFENCE_LOCATION : LatLng.t := LatLng.mk 14.286451 101.171298.

(** [typeof v === 'number' ? v : parseFloat(String(v))]; [String(v)] is
    spelled out for each value that is not a number. *)
Definition coordinate_number (v : value) : number :=
  match v with
  | Num n => n
  | Str s => parseFloat s
  | Undefined => parseFloat "undefined"
  | Null => parseFloat "null"
  | Obj _ => parseFloat "[object Object]"
  end.

(** [typeof obj.speed === 'number' ? obj.speed : null]. *)
Definition legacy_speed (obj : DetectedObject) : option number :=
  match prop (as_record obj) "speed" with
  | Num n => Some n
  | _ => None
  end.

(** [speed && speed > 0 ? distance / speed : null]. *)
Definition eta_of (speed : option number) (distance : number) : option number :=
  match speed with
  | Some s => if (truthy s && gt0 s)%bool then Some (div distance s) else None
  | None => None
  end.

(** The body of the inner [forEach] of the [intruders] memo. *)
Definition scan_object (defaultLocation : LatLng.t) (detectionRadius : R)
    (seen : Map.t Intruder.t) (obj : DetectedObject) : Map.t Intruder.t :=
  let lat := coordinate_number (prop (as_record obj) "lat") in
  let lng := coordinate_number (prop (as_record obj) "lng") in
  match lat, lng with
  | Finite lat, Finite lng =>
      let distance := calculateDistanceMeters defaultLocation (LatLng.mk lat lng) in
      if gt distance (Finite detectionRadius) then seen
      else if Map.has (obj_id obj) seen then seen
      else
        let speed := legacy_speed obj in
        let etaSeconds := eta_of speed distance in
        Map.set (obj_id obj) (Intruder.mk obj distance etaSeconds) seen
  | _, _ => seen
  end.

Definition scan_event (defaultLocation : LatLng.t) (detectionRadius : R)
    (seen : Map.t Intruder.t) (event : DetectionEvent) : Map.t Intruder.t :=
  match objects event with
  | Some objs => fold_left (scan_object defaultLocation detectionRadius) objs seen
  | None => seen
  end.

(** The [intruders] memo of [DefensiveAlertPanel], as a function of its
    dependencies [feed.events], [detectionRadius] and [defaultLocation]. *)
Definition intruders (events : list DetectionEvent) (detectionRadius : R)
    (defaultLocation : option LatLng.t) : list Intruder.t :=
  match defaultLocation with
  | None => []
  | Some location =>
      if leb detectionRadius 0 then []
      else
        let seen := fold_left (scan_event location detectionRadius) events Map.empty in
        Array_sort
          (fun a b => sub (Intruder.distance a) (Intruder.distance b))
          (Map.values seen)
  end.

End Dashboard.

(* ================================================================= *)
(** ** The map component (getMarkerDescriptors, createCirclePolygon) *)

Module Cluster.
Record t : Type := mk { lat : R; lng : R; objects : list DetectedObject }.
End Cluster.

Inductive MarkerDescriptor : Type :=
| single (lat lng : R) (object : DetectedObject)
| cluster (lat lng : R) (objects : list DetectedObject).

Module MapComponent.
Import Js.

Definition toOptionalNumber (value : value) : option R :=
  match value with
  | Num (Finite r) => Some r
  | Str s =>
      match parseFloat s with
      | Finite parsed => Some parsed
      | _ => None
      end
  | _ => None
  end.

Definition distanceBetween (lat1 lng1 lat2 lng2 : R) : R :=
  let dLat := lat1 - lat2 in
  let dLng := lng1 - lng2 in
  sqrt (dLat * dLat + dLng * dLng).

Definition getPrimaryCoordinates (object : DetectedObject) : option LatLng.t :=
  let raw := as_record object in
  let lat := toOptionalNumber (nullish (prop raw "lat") (nullish (prop raw "latitude") Null)) in
  let lng :=
    toOptionalNumber
      (nullish (prop raw "lng") (nullish (prop raw "long") (nullish (prop raw "lon") Null))) in
  match lat, lng with
  | Some lat, Some lng => Some (LatLng.mk lat lng)
  | _, _ => None
  end.

(** [zoom >= 13 ? 0.002 : zoom >= 11 ? 0.004 : 0.01]. *)
Definition tolerance_of (zoom : R) : R :=
  if leb 13 zoom then 0.002 else if leb 11 zoom then 0.004 else 0.01.

(** The join branch: push the object, then move the centroid. *)
Definition join (c : Cluster.t) (object : DetectedObject) (lat lng : R) : Cluster.t :=
  let objects := Cluster.objects c ++ [object] in
  let total := INR (List.length objects) in
  Cluster.mk (Cluster.lat c + (lat - Cluster.lat c) / total)
             (Cluster.lng c + (lng - Cluster.lng c) / total)
             objects.

(** [clusters.find(test)] followed by the in-place update of the cluster
    found: the first cluster that passes the test is replaced by its update;
    [None] when [find] returns [undefined]. *)
Fixpoint find_and_update (test : Cluster.t -> bool) (update : Cluster.t -> Cluster.t)
    (clusters : list Cluster.t) : option (list Cluster.t) :=
  match clusters with
  | [] => None
  | item :: rest =>
      if test item then Some (update item :: rest)
      else
        match find_and_update test update rest with
        | Some rest' => Some (item :: rest')
        | None => None
        end
  end.

(** The body of [items.forEach] in the clustering pass. *)
Definition cluster_object (tolerance : R) (clusters : list Cluster.t)
    (object : DetectedObject) : list Cluster.t :=
  match getPrimaryCoordinates object with
  | None => clusters
  | Some coords =>
      let lat := LatLng.lat coords in
      let lng := LatLng.lng coords in
      match
        find_and_update
          (fun item => ltb (distanceBetween (Cluster.lat item) (Cluster.lng item) lat lng) tolerance)
          (fun c => join c object lat lng)
          clusters
      with
      | Some clusters' => clusters'
      | None => clusters ++ [Cluster.mk lat lng [object]]
      end
  end.

Definition cluster_pass (tolerance : R) (items : list DetectedObject) : list Cluster.t :=
  fold_left (cluster_object tolerance) items [].

Definition descriptor_of (c : Cluster.t) : MarkerDescriptor :=
  match Cluster.objects c with
  | [object] => single (Cluster.lat c) (Cluster.lng c) object
  | objects => cluster (Cluster.lat c) (Cluster.lng c) objects
  end.

Definition getMarkerDescriptors (items : list DetectedObject) (zoom : R)
  : list MarkerDescriptor :=
  match items with
  | [] => []
  | _ =>
      if leb 15 zoom then
        flat_map
          (fun object =>
             match getPrimaryCoordinates object with
             | None => []
             | Some coords => [single (LatLng.lat coords) (LatLng.lng coords) object]
             end)
          items
      else
        let tolerance := tolerance_of zoom in
        map descriptor_of (cluster_pass tolerance items)
  end.

(** One turn of the [for] loop of [createCirclePolygon]: the pair
    [[lng, lat]] pushed at index [i]. *)
Definition ring_point (center : LatLng.t) (radiusMeters : R) (steps : nat) (i : nat)
  : R * R :=
  let angle := (INR i / INR steps) * 2 * PI in
  let dx := (radiusMeters / EARTH_RADIUS_METERS) * cos angle in
  let dy := (radiusMeters / EARTH_RADIUS_METERS) * sin angle in
  let lat := LatLng.lat center + (dy * 180) / PI in
  let lng := LatLng.lng center + ((dx * 180) / PI) / cos ((LatLng.lat center * PI) / 180) in
  (lng, lat).

(** [for (let i = ...; i <= steps; i++) coords.push(...)], with [turns]
    turns left. *)
Fixpoint ring_loop (center : LatLng.t) (radiusMeters : R) (steps : nat)
    (turns i : nat) (coords : list (R * R)) : list (R * R) :=
  match turns with
  | O => coords
  | S turns' =>
      ring_loop center radiusMeters steps turns' (S i)
        (coords ++ [ring_point center radiusMeters steps i])
  end.

(** [steps] is a step count, a natural number ([64] when omitted). Division
    in [R] is total, so the model has a value where JavaScript divides by
    zero ([steps = 0], or a center on a pole). *)
Definition createCirclePolygon (center : LatLng.t) (radiusMeters : R) (steps : nat)
  : list (R * R) :=
  ring_loop center radiusMeters steps (S steps) 0 [].

Definition default_steps : nat := 64.

End MapComponent.

(* ================================================================= *)
(** ** src/pages/Dashboard.tsx: the event list of [useDroneFeed] *)

Module DroneFeed.

(** The effect on [data]: [if (data?.data) setEvents(data.data)]. *)
Definition on_history (data : option (list DetectionEvent)) (events : list DetectionEvent)
  : list DetectionEvent :=
  match data with
  | Some fetched => fetched
  | None => events
  end.

(** The effect on [realtimeData]:
    [if (realtimeData) setEvents((prev) => [realtimeData, ...prev])]. *)
Definition on_realtime (realtimeData : option DetectionEvent) (prev : list DetectionEvent)
  : list DetectionEvent :=
  match realtimeData with
  | Some event => event :: prev
  | None => prev
  end.

End DroneFeed.

(* ================================================================= *)
(** ** The map component: marker colours ([getColorForObjectId]) *)

Module Palette.

Definition colors : list string :=
  ["#FF5722"; "#2196F3"; "#4CAF50"; "#FFC107"; "#9C27B0";
   "#00BCD4"; "#E91E63"; "#FF9800"; "#009688"; "#F44336";
   "#3F51B5"; "#8BC34A"; "#FFEB3B"; "#673AB7"; "#00E676"].

(** ECMAScript ToInt32 on an integer-valued number. *)
Definition ToInt32 (z : Z) : Z := ((z + 2 ^ 31) mod 2 ^ 32 - 2 ^ 31)%Z.

(** [z << n]: both the operand and the result are 32-bit integers. *)
Definition shiftLeft (z n : Z) : Z := ToInt32 (ToInt32 z * 2 ^ n).

(** [objectId.charCodeAt(i)]; a character of a Rocq string is one code unit
    below 256. *)
Definition charCode (c : ascii) : Z := Z.of_nat (nat_of_ascii c).

(** The [for] loop over the code units of [objectId]; the sum and the
    difference are those of numbers, not of 32-bit integers. *)
Fixpoint hash_loop (objectId : string) (hash : Z) : Z :=
  match objectId with
  | EmptyString => hash
  | String c rest => hash_loop rest (charCode c + (shiftLeft hash 5 - hash))%Z
  end.

Definition getColorForObjectId (objectId : string) : string :=
  let hash := hash_loop objectId 0%Z in
  let index := (Z.abs hash mod Z.of_nat (List.length colors))%Z in
  nth (Z.to_nat index) colors "undefined".

End Palette.

(* ================================================================= *)
(** ** src/pages/Dashboard.tsx: [formatEta] and [formatDistance] *)

Module Format.
Import Js.

(** The character of a decimal digit. *)
Definition digit (d : Z) : ascii := ascii_of_nat (48 + Z.to_nat d).

(** The decimal digits of a natural number, most significant first; [fuel]
    bounds the number of digits. *)
Fixpoint digits_of (fuel : nat) (n : Z) : string :=
  match fuel with
  | O => ""
  | S fuel' =>
      if (n <? 10)%Z then String (digit n) ""
      else (digits_of fuel' (n / 10) ++ String (digit (n mod 10)) "")%string
  end.

Definition String_of_natural (n : Z) : string :=
  digits_of (S (Z.to_nat (Z.log2 n))) n.

(** [String(n)] and [`${n}`] for an integer-valued number below [10^21] in
    magnitude: its decimal digits, with a minus sign when negative. *)
Definition String_of_integer (z : Z) : string :=
  if (z <? 0)%Z then ("-" ++ String_of_natural (- z))%string else String_of_natural z.

Definition Math_floor (x : R) : Z := Zfloor x.

(** [Math.round]: the nearest integer, the larger one on a tie. *)
Definition Math_round (x : R) : Z := Zfloor (x + 1 / 2).

(** [x % y] for finite [x] and [y <> 0]: the quotient is truncated towards
    zero, so the remainder has the sign of [x]. *)
Definition truncate (x : R) : Z :=
  if Rlt_dec x 0 then (- Zfloor (- x))%Z else Zfloor x.

Definition remainder (x y : R) : R := x - y * IZR (truncate (x / y)).

Fixpoint zeros (n : nat) : string :=
  match n with
  | O => ""
  | S n' => String "0" (zeros n')
  end.

(** [x.toFixed(fractionDigits)] for [x] below [10^21] in magnitude: the
    integer [n] nearest to [x * 10^fractionDigits] (the larger one on a tie,
    taken on the magnitude of [x]), written with a decimal point before its
    last [fractionDigits] digits. *)
Definition toFixed (x : R) (fractionDigits : nat) : string :=
  let n := Zfloor (Rabs x * 10 ^ fractionDigits + 1 / 2) in
  let digits := String_of_integer n in
  let body :=
    match fractionDigits with
    | O => digits
    | S _ =>
        let padded :=
          (zeros (S fractionDigits - String.length digits)%nat ++ digits)%string in
        let k := (String.length padded - fractionDigits)%nat in
        (substring 0 k padded ++ "." ++ substring k fractionDigits padded)%string
    end in
  if ltb x 0 then ("-" ++ body)%string else body.

Section Division.

(** [x / y] on finite numbers, as the doubles have it: the double nearest
    to the exact quotient. The digits that the two functions print depend on
    that rounding (a tie of [toFixed] is decided on the rounded quotient), so
    the division is a parameter here. The other operations of the two
    functions ([%], [Math.floor], [Math.round], [toFixed], the comparisons)
    are exact on doubles. *)
Variable divide : R -> R -> R.

Definition formatEta (seconds : option number) : string :=
  match seconds with
  | None => "N/A"
  | Some (Finite seconds) =>
      if ltb seconds 60 then
        String_of_integer (Z.max 1 (Math_round seconds)) ++ "s"
      else
        let minutes := Math_floor (divide seconds 60) in
        let secs := Math_round (remainder seconds 60) in
        if (0 <? secs)%Z then
          String_of_integer minutes ++ "m " ++ String_of_integer secs ++ "s"
        else String_of_integer minutes ++ "m"
  | Some _ => "N/A"
  end.

Definition formatDistance (meters : number) : string :=
  match meters with
  | Finite meters =>
      if leb 1000 meters then toFixed (divide meters 1000) 2 ++ " km"
      else toFixed meters 0 ++ " m"
  | _ => "N/A"
  end.

End Division.

End Format.

(* ================================================================= *)
(** ** src/pages/Dashboard.tsx: the [filteredEvents] memo of [HistoryPanel] *)

Module History.
Import Js.

Section FilteredEvents.

(** [dayjs(s).valueOf()] and [new Date(s).getTime()]: milliseconds since the
    epoch, NaN for a string that is not a date. *)
Variable dayjs_valueOf : string -> number.
Variable Date_getTime : string -> number.

(** The callback of [filter]. [startTime] and [endTime] are
    [startDate.startOf('day').valueOf()] and [endDate.endOf('day').valueOf()],
    [None] when the date is not set. *)
Definition in_period (startTime endTime : option number) (event : DetectionEvent) : bool :=
  let eventTime := dayjs_valueOf (timestamp event) in
  if match startTime with
     | Some startTime => lt eventTime startTime
     | None => false
     end
  then false
  else if match endTime with
          | Some endTime => lt endTime eventTime
          | None => false
          end
  then false
  else true.

Definition filteredEvents (events : list DetectionEvent) (startTime endTime : option number)
  : list DetectionEvent :=
  Array_sort
    (fun a b => sub (Date_getTime (timestamp b)) (Date_getTime (timestamp a)))
    (filter (in_period startTime endTime) events).

End FilteredEvents.

End History.

(* ================================================================= *)
(** ** The map component: the selected marker *)

Module SelectedMarker.

(** [markerDescriptors.some((descriptor) => descriptor.type === 'single' &&
    descriptor.object.obj_id === selectedObject.obj_id)]. *)
Definition stillVisible (markerDescriptors : list MarkerDescriptor)
    (selectedObject : DetectedObject) : bool :=
  existsb
    (fun descriptor =>
       match descriptor with
       | single _ _ object => String.eqb (obj_id object) (obj_id selectedObject)
       | cluster _ _ _ => false
       end)
    markerDescriptors.

(** The effect on [markerDescriptors] and [selectedObject]: the selection is
    closed when its marker is gone. *)
Definition after_markers (markerDescriptors : list MarkerDescriptor)
    (selectedObject : option DetectedObject) : option DetectedObject :=
  match selectedObject with
  | None => None
  | Some selected =>
      if stillVisible markerDescriptors selected then Some selected else None
  end.

End SelectedMarker.

(* ================================================================= *)
(** ** Vocabulary of the specification *)

(** The objects of an event list in iteration order, each with the timestamp
    of its event: the order in which both passes visit them. *)
Definition occurrences (events : list DetectionEvent) : list (DetectedObject * string) :=
  flat_map
    (fun event =>
       match objects event with
       | Some objs => map (fun obj => (obj, timestamp event)) objs
       | None => []
       end)
    events.

(** [x] occurs in [l] and nothing after that occurrence has its key. *)
Definition last_with {A : Type} (key : A -> string) (l : list A) (x : A) : Prop :=
  exists before after,
    l = before ++ x :: after /\ forall y, In y after -> key y <> key x.


(** An event that carries an array of objects. *)
Definition has_objects (event : DetectionEvent) : bool :=
  match objects event with
  | Some _ => true
  | None => false
  end.

(** The step of a pass that writes every item: [map.set(key, entry)]. *)
Definition set_step {B V : Type} (keyB : B -> string) (entry : B -> V)
    (m : Js.Map.t V) (y : B) : Js.Map.t V :=
  Js.Map.set (keyB y) (entry y) m.

(** [e] is the entry of the last item of [ys] with key [k]. *)
Definition last_write {B V : Type} (keyB : B -> string) (entry : B -> V)
    (ys : list B) (k : string) (e : V) : Prop :=
  exists before y after,
    ys = before ++ y :: after /\ keyB y = k /\ entry y = e
    /\ forall y', In y' after -> keyB y' <> k.

(** The step of a pass that writes the items that yield an entry, unless
    their key is already there: [if (!seen.has(key)) seen.set(key, entry)]. *)
Definition set_once_step {B V : Type} (keyB : B -> string) (entry : B -> option V)
    (m : Js.Map.t V) (y : B) : Js.Map.t V :=
  match entry y with
  | None => m
  | Some e => if Js.Map.has (keyB y) m then m else Js.Map.set (keyB y) e m
  end.

(** [e] is the entry of the first item of [ys] with key [k] that yields
    one. *)
Definition first_write {B V : Type} (keyB : B -> string) (entry : B -> option V)
    (ys : list B) (k : string) (e : V) : Prop :=
  exists before y after,
    ys = before ++ y :: after /\ keyB y = k /\ entry y = Some e
    /\ forall y', In y' before -> keyB y' = k -> entry y' = None.

(** The comparator [(a, b) => key(a) - key(b)] and the order it sorts by. *)
Definition by_key {A : Type} (key : A -> R) (a b : A) : Js.number :=
  Js.Finite (key a - key b).

Definition ascending {A : Type} (key : A -> R) (a b : A) : Prop :=
  key a <= key b.

(** The registry entry written for an occurrence, and the id of an entry. *)
Definition entry_of (p : DetectedObject * string) : LatestObjectEntry.t :=
  LatestObjectEntry.mk (fst p) (snd p).

Definition entry_id (e : LatestObjectEntry.t) : string :=
  obj_id (LatestObjectEntry.object e).

(** The objects of an event list in the order the passes visit them. *)
Definition scan_order (events : list DetectionEvent) : list DetectedObject :=
  map fst (occurrences events).

(** [obj] has finite coordinates in its own [lat] and [lng], [d] is what
    [calculateDistanceMeters] gives from [location] to them, and [d] passes
    the range test of the alert pass: [d > radius] is false. *)
Definition in_range (location : LatLng.t) (radius : R) (obj : DetectedObject)
    (d : Js.number) : Prop :=
  exists lat lng,
    Dashboard.coordinate_number (Js.prop (as_record obj) "lat") = Js.Finite lat
    /\ Dashboard.coordinate_number (Js.prop (as_record obj) "lng") = Js.Finite lng
    /\ d = Dashboard.calculateDistanceMeters location (LatLng.mk lat lng)
    /\ Js.gt d (Js.Finite radius) = false.

(** The entry the alert pass builds for an object that passes its tests. *)
Definition alert_entry (location : LatLng.t) (radius : R) (obj : DetectedObject)
  : option Intruder.t :=
  match Dashboard.coordinate_number (Js.prop (as_record obj) "lat"),
        Dashboard.coordinate_number (Js.prop (as_record obj) "lng") with
  | Js.Finite lat, Js.Finite lng =>
      let d := Dashboard.calculateDistanceMeters location (LatLng.mk lat lng) in
      if Js.gt d (Js.Finite radius) then None
      else Some (Intruder.mk obj d (Dashboard.eta_of (Dashboard.legacy_speed obj) d))
  | _, _ => None
  end.

Definition intruder_id (e : Intruder.t) : string := obj_id (Intruder.object e).

(** *** Clustering, in the words of the specification *)


(** The centroid of [c] is within [tolerance] of [p]: planar Euclidean
    distance on latitude and longitude taken as Cartesian coordinates,
    strictly below the tolerance. *)
Definition within (tolerance : R) (c : Cluster.t) (p : LatLng.t) : Prop :=
  sqrt ((Cluster.lat c - LatLng.lat p) * (Cluster.lat c - LatLng.lat p)
        + (Cluster.lng c - LatLng.lng p) * (Cluster.lng c - LatLng.lng p))
  < tolerance.

(** [c'] is [c] once [object], which lies at [p], has joined it: the object
    is one more member, after those of [c], and the centroid has moved by
    the running-mean update [centroid += (point - centroid) / newMemberCount],
    with the members of [c'] counted. *)
Definition joined (c : Cluster.t) (object : DetectedObject) (p : LatLng.t) (c' : Cluster.t)
  : Prop :=
  Cluster.objects c' = Cluster.objects c ++ [object]
  /\ Cluster.lat c'
     = Cluster.lat c
       + (LatLng.lat p - Cluster.lat c) / INR (List.length (Cluster.objects c'))
  /\ Cluster.lng c'
     = Cluster.lng c
       + (LatLng.lng p - Cluster.lng c) / INR (List.length (Cluster.objects c')).

(** [c] is the cluster started by [object] at [p]: its only member so far,
    with the centroid on [p]. *)
Definition started (object : DetectedObject) (p : LatLng.t) (c : Cluster.t) : Prop :=
  Cluster.objects c = [object]
  /\ Cluster.lat c = LatLng.lat p
  /\ Cluster.lng c = LatLng.lng p.

(** One object of the greedy pass: an object without a position leaves the
    clusters as they are; an object with one joins the first cluster, in
    creation order, whose centroid is within the tolerance, and the other
    clusters stay as they are; when there is none it starts a new cluster,
    last in creation order, at its own coordinate. *)
Inductive greedy_step (tolerance : R) (clusters : list Cluster.t) (object : DetectedObject)
  : list Cluster.t -> Prop :=
| greedy_skip :
    MapComponent.getPrimaryCoordinates object = None ->
    greedy_step tolerance clusters object clusters
| greedy_join (p : LatLng.t) (before : list Cluster.t) (c c' : Cluster.t)
    (after : list Cluster.t) :
    MapComponent.getPrimaryCoordinates object = Some p ->
    clusters = before ++ c :: after ->
    (forall x, In x before -> ~ within tolerance x p) ->
    within tolerance c p ->
    joined c object p c' ->
    greedy_step tolerance clusters object (before ++ c' :: after)
| greedy_new (p : LatLng.t) (c : Cluster.t) :
    MapComponent.getPrimaryCoordinates object = Some p ->
    (forall x, In x clusters -> ~ within tolerance x p) ->
    started object p c ->
    greedy_step tolerance clusters object (clusters ++ [c]).

(** The greedy pass: the objects one after the other, in input order. *)
Inductive greedy_pass (tolerance : R) : list Cluster.t -> list DetectedObject -> list Cluster.t -> Prop :=
| greedy_done (clusters : list Cluster.t) :
    greedy_pass tolerance clusters [] clusters
| greedy_next (clusters clusters' final : list Cluster.t) (object : DetectedObject)
    (items : list DetectedObject) :
    greedy_step tolerance clusters object clusters' ->
    greedy_pass tolerance clusters' items final ->
    greedy_pass tolerance clusters (object :: items) final.

(** The arithmetic mean of a list of reals. *)
Definition mean (xs : list R) : R := fold_right Rplus 0 xs / INR (List.length xs).

(** A cluster started by a first member and joined, in order, by the
    others; each member comes with its coordinate. *)
Definition joined_in_order (first : DetectedObject * LatLng.t)
    (others : list (DetectedObject * LatLng.t)) : Cluster.t :=
  fold_left
    (fun c member =>
       MapComponent.join c (fst member) (LatLng.lat (snd member)) (LatLng.lng (snd member)))
    others
    (Cluster.mk (LatLng.lat (snd first)) (LatLng.lng (snd first)) [fst first]).

(** The centroid of [c] is the mean of the primary coordinates of its
    members. *)
Definition centroid_is_mean (c : Cluster.t) : Prop :=
  exists points,
    map MapComponent.getPrimaryCoordinates (Cluster.objects c) = map Some points
    /\ points <> []
    /\ Cluster.lat c = mean (map LatLng.lat points)
    /\ Cluster.lng c = mean (map LatLng.lng points).

(** The state of a cluster while it is built: it holds [members], each with
    its coordinate, in joining order, and its centroid is the mean of their
    coordinates. *)
Definition holds (c : Cluster.t) (members : list (DetectedObject * LatLng.t)) : Prop :=
  members <> []
  /\ Cluster.objects c = map fst members
  /\ Cluster.lat c = mean (map (fun m => LatLng.lat (snd m)) members)
  /\ Cluster.lng c = mean (map (fun m => LatLng.lng (snd m)) members).


(** *** Sample payloads *)

(** An object whose position is only in its telemetry block. *)
Definition telemetry_only_object : DetectedObject :=
  mkObject "obj_001"
    [("type", Js.Str "drone");
     ("details",
      Js.Obj [("lat", Js.Num (Js.Finite 14.297567));
              ("lng", Js.Num (Js.Finite 101.166279));
              ("speed", Js.Num (Js.Finite 5))])].

(** An object at the default defended point, with its coordinates and its
    speed sent as strings and a numeric speed in the telemetry block. *)
Definition string_encoded_object : DetectedObject :=
  mkObject "obj_002"
    [("type", Js.Str "drone");
     ("lat", Js.Str "14.297567");
     ("lng", Js.Str "101.166279");
     ("speed", Js.Str "10");
     ("details", Js.Obj [("speed", Js.Num (Js.Finite 5))])].

(** The same object as a later sighting, with a numeric speed. *)
Definition numeric_object : DetectedObject :=
  mkObject "obj_002"
    [("type", Js.Str "drone");
     ("lat", Js.Num (Js.Finite 14.297567));
     ("lng", Js.Num (Js.Finite 101.166279));
     ("speed", Js.Num (Js.Finite 10))].

Definition event_of (n : Z) (time : string) (objs : option (list DetectedObject))
  : DetectionEvent :=
  mkEvent n "cam-defence" time "/uploads/images/frame.jpg" objs.

(** A clock for the sample payloads: [new Date(s).getTime()] on the two
    timestamps they use, NaN elsewhere. *)
Definition sample_getTime (s : string) : Js.number :=
  if String.eqb s "2025-01-01T00:00:00.000Z" then Js.Finite 1735689600000
  else if String.eqb s "2025-01-01T00:00:10.000Z" then Js.Finite 1735689610000
  else Js.NaN.

(** Two sightings of [obj_002]; the array holds the later one first. *)
Definition sample_events : list DetectionEvent :=
  [event_of 2 "2025-01-01T00:00:10.000Z" (Some [string_encoded_object]);
   event_of 1 "2025-01-01T00:00:00.000Z" (Some [numeric_object])].

(** The alert entry of the first sighting of [sample_events]. *)
Definition sample_intruder : Intruder.t :=
  Intruder.mk string_encoded_object
    (Dashboard.calculateDistanceMeters Dashboard.DEFAULT_DEFENCE_LOCATION
       (LatLng.mk 14.297567 101.166279))
    None.

(** Degrees as radians, over the reals. *)
Definition radians (degrees : R) : R := degrees * PI / 180.

(** The quantity [a] of [calculateDistanceMeters] over the reals: the
    haversine of the central angle between the two points. *)
Definition haversine (from to : LatLng.t) : R :=
  let sinDLat := sin (radians (LatLng.lat to - LatLng.lat from) / 2) in
  let sinDLng := sin (radians (LatLng.lng to - LatLng.lng from) / 2) in
  sinDLat * sinDLat
  + cos (radians (LatLng.lat from)) * cos (radians (LatLng.lat to)) * sinDLng * sinDLng.

(** The haversine distance over the reals. *)
Definition great_circle_meters (from to : LatLng.t) : R :=
  EARTH_RADIUS_METERS
  * (2 * Js.atan2 (sqrt (haversine from to)) (sqrt (1 - haversine from to))).

(** A number of degrees that [toRadians] keeps finite: its product with
    [Math.PI] is in the range of the doubles. *)
Definition convertible (degrees : R) : Prop :=
  Rabs (degrees * PI) < Js.overflow_threshold.

(** The two points are in the range where [calculateDistanceMeters] stays
    within finite numbers: the two latitudes and the two differences are
    convertible. *)
Definition measurable (from to : LatLng.t) : Prop :=
  convertible (LatLng.lat to - LatLng.lat from)
  /\ convertible (LatLng.lng to - LatLng.lng from)
  /\ convertible (LatLng.lat from)
  /\ convertible (LatLng.lat to).

(** *** Markers *)

(** The object has primary coordinates. *)
Definition located (object : DetectedObject) : bool :=
  match MapComponent.getPrimaryCoordinates object with
  | Some _ => true
  | None => false
  end.

(** The objects a marker stands for. *)
Definition descriptor_objects (d : MarkerDescriptor) : list DetectedObject :=
  match d with
  | single _ _ object => [object]
  | cluster _ _ objects => objects
  end.

(** The marker of a located object when nothing is clustered. *)
Definition single_marker_of (d : MarkerDescriptor) (object : DetectedObject) : Prop :=
  exists p,
    MapComponent.getPrimaryCoordinates object = Some p
    /\ d = single (LatLng.lat p) (LatLng.lng p) object.

(** An object with numeric coordinates. *)
Definition object_at (name : string) (lat lng : R) : DetectedObject :=
  mkObject name [("lat", Js.Num (Js.Finite lat)); ("lng", Js.Num (Js.Finite lng))].

(** Three objects on a meridian, 0.001 and 0.0018 degrees apart. *)
Definition south_object : DetectedObject := object_at "south" 0 0.
Definition middle_object : DetectedObject := object_at "middle" 0.001 0.
Definition north_object : DetectedObject := object_at "north" 0.0028 0.



(** The object has finite coordinates in its own [lat] and [lng]: the
    position the alert pass reads. *)
Definition positioned (obj : DetectedObject) (p : LatLng.t) : Prop :=
  Dashboard.coordinate_number (Js.prop (as_record obj) "lat") = Js.Finite (LatLng.lat p)
  /\ Dashboard.coordinate_number (Js.prop (as_record obj) "lng") = Js.Finite (LatLng.lng p).

(** The ETA text and the distance text of an alert entry, as the panel
    renders them. *)
Definition eta_text (divide : R -> R -> R) (e : Intruder.t) : string :=
  Format.formatEta divide (Intruder.etaSeconds e).

Definition distance_text (divide : R -> R -> R) (e : Intruder.t) : string :=
  Format.formatDistance divide (Intruder.distance e).

(** What the texts need of the division of the doubles, by a divisor above
    0. For a quotient from 1 up, the rounded quotient is within half a unit
    in the last place of the exact one, hence within [2^-53] of it in
    proportion. Rounding keeps the order, and a whole number up to [2^53]
    is a double: the rounded quotient is on the same side of such a number
    as the exact one. *)
Definition rounds_to_nearest (divide : R -> R -> R) : Prop :=
  (forall x y,
      0 < y -> 1 <= x / y <= 2 ^ 1023 ->
      Rabs (divide x y - x / y) <= x / y * / 2 ^ 53)
  /\ (forall x y k,
        0 < y -> (Z.abs k <= 2 ^ 53)%Z -> IZR k <= x / y -> IZR k <= divide x y)
  /\ (forall x y k,
        0 < y -> (Z.abs k <= 2 ^ 53)%Z -> x / y <= IZR k -> divide x y <= IZR k).

(** [a <= b] holds on two numbers. *)
Definition at_most (a b : Js.number) : Prop := Js.le a b = true.

(** An object whose latitude is a finite number that is no latitude: its
    product with [Math.PI] is beyond the doubles. *)
Definition far_object : DetectedObject :=
  mkObject "obj_far"
    [("type", Js.Str "drone");
     ("lat", Js.Num (Js.Finite (IZR (10 ^ 308))));
     ("lng", Js.Num (Js.Finite 0))].

(** One event with the far object and an object on the defended point. *)
Definition far_and_near_events : list DetectionEvent :=
  [event_of 3 "2025-01-01T00:00:20.000Z" (Some [far_object; numeric_object])].

(** The time of an event, when its timestamp is a date. *)
Definition event_time (Date_getTime : string -> Js.number) (event : DetectionEvent) : R :=
  match Date_getTime (timestamp event) with
  | Js.Finite t => t
  | _ => 0
  end.

(** An object whose [lat] is a word and whose [latitude] is a number. *)
Definition mislabelled_object : DetectedObject :=
  mkObject "obj_003"
    [("lat", Js.Str "north");
     ("latitude", Js.Num (Js.Finite 14.3));
     ("lng", Js.Num (Js.Finite 101.2))].

(* ================================================================= *)
(** ** Facts about the JavaScript model *)

Section MapFacts.
Context {V : Type}.
Implicit Types (m : Js.Map.t V) (k : string) (v : V).

Lemma has_keys m k : Js.Map.has k m = true <-> In k (Js.Map.keys m).
Proof.
  induction m as [|[k0 v0] m IH]; simpl.
  - split; [discriminate | tauto].
  - destruct (String.eqb_spec k0 k) as [->|Hne].
    + split; auto.
    + rewrite IH. split; [auto | intros [H|H]; [contradiction | exact H]].
Qed.

Lemma has_false_keys m k : Js.Map.has k m = false <-> ~ In k (Js.Map.keys m).
Proof.
  rewrite <- has_keys. destruct (Js.Map.has k m); split; congruence.
Qed.

Lemma set_absent m k v : Js.Map.has k m = false -> Js.Map.set k v m = m ++ [(k, v)].
Proof.
  induction m as [|[k0 v0] m IH]; simpl; intros H; [reflexivity|].
  destruct (String.eqb k0 k); [discriminate|]. now rewrite IH.
Qed.

Lemma keys_set m k v :
  Js.Map.keys (Js.Map.set k v m)
  = if Js.Map.has k m then Js.Map.keys m else Js.Map.keys m ++ [k].
Proof.
  induction m as [|[k0 v0] m IH]; simpl; [reflexivity|].
  destruct (String.eqb_spec k0 k) as [->|Hne]; simpl; [reflexivity|].
  rewrite IH. now destruct (Js.Map.has k m).
Qed.

Lemma NoDup_keys_set m k v :
  NoDup (Js.Map.keys m) -> NoDup (Js.Map.keys (Js.Map.set k v m)).
Proof.
  intros Hnd. rewrite keys_set.
  destruct (Js.Map.has k m) eqn:Hhas; [exact Hnd|].
  apply has_false_keys in Hhas.
  apply NoDup_app; [exact Hnd | repeat constructor; simpl; tauto |].
  intros x Hx [<-|[]]. contradiction.
Qed.

Lemma In_set m k v k' v' :
  NoDup (Js.Map.keys m) ->
  In (k', v') (Js.Map.set k v m)
  <-> (k' = k /\ v' = v) \/ (k' <> k /\ In (k', v') m).
Proof.
  induction m as [|[k0 v0] m IH]; simpl; intros Hnd.
  - split.
    + intros [H|[]]. inversion H. auto.
    + intros [[-> ->]|[_ []]]. auto.
  - inversion Hnd as [|? ? Hnotin Hnd']; subst.
    destruct (String.eqb_spec k0 k) as [->|Hne]; simpl.
    + split.
      * intros [H|H]; [inversion H; auto|].
        right. split; [|auto]. intros ->.
        apply Hnotin. change k with (fst (k, v')). now apply in_map.
      * intros [[-> ->]|[Hne [H|H]]]; auto. inversion H; subst. contradiction.
    + rewrite (IH Hnd'). split.
      * intros [H|[H|[Hk H]]]; auto. inversion H; subst. auto.
      * intros [H|[Hk [H|H]]]; auto.
Qed.

End MapFacts.

Lemma snoc_case {A : Type} (l : list A) : l = [] \/ exists l' x, l = l' ++ [x].
Proof.
  destruct l as [|a l] using rev_ind; [now left | right; eauto].
Qed.

(** Splitting [ys ++ [y]] at an element: it is the last one, or the split
    is a split of [ys]. *)
Lemma split_snoc {A : Type} (ys before after : list A) (y x : A) :
  ys ++ [y] = before ++ x :: after ->
  (after = [] /\ before = ys /\ x = y)
  \/ (exists after', after = after' ++ [y] /\ ys = before ++ x :: after').
Proof.
  intros H. destruct (snoc_case after) as [->|(after' & z & ->)].
  - left. apply app_inj_tail in H as [-> ->]. auto.
  - right. exists after'.
    change (before ++ x :: after' ++ [z]) with (before ++ (x :: after') ++ [z]) in H.
    rewrite app_assoc in H. apply app_inj_tail in H as [-> ->]. auto.
Qed.

(** *** A pass of [map.set(key, entry)]: the last write of each key stays *)

Section LastWriteWins.
Context {B V : Type}.
Variable keyB : B -> string.
Variable entry : B -> V.

Local Abbreviation set_step := (set_step keyB entry).
Local Abbreviation last_write := (last_write keyB entry).

Lemma last_write_snoc ys y k e :
  last_write (ys ++ [y]) k e
  <-> (keyB y = k /\ entry y = e) \/ (keyB y <> k /\ last_write ys k e).
Proof.
  split.
  - intros (before & y0 & after & Heq & Hk & He & Hafter).
    apply split_snoc in Heq as [(-> & -> & ->)|(after' & -> & ->)].
    + now left.
    + right. split.
      * apply Hafter. apply in_or_app. right. now left.
      * exists before, y0, after'. repeat split; auto.
        intros y' Hy'. apply Hafter. apply in_or_app. now left.
  - intros [[Hk He]|[Hne (before & y0 & after & -> & Hk & He & Hafter)]].
    + exists ys, y, []. repeat split; auto; intros y' [].
    + exists before, y0, (after ++ [y]). rewrite <- app_assoc. repeat split; auto.
      intros y' Hy'. apply in_app_or in Hy' as [Hy'|[<-|[]]]; auto.
Qed.

Lemma fold_set_last ys :
  let m := fold_left set_step ys Js.Map.empty in
  NoDup (Js.Map.keys m) /\ forall k e, In (k, e) m <-> last_write ys k e.
Proof.
  induction ys as [|y ys IH] using rev_ind; simpl.
  - split; [constructor|]. intros k e. split; [intros []|].
    intros (before & y0 & after & Heq & _). now destruct before.
  - rewrite fold_left_app. simpl in *. destruct IH as [Hnd Hin]. split.
    + now apply NoDup_keys_set.
    + intros k e. unfold set_step at 1. rewrite (In_set _ _ _ _ _ Hnd).
      rewrite last_write_snoc, Hin. split.
      * intros [[-> ->]|[Hne H]]; auto.
      * intros [[<- <-]|[Hne H]]; auto.
Qed.

(** Every key written has a last write. *)
Lemma last_write_exists ys k :
  In k (map keyB ys) -> exists e, last_write ys k e.
Proof.
  induction ys as [|y ys IH] using rev_ind; simpl; [intros []|].
  rewrite map_app, in_app_iff. simpl. intros Hin.
  destruct (string_dec (keyB y) k) as [Heq|Hne].
  - exists (entry y). apply last_write_snoc. now left.
  - destruct Hin as [Hin|[Hin|[]]]; [|contradiction].
    destruct (IH Hin) as [e He]. exists e. apply last_write_snoc. now right.
Qed.

End LastWriteWins.

(** *** A pass of [if (!seen.has(key)) seen.set(key, entry)] over the items
    that pass a filter: the first write of each key stays *)

Section FirstWriteWins.
Context {B V : Type}.
Variable keyB : B -> string.
Variable entry : B -> option V.

Local Abbreviation set_once_step := (set_once_step keyB entry).
Local Abbreviation first_write := (first_write keyB entry).

Lemma first_write_snoc ys y k e :
  first_write (ys ++ [y]) k e
  <-> first_write ys k e
      \/ (keyB y = k /\ entry y = Some e
          /\ forall y', In y' ys -> keyB y' = k -> entry y' = None).
Proof.
  split.
  - intros (before & y0 & after & Heq & Hk & He & Hbefore).
    apply split_snoc in Heq as [(-> & -> & ->)|(after' & -> & ->)].
    + right. auto.
    + left. exists before, y0, after'. auto.
  - intros [(before & y0 & after & -> & Hk & He & Hbefore)|(Hk & He & Hbefore)].
    + exists before, y0, (after ++ [y]). rewrite <- app_assoc. auto.
    + exists ys, y, []. auto.
Qed.

Lemma first_write_exists ys k y e :
  In y ys -> keyB y = k -> entry y = Some e -> exists e', first_write ys k e'.
Proof.
  induction ys as [|y0 ys IH]; simpl; [intros []|].
  intros Hin Hk He.
  destruct (string_dec (keyB y0) k) as [Hk0|Hk0].
  - destruct (entry y0) as [e0|] eqn:He0.
    + exists e0, [], y0, ys. repeat split; auto; intros y' [].
    + destruct Hin as [->|Hin]; [congruence|].
      destruct (IH Hin Hk He) as (e' & before & y1 & after & -> & Hk1 & He1 & Hb).
      exists e', (y0 :: before), y1, after. repeat split; auto.
      intros y' [<-|Hy'] Hy'k; auto.
  - destruct Hin as [->|Hin]; [contradiction|].
    destruct (IH Hin Hk He) as (e' & before & y1 & after & -> & Hk1 & He1 & Hb).
    exists e', (y0 :: before), y1, after. repeat split; auto.
    intros y' [<-|Hy'] Hy'k; [contradiction | auto].
Qed.

Lemma first_write_occurs ys k e :
  first_write ys k e -> exists y, In y ys /\ keyB y = k /\ entry y = Some e.
Proof.
  intros (before & y & after & -> & Hk & He & _).
  exists y. split; auto. apply in_or_app. right. now left.
Qed.

Lemma fold_set_once_first ys :
  let m := fold_left set_once_step ys Js.Map.empty in
  NoDup (Js.Map.keys m) /\ forall k e, In (k, e) m <-> first_write ys k e.
Proof.
  induction ys as [|y ys IH] using rev_ind; simpl.
  - split; [constructor|]. intros k e. split; [intros []|].
    intros (before & y0 & after & Heq & _). now destruct before.
  - rewrite fold_left_app. simpl in *. destruct IH as [Hnd Hin].
    set (m := fold_left set_once_step ys Js.Map.empty) in *.
    assert (Hhas : forall k, Js.Map.has k m = true <-> exists e, first_write ys k e).
    { intros k. rewrite has_keys. unfold Js.Map.keys. rewrite in_map_iff. split.
      - intros ([k' e] & <- & H). exists e. now apply Hin.
      - intros [e H]. exists (k, e). split; [reflexivity | now apply Hin]. }
    unfold set_once_step.
    destruct (entry y) as [e0|] eqn:He0.
    + destruct (Js.Map.has (keyB y) m) eqn:Hh.
      * split; [exact Hnd|]. intros k e. rewrite first_write_snoc, Hin.
        split; [auto|]. intros [H|(Hk & He & Hbefore)]; [exact H|].
        apply Hhas in Hh as [e1 H1].
        apply first_write_occurs in H1 as (y1 & Hy1 & Hk1 & He1).
        rewrite (Hbefore y1 Hy1) in He1; congruence.
      * split; [now apply NoDup_keys_set|]. intros k e.
        rewrite (In_set _ _ _ _ _ Hnd), first_write_snoc, Hin. split.
        -- intros [[-> ->]|[Hne H]]; auto. right. repeat split; auto.
           intros y' Hy' Hk'. destruct (entry y') as [e'|] eqn:He'; [|reflexivity].
           destruct (first_write_exists ys _ y' e' Hy' Hk' He') as [e1 H1].
           assert (Js.Map.has (keyB y) m = true) by (apply Hhas; eauto).
           congruence.
        -- intros [H|(Hk & He & Hbefore)].
           ++ right. split; [|exact H]. intros ->.
              assert (Js.Map.has (keyB y) m = true) by (apply Hhas; eauto).
              congruence.
           ++ left. split; congruence.
    + split; [exact Hnd|]. intros k e. rewrite first_write_snoc, Hin.
      split; [auto|]. intros [H|(Hk & He & _)]; [exact H | congruence].
Qed.

End FirstWriteWins.

(** *** [Array.prototype.sort] *)

Section SortFacts.
Context {A : Type}.
Variable comparefn : A -> A -> Js.number.

Lemma insert_perm x l : Permutation (Js.insert comparefn x l) (x :: l).
Proof.
  induction l as [|y l IH]; simpl; [reflexivity|].
  destruct (Js.gt0 (comparefn x y)); [|reflexivity].
  rewrite IH. apply perm_swap.
Qed.

Lemma Array_sort_perm l : Permutation (Js.Array_sort comparefn l) l.
Proof.
  induction l as [|x l IH]; simpl; [reflexivity|].
  rewrite insert_perm. now constructor.
Qed.

Lemma Array_sort_In l x : In x (Js.Array_sort comparefn l) <-> In x l.
Proof.
  split; apply Permutation_in; [|symmetry]; apply Array_sort_perm.
Qed.

End SortFacts.

Lemma ltb_true x y : Js.ltb x y = true <-> x < y.
Proof. unfold Js.ltb. destruct (Rlt_dec x y); split; auto; discriminate. Qed.

Lemma ltb_false x y : Js.ltb x y = false <-> y <= x.
Proof.
  unfold Js.ltb. destruct (Rlt_dec x y); split; auto; try discriminate; lra.
Qed.

Lemma leb_true x y : Js.leb x y = true <-> x <= y.
Proof. unfold Js.leb. destruct (Rle_dec x y); split; auto; discriminate. Qed.

Lemma leb_false x y : Js.leb x y = false <-> y < x.
Proof.
  unfold Js.leb. destruct (Rle_dec x y); split; auto; try discriminate; lra.
Qed.

(** Sorting with the comparator [(a, b) => key(a) - key(b)] on finite keys
    gives a list in ascending order of the key. *)
Section SortByKey.
Context {A : Type}.
Variable key : A -> R.

Local Abbreviation by_key := (by_key key).
Local Abbreviation ascending := (ascending key).

Lemma insert_by_key_sorted x l :
  StronglySorted ascending l -> StronglySorted ascending (Js.insert by_key x l).
Proof.
  induction 1 as [|y l Hs IH Hall]; simpl.
  - repeat constructor.
  - unfold by_key at 1. simpl. destruct (Js.ltb 0 (key x - key y)) eqn:Hcmp.
    + apply ltb_true in Hcmp. constructor; [exact IH|].
      apply Forall_forall. intros z Hz.
      apply (Permutation_in _ (insert_perm by_key x l)) in Hz as [<-|Hz].
      * unfold ascending. lra.
      * rewrite Forall_forall in Hall. now apply Hall.
    + apply ltb_false in Hcmp. constructor; [now constructor|].
      constructor; [unfold ascending; lra|].
      eapply Forall_impl; [|exact Hall]. unfold ascending. intros z Hz. lra.
Qed.

Lemma Array_sort_by_key_sorted l :
  StronglySorted ascending (Js.Array_sort by_key l).
Proof.
  induction l as [|x l IH]; simpl; [constructor|].
  now apply insert_by_key_sorted.
Qed.

End SortByKey.

(* ================================================================= *)
(** ** FeedAggregator: [buildLatestObjects] *)

Section RegistryFacts.
Variable Date_getTime : string -> Js.number.

(** The two nested [forEach] loops are one pass over [occurrences]. *)
Lemma latest_map_occurrences events m :
  fold_left Dashboard.record_event events m
  = fold_left (set_step (fun p => obj_id (fst p)) entry_of) (occurrences events) m.
Proof.
  revert m. induction events as [|ev events IH]; intros m; simpl; [reflexivity|].
  rewrite fold_left_app, IH. f_equal.
  unfold Dashboard.record_event. destruct (objects ev) as [objs|]; [|reflexivity].
  clear. revert m. induction objs as [|o objs IH]; intros m; simpl; [reflexivity|].
  now rewrite IH.
Qed.

Lemma latest_map_spec events :
  let m := Dashboard.latest_map events in
  NoDup (Js.Map.keys m)
  /\ forall k e,
       In (k, e) m <-> last_write (fun p => obj_id (fst p)) entry_of (occurrences events) k e.
Proof.
  unfold Dashboard.latest_map. rewrite latest_map_occurrences. apply fold_set_last.
Qed.

Lemma latest_map_key events k e :
  In (k, e) (Dashboard.latest_map events) -> k = entry_id e.
Proof.
  intros H. apply latest_map_spec in H as (before & p & after & _ & <- & <- & _).
  reflexivity.
Qed.

Lemma latest_map_ids events :
  map entry_id (Js.Map.values (Dashboard.latest_map events))
  = Js.Map.keys (Dashboard.latest_map events).
Proof.
  unfold Js.Map.values, Js.Map.keys. rewrite map_map.
  apply map_ext_in. intros [k e] H. simpl. symmetry. now apply latest_map_key in H.
Qed.

End RegistryFacts.

(** C1. For every ordered event list, [buildLatestObjects] yields exactly one
    entry per distinct [obj_id] (the ids of the entries are pairwise distinct
    and are exactly the ids that occur in the events), and each entry's
    [object] and [lastSeen] are the object and the event timestamp of the
    last occurrence of that id in iteration order, whatever the timestamps
    are. *)
Theorem buildLatestObjects_last_occurrence_wins :
  forall (Date_getTime : string -> Js.number) (events : list DetectionEvent),
    let result := Dashboard.buildLatestObjects Date_getTime events in
    NoDup (map entry_id result)
    /\ (forall k, In k (map entry_id result)
                  <-> In k (map (fun p => obj_id (fst p)) (occurrences events)))
    /\ (forall e, In e result ->
          last_with (fun p => obj_id (fst p)) (occurrences events)
            (LatestObjectEntry.object e, LatestObjectEntry.lastSeen e)).
Proof.
  intros Date_getTime events result.
  destruct (latest_map_spec events) as [Hnd Hin].
  set (cmp := fun a b : LatestObjectEntry.t =>
                Js.sub (Date_getTime (LatestObjectEntry.lastSeen b))
                       (Date_getTime (LatestObjectEntry.lastSeen a))).
  assert (Hperm : Permutation result (Js.Map.values (Dashboard.latest_map events)))
    by apply Array_sort_perm.
  assert (Hids : Permutation (map entry_id result) (Js.Map.keys (Dashboard.latest_map events))).
  { rewrite <- latest_map_ids. now apply Permutation_map. }
  assert (Hval : forall e, In e result -> In (entry_id e, e) (Dashboard.latest_map events)).
  { intros e He. apply (Permutation_in _ Hperm) in He.
    unfold Js.Map.values in He. apply in_map_iff in He as ([k e'] & <- & H).
    simpl. now rewrite <- (latest_map_key _ _ _ H). }
  split; [|split].
  - eapply Permutation_NoDup; [symmetry; exact Hids | exact Hnd].
  - intros k. split.
    + intros Hk. apply (Permutation_in _ Hids) in Hk.
      unfold Js.Map.keys in Hk. apply in_map_iff in Hk as ([k' e] & <- & H).
      apply Hin in H as (before & p & after & -> & <- & _). simpl.
      rewrite map_app. apply in_or_app. right. now left.
    + intros Hk.
      destruct (last_write_exists _ entry_of _ _ Hk) as [e He].
      apply Hin in He. apply (Permutation_in _ (Permutation_sym Hids)).
      unfold Js.Map.keys. apply in_map_iff. now exists (k, e).
  - intros e He. apply Hval, Hin in He as (before & p & after & -> & Hk & <- & Hafter).
    exists before, after. destruct p as [o ts]. simpl in *. split; [reflexivity|].
    intros y Hy. now apply Hafter.
Qed.

(* ================================================================= *)
(** ** The range of the doubles *)

Lemma overflow_threshold_lower : 2 ^ 970 <= Js.overflow_threshold.
Proof.
  unfold Js.overflow_threshold.
  replace 1024%nat with (970 + 54)%nat by reflexivity. rewrite pow_add.
  assert (H970 : 0 < 2 ^ 970) by (apply pow_lt; lra).
  assert (H54 : 2 ^ 1 <= 2 ^ 54) by (apply Rle_pow; [lra | lia]).
  simpl in H54. nra.
Qed.

Lemma overflow_threshold_large : 2 ^ 30 <= Js.overflow_threshold.
Proof.
  apply Rle_trans with (2 ^ 970); [|apply overflow_threshold_lower].
  apply Rle_pow; [lra | lia].
Qed.

Lemma overflow_threshold_pos : 0 < Js.overflow_threshold.
Proof.
  pose proof overflow_threshold_large as H.
  assert (H30 : 0 < 2 ^ 30) by (apply pow_lt; lra). lra.
Qed.

(** The three outcomes of an exact result. *)
Lemma of_real_cases r :
  (Rabs r < Js.overflow_threshold /\ Js.of_real r = Js.Finite r)
  \/ (Js.overflow_threshold <= r /\ Js.of_real r = Js.PosInfinity)
  \/ (r <= - Js.overflow_threshold /\ Js.of_real r = Js.NegInfinity).
Proof.
  pose proof overflow_threshold_pos as Hpos. unfold Js.of_real.
  destruct (Rle_dec Js.overflow_threshold r) as [Hhigh|Hhigh]; [now right; left|].
  destruct (Rle_dec r (- Js.overflow_threshold)) as [Hlow|Hlow]; [now right; right|].
  left. split; [|reflexivity]. apply Rabs_def1; lra.
Qed.

Lemma of_real_finite r : Rabs r < Js.overflow_threshold -> Js.of_real r = Js.Finite r.
Proof.
  intros Hr. apply Rabs_def2 in Hr as [Hhigh Hlow].
  destruct (of_real_cases r) as [[_ H]|[[H _]|[H _]]]; [exact H | lra | lra].
Qed.

Lemma of_real_small r : Rabs r <= 2 ^ 29 -> Js.of_real r = Js.Finite r.
Proof.
  intros Hr. apply of_real_finite. pose proof overflow_threshold_large as H.
  assert (H29 : 2 ^ 29 < 2 ^ 30) by (apply Rlt_pow; [lra | lia]). lra.
Qed.

(** The sign of an exact result survives the range. *)
Lemma gt0_of_real r : Js.gt0 (Js.of_real r) = Js.ltb 0 r.
Proof.
  pose proof overflow_threshold_pos as Hpos.
  destruct (of_real_cases r) as [[_ ->]|[[H ->]|[H ->]]]; simpl.
  - reflexivity.
  - symmetry. apply ltb_true. lra.
  - symmetry. apply ltb_false. lra.
Qed.

Lemma mul_NaN_r a : Js.mul a Js.NaN = Js.NaN.
Proof. now destruct a. Qed.

Lemma add_NaN_r a : Js.add a Js.NaN = Js.NaN.
Proof. now destruct a. Qed.

(* ================================================================= *)
(** ** The haversine distance

    Over the reals the quantity [a] stays in [[0, 1]] for all coordinates,
    so both square roots of [calculateDistanceMeters] are taken of
    non-negative numbers and the distance is between 0 and half the
    circumference. On numbers the distance is that real as long as the
    conversions to radians stay in the range of the doubles, and NaN as
    soon as one of them leaves it: the sine and the cosine of an infinity
    are NaN. *)

Lemma haversine_bounds u v y :
  0 <= sin ((v - u) / 2) * sin ((v - u) / 2) + cos u * cos v * sin y * sin y <= 1.
Proof.
  pose proof (cos_2a_sin ((v - u) / 2)) as H2.
  replace (2 * ((v - u) / 2)) with (v - u) in H2 by field.
  pose proof (cos_minus v u) as Hm. pose proof (cos_plus v u) as Hp.
  pose proof (COS_bound (v - u)) as [Hd1 Hd2].
  pose proof (COS_bound (v + u)) as [Hs1 Hs2].
  pose proof (sin2_cos2 y) as Hy. unfold Rsqr in Hy.
  pose proof (Rle_0_sqr (sin y)) as Hsy. pose proof (Rle_0_sqr (cos y)) as Hcy.
  unfold Rsqr in Hsy, Hcy.
  replace (cos u * cos v * sin y * sin y) with (cos u * cos v * (sin y * sin y)) by ring.
  generalize dependent (sin y * sin y). intros s Hy Hsy.
  assert (Huv : cos u * cos v = (cos (v - u) + cos (v + u)) / 2) by lra.
  rewrite Huv.
  assert (Hx : sin ((v - u) / 2) * sin ((v - u) / 2) = (1 - cos (v - u)) / 2) by lra.
  rewrite Hx. split; nra.
Qed.

Lemma haversine_unit from to : 0 <= haversine from to <= 1.
Proof.
  unfold haversine, radians.
  replace ((LatLng.lat to - LatLng.lat from) * PI / 180)
    with (LatLng.lat to * PI / 180 - LatLng.lat from * PI / 180) by field.
  apply haversine_bounds.
Qed.

Lemma atan2_quadrant y x : 0 <= y -> 0 <= x -> 0 <= Js.atan2 y x <= PI / 2.
Proof.
  intros Hy Hx. pose proof PI_RGT_0 as Hpi. unfold Js.atan2.
  destruct (Rlt_dec 0 x) as [Hpos|Hnpos].
  - pose proof (atan_bound (y / x)) as [_ Hub].
    assert (Hq : 0 <= y / x).
    { unfold Rdiv. apply Rmult_le_pos; [assumption|].
      left. now apply Rinv_0_lt_compat. }
    destruct Hq as [Hq|<-].
    + apply atan_increasing in Hq. rewrite atan_0 in Hq. lra.
    + rewrite atan_0. lra.
  - destruct (Rlt_dec x 0); [lra|].
    destruct (Rlt_dec 0 y); [lra|]. destruct (Rlt_dec y 0); lra.
Qed.

Lemma central_angle_range from to :
  0 <= Js.atan2 (sqrt (haversine from to)) (sqrt (1 - haversine from to)) <= PI / 2.
Proof. apply atan2_quadrant; apply sqrt_pos. Qed.

Lemma great_circle_range from to :
  0 <= great_circle_meters from to <= EARTH_RADIUS_METERS * PI.
Proof.
  unfold great_circle_meters. pose proof (central_angle_range from to) as [Hc0 Hc1].
  unfold EARTH_RADIUS_METERS. split; nra.
Qed.

Lemma great_circle_same p : great_circle_meters p p = 0.
Proof.
  unfold great_circle_meters, haversine, radians.
  replace (LatLng.lat p - LatLng.lat p) with 0 by ring.
  replace (LatLng.lng p - LatLng.lng p) with 0 by ring.
  replace (0 * PI / 180 / 2) with 0 by field.
  rewrite sin_0. rewrite !Rmult_0_r, Rplus_0_l, Rminus_0_r, sqrt_0, sqrt_1.
  unfold Js.atan2. destruct (Rlt_dec 0 1) as [_|H]; [|lra].
  replace (0 / 1) with 0 by field. rewrite atan_0. ring.
Qed.

Lemma haversine_sym from to : haversine from to = haversine to from.
Proof.
  unfold haversine.
  replace (radians (LatLng.lat from - LatLng.lat to) / 2)
    with (- (radians (LatLng.lat to - LatLng.lat from) / 2))
    by (unfold radians; field).
  replace (radians (LatLng.lng from - LatLng.lng to) / 2)
    with (- (radians (LatLng.lng to - LatLng.lng from) / 2))
    by (unfold radians; field).
  rewrite !sin_neg. ring.
Qed.

Lemma great_circle_sym from to : great_circle_meters from to = great_circle_meters to from.
Proof. unfold great_circle_meters. now rewrite (haversine_sym from to). Qed.

Lemma PI_above_3 : 3 < PI.
Proof. pose proof PI2_3_2. lra. Qed.

Lemma convertible_magnitude x : convertible x -> Rabs x < Js.overflow_threshold.
Proof.
  unfold convertible. rewrite Rabs_mult. pose proof PI_above_3 as Hpi.
  rewrite (Rabs_pos_eq PI) by lra. pose proof (Rabs_pos x). nra.
Qed.

Lemma convertible_opp x y : convertible (x - y) -> convertible (y - x).
Proof.
  unfold convertible. replace ((y - x) * PI) with (- ((x - y) * PI)) by ring.
  now rewrite Rabs_Ropp.
Qed.

(** [toRadians] on an infinity, and on a finite number: the radians when
    the number is convertible, an infinity when it is not. *)
Lemma toRadians_infinite n :
  n = Js.PosInfinity \/ n = Js.NegInfinity ->
  Dashboard.toRadians n = Js.PosInfinity \/ Dashboard.toRadians n = Js.NegInfinity.
Proof.
  pose proof PI_RGT_0 as Hpi. unfold Dashboard.toRadians.
  assert (Hzero : Js.is_zero (Js.Finite PI) = false).
  { simpl. destruct (Req_dec_T PI 0); [lra | reflexivity]. }
  assert (Hsign : Js.is_negative (Js.Finite PI) = false) by (apply ltb_false; lra).
  assert (H180 : Js.ltb 180 0 = false) by (apply ltb_false; lra).
  intros [->| ->]; unfold Js.mul; rewrite Hzero, orb_false_r, Hsign; simpl;
    rewrite H180; simpl; auto.
Qed.

Lemma toRadians_finite x :
  (convertible x /\ Dashboard.toRadians (Js.Finite x) = Js.Finite (radians x))
  \/ (~ convertible x
      /\ (Dashboard.toRadians (Js.Finite x) = Js.PosInfinity
          \/ Dashboard.toRadians (Js.Finite x) = Js.NegInfinity)).
Proof.
  pose proof PI_RGT_0 as Hpi. pose proof overflow_threshold_pos as Hpos.
  assert (H180 : Js.ltb 180 0 = false) by (apply ltb_false; lra).
  unfold Dashboard.toRadians. cbn [Js.mul].
  destruct (of_real_cases (x * PI)) as [[Hin ->]|[[Hout ->]|[Hout ->]]].
  - left. split; [exact Hin|]. cbn [Js.div].
    destruct (Req_dec_T 180 0) as [H|_]; [lra|].
    unfold radians. apply of_real_finite.
    unfold Rdiv. rewrite Rabs_mult. rewrite (Rabs_pos_eq (/ 180)) by lra.
    pose proof (Rabs_pos (x * PI)). lra.
  - right. split.
    + unfold convertible. intros H. apply Rabs_def2 in H. lra.
    + left. simpl. now rewrite H180.
  - right. split.
    + unfold convertible. intros H. apply Rabs_def2 in H. lra.
    + right. simpl. now rewrite H180.
Qed.

Lemma toRadians_difference a b :
  (convertible (a - b)
   /\ Dashboard.toRadians (Js.sub (Js.Finite a) (Js.Finite b)) = Js.Finite (radians (a - b)))
  \/ (~ convertible (a - b)
      /\ (Dashboard.toRadians (Js.sub (Js.Finite a) (Js.Finite b)) = Js.PosInfinity
          \/ Dashboard.toRadians (Js.sub (Js.Finite a) (Js.Finite b)) = Js.NegInfinity)).
Proof.
  cbn [Js.sub].
  destruct (of_real_cases (a - b)) as [[Hin ->]|[[Hout Heq]|[Hout Heq]]].
  - apply toRadians_finite.
  - right. split.
    + intros H. apply convertible_magnitude, Rabs_def2 in H. lra.
    + apply toRadians_infinite. rewrite Heq. now left.
  - right. split.
    + intros H. apply convertible_magnitude, Rabs_def2 in H. lra.
    + apply toRadians_infinite. rewrite Heq. now right.
Qed.

(** Half of an angle in radians that is finite stays finite. *)
Lemma half_radians x :
  convertible x -> Js.div (Js.Finite (radians x)) (Js.Finite 2) = Js.Finite (radians x / 2).
Proof.
  intros Hx. cbn [Js.div]. destruct (Req_dec_T 2 0) as [H|_]; [lra|].
  apply of_real_finite. unfold radians, Rdiv. rewrite !Rabs_mult.
  rewrite (Rabs_pos_eq (/ 180)), (Rabs_pos_eq (/ 2)) by lra.
  unfold convertible in Hx. rewrite Rabs_mult in Hx.
  pose proof (Rabs_pos x). pose proof (Rabs_pos PI).
  assert (0 <= Rabs x * Rabs PI) by (apply Rmult_le_pos; assumption). lra.
Qed.

Lemma half_infinite n :
  n = Js.PosInfinity \/ n = Js.NegInfinity ->
  Js.Math_sin (Js.div n (Js.Finite 2)) = Js.NaN.
Proof.
  assert (H2 : Js.ltb 2 0 = false) by (apply ltb_false; lra).
  intros [->| ->]; simpl; rewrite H2; reflexivity.
Qed.

(** The sine of half a difference, and the cosine of a latitude. *)
Lemma sin_half_difference a b :
  (convertible (a - b)
   /\ Js.Math_sin (Js.div (Dashboard.toRadians (Js.sub (Js.Finite a) (Js.Finite b)))
                     (Js.Finite 2))
      = Js.Finite (sin (radians (a - b) / 2)))
  \/ (~ convertible (a - b)
      /\ Js.Math_sin (Js.div (Dashboard.toRadians (Js.sub (Js.Finite a) (Js.Finite b)))
                        (Js.Finite 2))
         = Js.NaN).
Proof.
  destruct (toRadians_difference a b) as [[Hin ->]|[Hout Hinf]].
  - left. split; [exact Hin|]. now rewrite half_radians.
  - right. split; [exact Hout|]. now apply half_infinite.
Qed.

Lemma cos_latitude x :
  (convertible x
   /\ Js.Math_cos (Dashboard.toRadians (Js.Finite x)) = Js.Finite (cos (radians x)))
  \/ (~ convertible x /\ Js.Math_cos (Dashboard.toRadians (Js.Finite x)) = Js.NaN).
Proof.
  destruct (toRadians_finite x) as [[Hin ->]|[Hout [-> | ->]]]; auto.
Qed.

Lemma product_in_unit x y : -1 <= x <= 1 -> -1 <= y <= 1 -> -1 <= x * y <= 1.
Proof. intros Hx Hy. split; nra. Qed.

Lemma mul_in_unit x y :
  -1 <= x <= 1 -> -1 <= y <= 1 -> Js.mul (Js.Finite x) (Js.Finite y) = Js.Finite (x * y).
Proof.
  intros Hx Hy. cbn [Js.mul]. apply of_real_small.
  pose proof (product_in_unit x y Hx Hy) as H.
  apply Rabs_le. assert (1 <= 2 ^ 29) by (apply pow_R1_Rle; lra). lra.
Qed.

(** The distance on numbers: the real distance for measurable points, NaN
    for the others. *)
Lemma calculateDistanceMeters_cases from to :
  (measurable from to
   /\ Dashboard.calculateDistanceMeters from to = Js.Finite (great_circle_meters from to))
  \/ (~ measurable from to /\ Dashboard.calculateDistanceMeters from to = Js.NaN).
Proof.
  unfold Dashboard.calculateDistanceMeters, measurable.
  destruct (sin_half_difference (LatLng.lat to) (LatLng.lat from)) as [[HdLat ->]|[HdLat ->]];
    [|right; split; [tauto | reflexivity]].
  destruct (sin_half_difference (LatLng.lng to) (LatLng.lng from)) as [[HdLng ->]|[HdLng ->]];
    [|right; split; [tauto | now rewrite !mul_NaN_r, add_NaN_r]].
  destruct (cos_latitude (LatLng.lat from)) as [[Hlat1 ->]|[Hlat1 ->]];
    [|right; split; [tauto | now rewrite add_NaN_r]].
  destruct (cos_latitude (LatLng.lat to)) as [[Hlat2 ->]|[Hlat2 ->]];
    [|right; split; [tauto | now rewrite mul_NaN_r, add_NaN_r]].
  left. split; [tauto|].
  set (sinDLat := sin (radians (LatLng.lat to - LatLng.lat from) / 2)).
  set (sinDLng := sin (radians (LatLng.lng to - LatLng.lng from) / 2)).
  set (cos1 := cos (radians (LatLng.lat from))).
  set (cos2 := cos (radians (LatLng.lat to))).
  pose proof (SIN_bound (radians (LatLng.lat to - LatLng.lat from) / 2)) as HsLat.
  pose proof (SIN_bound (radians (LatLng.lng to - LatLng.lng from) / 2)) as HsLng.
  pose proof (COS_bound (radians (LatLng.lat from))) as Hc1.
  pose proof (COS_bound (radians (LatLng.lat to))) as Hc2.
  fold sinDLat in HsLat. fold sinDLng in HsLng. fold cos1 in Hc1. fold cos2 in Hc2.
  pose proof (product_in_unit cos1 cos2 Hc1 Hc2) as Hcc.
  pose proof (product_in_unit (cos1 * cos2) sinDLng Hcc HsLng) as Hccs.
  pose proof (product_in_unit (cos1 * cos2 * sinDLng) sinDLng Hccs HsLng) as Hccss.
  pose proof (product_in_unit sinDLat sinDLat HsLat HsLat) as Hss.
  rewrite !mul_in_unit by assumption.
  pose proof (haversine_unit from to) as Ha. unfold haversine in Ha.
  fold sinDLat sinDLng cos1 cos2 in Ha.
  assert (Hone : 1 <= 2 ^ 29) by (apply pow_R1_Rle; lra).
  assert (Height : 2 ^ 3 <= 2 ^ 29) by (apply Rle_pow; [lra | lia]).
  assert (Hroom : 2 ^ 25 <= 2 ^ 29) by (apply Rle_pow; [lra | lia]).
  cbn [Js.add]. rewrite of_real_small by (apply Rabs_le; lra).
  cbn [Js.sub]. rewrite of_real_small by (apply Rabs_le; lra).
  unfold Js.Math_sqrt.
  destruct (Rlt_dec (sinDLat * sinDLat + cos1 * cos2 * sinDLng * sinDLng) 0) as [H|_]; [lra|].
  destruct (Rlt_dec (1 - (sinDLat * sinDLat + cos1 * cos2 * sinDLng * sinDLng)) 0)
    as [H|_]; [lra|].
  cbn [Js.Math_atan2].
  pose proof (central_angle_range from to) as Hc. unfold haversine in Hc.
  fold sinDLat sinDLng cos1 cos2 in Hc.
  pose proof PI_4 as Hpi4. pose proof PI_RGT_0 as Hpi0.
  cbn [Js.mul]. rewrite of_real_small by (apply Rabs_le; simpl in Height; lra).
  rewrite of_real_small.
  - reflexivity.
  - apply Rabs_le. unfold EARTH_RADIUS_METERS. simpl in Hroom. split; nra.
Qed.

Lemma calculateDistanceMeters_measurable from to :
  measurable from to ->
  Dashboard.calculateDistanceMeters from to = Js.Finite (great_circle_meters from to).
Proof.
  intros H. destruct (calculateDistanceMeters_cases from to) as [[_ Heq]|[Hno _]];
    [exact Heq | contradiction].
Qed.

Lemma measurable_sym from to : measurable from to -> measurable to from.
Proof.
  unfold measurable. intros (HdLat & HdLng & Hlat1 & Hlat2).
  repeat split; auto using convertible_opp.
Qed.

Lemma convertible_zero : convertible 0.
Proof.
  unfold convertible. rewrite Rmult_0_l, Rabs_R0. apply overflow_threshold_pos.
Qed.

Lemma measurable_same p : convertible (LatLng.lat p) -> measurable p p.
Proof.
  intros Hp. unfold measurable.
  replace (LatLng.lat p - LatLng.lat p) with 0 by ring.
  replace (LatLng.lng p - LatLng.lng p) with 0 by ring.
  repeat split; auto using convertible_zero.
Qed.

Lemma convertible_small x : Rabs x <= 2 ^ 27 -> convertible x.
Proof.
  intros Hx. unfold convertible. rewrite Rabs_mult.
  pose proof PI_4 as Hpi4. pose proof PI_RGT_0 as Hpi0.
  rewrite (Rabs_pos_eq PI) by lra. pose proof (Rabs_pos x) as Hx0.
  pose proof overflow_threshold_large as Hlarge.
  assert (H30 : 2 ^ 30 = 2 ^ 27 * 8) by (simpl; lra).
  assert (H27 : 0 < 2 ^ 27) by (apply pow_lt; lra). nra.
Qed.

Lemma calculateDistanceMeters_same p :
  convertible (LatLng.lat p) -> Dashboard.calculateDistanceMeters p p = Js.Finite 0.
Proof.
  intros Hp. rewrite calculateDistanceMeters_measurable by now apply measurable_same.
  now rewrite great_circle_same.
Qed.

Lemma default_location_convertible :
  convertible (LatLng.lat Dashboard.DEFAULT_DEFENCE_LOCATION).
Proof.
  apply convertible_small. simpl. rewrite Rabs_pos_eq by lra. lra.
Qed.

(** A distance is never an infinity: NaN, or a number from 0 to half the
    circumference. *)
Lemma calculateDistanceMeters_range from to :
  Dashboard.calculateDistanceMeters from to = Js.NaN
  \/ exists d,
       Dashboard.calculateDistanceMeters from to = Js.Finite d
       /\ 0 <= d <= EARTH_RADIUS_METERS * PI.
Proof.
  destruct (calculateDistanceMeters_cases from to) as [[_ Heq]|[_ Heq]]; [right | now left].
  exists (great_circle_meters from to). split; [exact Heq | apply great_circle_range].
Qed.

(* ================================================================= *)
(** ** ProximityAlerter: the [intruders] pass *)

Lemma occurrences_app events1 events2 :
  occurrences (events1 ++ events2) = occurrences events1 ++ occurrences events2.
Proof. unfold occurrences. apply flat_map_app. Qed.

Lemma scan_order_cons ev events :
  scan_order (ev :: events)
  = match objects ev with Some objs => objs | None => [] end ++ scan_order events.
Proof.
  unfold scan_order. simpl. rewrite map_app. f_equal.
  destruct (objects ev) as [objs|]; [|reflexivity].
  rewrite map_map. simpl. apply map_id.
Qed.

Lemma scan_object_set_once location radius seen obj :
  Dashboard.scan_object location radius seen obj
  = set_once_step obj_id (alert_entry location radius) seen obj.
Proof.
  unfold Dashboard.scan_object, set_once_step, alert_entry.
  destruct (Dashboard.coordinate_number (Js.prop (as_record obj) "lat")); try reflexivity.
  destruct (Dashboard.coordinate_number (Js.prop (as_record obj) "lng")); try reflexivity.
  now destruct (Js.gt _ _).
Qed.

(** The two nested [forEach] loops are one pass over [scan_order]. *)
Lemma seen_scan_order location radius events seen :
  fold_left (Dashboard.scan_event location radius) events seen
  = fold_left (set_once_step obj_id (alert_entry location radius)) (scan_order events) seen.
Proof.
  revert seen. induction events as [|ev events IH]; intros seen; [reflexivity|].
  rewrite scan_order_cons, fold_left_app. simpl. rewrite IH. f_equal.
  unfold Dashboard.scan_event. destruct (objects ev) as [objs|]; [|reflexivity].
  clear. revert seen. induction objs as [|o objs IH]; intros seen; simpl; [reflexivity|].
  now rewrite IH, scan_object_set_once.
Qed.

Lemma alert_entry_Some location radius obj e :
  alert_entry location radius obj = Some e
  <-> Intruder.object e = obj
      /\ in_range location radius obj (Intruder.distance e)
      /\ Intruder.etaSeconds e
         = Dashboard.eta_of (Dashboard.legacy_speed obj) (Intruder.distance e).
Proof.
  unfold alert_entry, in_range.
  destruct (Dashboard.coordinate_number (Js.prop (as_record obj) "lat")) as [lat| | |];
    try (split; [discriminate | intros (_ & (? & ? & ? & _) & _); discriminate]).
  destruct (Dashboard.coordinate_number (Js.prop (as_record obj) "lng")) as [lng| | |];
    try (split; [discriminate | intros (_ & (? & ? & _ & ? & _) & _); discriminate]).
  destruct (Js.gt _ _) eqn:Hfar.
  - split; [discriminate|].
    intros (_ & (lat' & lng' & Hlat & Hlng & Hd & Hle) & _).
    injection Hlat as <-. injection Hlng as <-. rewrite Hd in Hle. congruence.
  - split.
    + intros [= <-]. simpl. split; [reflexivity|]. split; [|reflexivity].
      exists lat, lng. auto.
    + intros (Hobj & (lat' & lng' & Hlat & Hlng & Hd & Hle) & Heta).
      injection Hlat as <-. injection Hlng as <-.
      destruct e as [o d eta]. simpl in *. subst. reflexivity.
Qed.


(** What the alert pass has recorded after the scan, before sorting. *)
Lemma seen_spec location radius events :
  let seen := fold_left (Dashboard.scan_event location radius) events Js.Map.empty in
  NoDup (Js.Map.keys seen)
  /\ forall k e,
       In (k, e) seen
       <-> first_write obj_id (alert_entry location radius) (scan_order events) k e.
Proof.
  rewrite seen_scan_order. apply fold_set_once_first.
Qed.

Lemma seen_key location radius events k e :
  In (k, e) (fold_left (Dashboard.scan_event location radius) events Js.Map.empty) ->
  k = intruder_id e.
Proof.
  intros H. apply seen_spec in H as (before & y & after & _ & <- & He & _).
  apply alert_entry_Some in He as (<- & _). reflexivity.
Qed.


(** The result of [intruders] when the pass runs. *)
Lemma intruders_run events radius location :
  0 < radius ->
  Dashboard.intruders events radius (Some location)
  = Js.Array_sort (fun a b => Js.sub (Intruder.distance a) (Intruder.distance b))
      (Js.Map.values (fold_left (Dashboard.scan_event location radius) events Js.Map.empty)).
Proof.
  intros Hr. unfold Dashboard.intruders.
  now rewrite (proj2 (leb_false radius 0) Hr).
Qed.

(** Every entry of the result was recorded by the scan. *)
Lemma intruders_recorded events radius location e :
  In e (Dashboard.intruders events radius location) ->
  exists loc,
    location = Some loc /\ 0 < radius
    /\ first_write obj_id (alert_entry loc radius) (scan_order events) (intruder_id e) e.
Proof.
  unfold Dashboard.intruders. destruct location as [loc|]; [|intros []].
  destruct (Js.leb radius 0) eqn:Hr; [intros []|]. apply leb_false in Hr.
  intros He. apply Array_sort_In in He. unfold Js.Map.values in He.
  apply in_map_iff in He as ([k e'] & <- & H). simpl.
  exists loc. repeat split; auto.
  rewrite <- (seen_key _ _ _ _ _ H). now apply seen_spec.
Qed.

(** The latitude of [far_object] is a finite number whose product with
    [Math.PI] is beyond the doubles. *)
Lemma far_latitude_not_convertible : ~ convertible (IZR (10 ^ 308)).
Proof.
  unfold convertible, Js.overflow_threshold. intros H. apply Rabs_def2 in H as [H _].
  pose proof PI_above_3 as Hpi.
  assert (Hbig : 2 ^ 1024 <= 3 * IZR (10 ^ 308)).
  { rewrite pow_IZR, <- mult_IZR. apply IZR_le. vm_compute. discriminate. }
  assert (Hpos : 0 < IZR (10 ^ 308)) by (apply (IZR_lt 0); reflexivity).
  assert (H970 : 0 < 2 ^ 970) by (apply pow_lt; lra). nra.
Qed.

Lemma far_alert_entry radius :
  alert_entry Dashboard.DEFAULT_DEFENCE_LOCATION radius far_object
  = Some (Intruder.mk far_object Js.NaN None).
Proof.
  apply alert_entry_Some. cbn [Intruder.object Intruder.distance Intruder.etaSeconds].
  split; [reflexivity|]. split; [|reflexivity].
  exists (IZR (10 ^ 308)), 0. split; [reflexivity|]. split; [reflexivity|].
  assert (Hnan : Dashboard.calculateDistanceMeters Dashboard.DEFAULT_DEFENCE_LOCATION
                   (LatLng.mk (IZR (10 ^ 308)) 0) = Js.NaN).
  { destruct (calculateDistanceMeters_cases Dashboard.DEFAULT_DEFENCE_LOCATION
                (LatLng.mk (IZR (10 ^ 308)) 0)) as [[(_ & _ & _ & Hfar) _]|[_ Heq]];
      [|exact Heq].
    now apply far_latitude_not_convertible in Hfar. }
  rewrite Hnan. split; reflexivity.
Qed.

Lemma near_alert_entry :
  alert_entry Dashboard.DEFAULT_DEFENCE_LOCATION 1500 numeric_object
  = Some (Intruder.mk numeric_object (Js.Finite 0)
            (Some (Js.div (Js.Finite 0) (Js.Finite 10)))).
Proof.
  apply alert_entry_Some. cbn [Intruder.object Intruder.distance Intruder.etaSeconds].
  assert (Hzero : Dashboard.calculateDistanceMeters Dashboard.DEFAULT_DEFENCE_LOCATION
                    (LatLng.mk 14.297567 101.166279) = Js.Finite 0)
    by (apply (calculateDistanceMeters_same Dashboard.DEFAULT_DEFENCE_LOCATION),
          default_location_convertible).
  split; [reflexivity|]. split.
  - exists 14.297567, 101.166279. split; [reflexivity|]. split; [reflexivity|].
    rewrite Hzero. split; [reflexivity|]. apply ltb_false. lra.
  - unfold Dashboard.eta_of, Dashboard.legacy_speed. simpl.
    destruct (Req_dec_T 10 0) as [H|_]; [lra|].
    now rewrite (proj2 (ltb_true 0 10)) by lra.
Qed.

(** The alert list of [far_and_near_events]. *)
Lemma far_and_near_intruders :
  Dashboard.intruders far_and_near_events 1500 (Some Dashboard.DEFAULT_DEFENCE_LOCATION)
  = [Intruder.mk far_object Js.NaN None;
     Intruder.mk numeric_object (Js.Finite 0) (Some (Js.div (Js.Finite 0) (Js.Finite 10)))].
Proof.
  rewrite intruders_run by lra. rewrite seen_scan_order.
  change (scan_order far_and_near_events) with [far_object; numeric_object].
  cbn [fold_left]. unfold set_once_step at 2. rewrite far_alert_entry.
  cbn [Js.Map.has Js.Map.empty Js.Map.set obj_id far_object].
  unfold set_once_step. rewrite near_alert_entry. reflexivity.
Qed.

(** C5, at an input on which the code breaks it. [far_and_near_events] is
    one event with two objects: one whose latitude is the finite number
    [10^308] and one on the defended point. The conversion of the first
    latitude to radians overflows, its distance is NaN, and [NaN > radius]
    is false: with a radius of 1500 meters the object is on the alert list,
    with NaN for distance, and ahead of the object at distance 0. So there
    is an entry whose distance is not at most the radius, and the list is
    not in ascending order of distance. *)
Theorem intruders_lists_object_with_NaN_distance :
  let result :=
    Dashboard.intruders far_and_near_events 1500 (Some Dashboard.DEFAULT_DEFENCE_LOCATION) in
  map Intruder.object result = [far_object; numeric_object]
  /\ map Intruder.distance result = [Js.NaN; Js.Finite 0]
  /\ ~ Forall (fun e => at_most (Intruder.distance e) (Js.Finite 1500)) result
  /\ ~ StronglySorted (fun a b => at_most (Intruder.distance a) (Intruder.distance b))
         result.
Proof.
  cbv zeta. rewrite far_and_near_intruders.
  split; [reflexivity|]. split; [reflexivity|]. split.
  - intros H. inversion H as [|? ? Hfar _]. discriminate Hfar.
  - intros H. inversion H as [|? ? _ Hall]. inversion Hall as [|? ? Hfar _].
    discriminate Hfar.
Qed.

(** C6. [intruders] returns the empty list whenever the defended point is
    absent or the radius is not positive, whatever the events are. *)
Theorem intruders_empty_without_point_or_radius :
  forall (events : list DetectionEvent) (radius : R) (location : option LatLng.t),
    location = None \/ radius <= 0 ->
    Dashboard.intruders events radius location = [].
Proof.
  intros events radius location [->|Hr]; [reflexivity|].
  unfold Dashboard.intruders. destruct location; [|reflexivity].
  now rewrite (proj2 (leb_true radius 0) Hr).
Qed.


(** An event whose [objects] is null or undefined adds no occurrence. *)
Lemma occurrences_skip before ev after :
  objects ev = None ->
  occurrences (before ++ ev :: after) = occurrences (before ++ after).
Proof.
  intros Hnone. rewrite !occurrences_app. f_equal.
  unfold occurrences. simpl. now rewrite Hnone.
Qed.

Lemma occurrences_none events :
  (forall ev, In ev events -> objects ev = None) -> occurrences events = [].
Proof.
  induction events as [|ev events IH]; intros Hall; [reflexivity|].
  unfold occurrences in *. simpl. rewrite (Hall ev (or_introl eq_refl)). simpl.
  apply IH. intros ev' Hev'. apply Hall. now right.
Qed.

Lemma occurrences_filter events :
  occurrences (filter has_objects events) = occurrences events.
Proof.
  induction events as [|ev events IH]; [reflexivity|].
  simpl. destruct (has_objects ev) eqn:Hev; unfold has_objects in Hev;
    destruct (objects ev) as [objs|] eqn:Hobjs; try discriminate;
    unfold occurrences in *; simpl.
  - now rewrite IH, Hobjs.
  - exact IH.
Qed.

Lemma buildLatestObjects_occurrences Date_getTime events events' :
  occurrences events = occurrences events' ->
  Dashboard.buildLatestObjects Date_getTime events
  = Dashboard.buildLatestObjects Date_getTime events'.
Proof.
  intros Heq. unfold Dashboard.buildLatestObjects, Dashboard.latest_map.
  now rewrite !latest_map_occurrences, Heq.
Qed.

Lemma intruders_occurrences events events' radius location :
  occurrences events = occurrences events' ->
  Dashboard.intruders events radius location
  = Dashboard.intruders events' radius location.
Proof.
  intros Heq. unfold Dashboard.intruders. destruct location as [loc|]; [|reflexivity].
  destruct (Js.leb radius 0); [reflexivity|].
  rewrite !seen_scan_order. unfold scan_order. now rewrite Heq.
Qed.

(** C9. Both passes are total functions of the event list, and an event
    whose [objects] field is null or undefined is skipped by both: the
    registry and the alert list are what they would be without the event,
    hence what they are on the events that carry an array of objects; a
    list of such events alone gives an empty registry and an empty alert
    list. *)
Theorem null_objects_events_are_skipped :
  forall (Date_getTime : string -> Js.number) (radius : R) (location : option LatLng.t),
    (forall before ev after,
        objects ev = None ->
        Dashboard.buildLatestObjects Date_getTime (before ++ ev :: after)
        = Dashboard.buildLatestObjects Date_getTime (before ++ after)
        /\ Dashboard.intruders (before ++ ev :: after) radius location
           = Dashboard.intruders (before ++ after) radius location)
    /\ (forall events,
          Dashboard.buildLatestObjects Date_getTime events
          = Dashboard.buildLatestObjects Date_getTime (filter has_objects events)
          /\ Dashboard.intruders events radius location
             = Dashboard.intruders (filter has_objects events) radius location)
    /\ (forall events,
          (forall ev, In ev events -> objects ev = None) ->
          Dashboard.buildLatestObjects Date_getTime events = []
          /\ Dashboard.intruders events radius location = []).
Proof.
  intros Date_getTime radius location. split; [|split].
  - intros before ev after Hnone. split.
    + apply buildLatestObjects_occurrences. now apply occurrences_skip.
    + apply intruders_occurrences. now apply occurrences_skip.
  - intros events. split.
    + apply buildLatestObjects_occurrences. symmetry. apply occurrences_filter.
    + apply intruders_occurrences. symmetry. apply occurrences_filter.
  - intros events Hall. apply occurrences_none in Hall. split.
    + now rewrite (buildLatestObjects_occurrences _ events []).
    + rewrite (intruders_occurrences events [] _ _ Hall).
      unfold Dashboard.intruders. destruct location; [|reflexivity].
      now destruct (Js.leb radius 0).
Qed.

Lemma gt0_truthy n : Js.gt0 n = true -> Js.truthy n = true.
Proof.
  destruct n as [r| | |]; simpl; auto. intros H. apply ltb_true in H.
  destruct (Req_dec_T r 0); [lra | reflexivity].
Qed.

Lemma eta_of_Some speed d :
  Dashboard.eta_of speed d <> None <-> exists n, speed = Some n /\ Js.gt0 n = true.
Proof.
  unfold Dashboard.eta_of. destruct speed as [n|].
  - destruct (Js.gt0 n) eqn:Hgt.
    + rewrite (gt0_truthy n Hgt). simpl. split; [eauto | discriminate].
    + rewrite andb_false_r. split; [congruence|]. intros (n' & [= <-] & H). congruence.
  - split; [congruence|]. intros (n & H & _). discriminate.
Qed.

Lemma legacy_speed_Some obj n :
  Dashboard.legacy_speed obj = Some n <-> Js.prop (as_record obj) "speed" = Js.Num n.
Proof.
  unfold Dashboard.legacy_speed.
  destruct (Js.prop (as_record obj) "speed"); split; congruence.
Qed.

(** C10. For every entry of [intruders], [etaSeconds] is non-null exactly
    when the object's own [speed] property is a number greater than 0, and
    is then the distance divided by that speed; a [speed] that is a string
    gives null, whatever it parses to, and so does an absent [speed],
    whatever speed the nested [details] block carries. *)
Theorem eta_needs_numeric_legacy_speed :
  forall (events : list DetectionEvent) (radius : R) (location : option LatLng.t)
         (e : Intruder.t),
    In e (Dashboard.intruders events radius location) ->
    let speed := Js.prop (as_record (Intruder.object e)) "speed" in
    (Intruder.etaSeconds e <> None <-> exists n, speed = Js.Num n /\ Js.gt0 n = true)
    /\ (forall s, speed = Js.Num (Js.Finite s) -> 0 < s ->
          Intruder.etaSeconds e = Some (Js.div (Intruder.distance e) (Js.Finite s)))
    /\ (forall s, speed = Js.Str s -> Intruder.etaSeconds e = None)
    /\ (forall details n,
          Js.prop (as_record (Intruder.object e)) "details" = Js.Obj details ->
          Js.prop details "speed" = Js.Num n ->
          speed = Js.Undefined \/ speed = Js.Null ->
          Intruder.etaSeconds e = None).
Proof.
  intros events radius location e He speed.
  apply intruders_recorded in He as (loc & _ & _ & Hfirst).
  apply first_write_occurs in Hfirst as (y & _ & _ & Hy).
  apply alert_entry_Some in Hy as (<- & _ & Heta).
  rewrite Heta. fold speed. split; [|split; [|split]].
  - rewrite eta_of_Some. split.
    + intros (n & Hn & Hgt). exists n. split; [|exact Hgt]. now apply legacy_speed_Some.
    + intros (n & Hn & Hgt). exists n. split; [|exact Hgt]. now apply legacy_speed_Some.
  - intros s Hs Hpos. apply legacy_speed_Some in Hs. rewrite Hs. simpl.
    rewrite (proj2 (ltb_true 0 s) Hpos). destruct (Req_dec_T s 0); [lra | reflexivity].
  - intros s Hs. unfold Dashboard.legacy_speed. fold speed. now rewrite Hs.
  - intros details n _ _ [Hs|Hs]; unfold Dashboard.legacy_speed; fold speed; now rewrite Hs.
Qed.

(* ================================================================= *)
(** ** SpatialClusterer: the greedy pass of [getMarkerDescriptors] *)

Section FindAndUpdate.
Variable test : Cluster.t -> bool.
Variable update : Cluster.t -> Cluster.t.

Lemma find_and_update_hit before c after :
  (forall x, In x before -> test x = false) ->
  test c = true ->
  MapComponent.find_and_update test update (before ++ c :: after)
  = Some (before ++ update c :: after).
Proof.
  induction before as [|b before IH]; simpl; intros Hbefore Hc.
  - now rewrite Hc.
  - rewrite (Hbefore b (or_introl eq_refl)), IH; auto.
Qed.

Lemma find_and_update_miss clusters :
  (forall x, In x clusters -> test x = false) ->
  MapComponent.find_and_update test update clusters = None.
Proof.
  induction clusters as [|c clusters IH]; simpl; intros Hall; [reflexivity|].
  rewrite (Hall c (or_introl eq_refl)), IH; auto.
Qed.

Lemma first_hit_or_miss clusters :
  (exists before c after,
      clusters = before ++ c :: after
      /\ (forall x, In x before -> test x = false) /\ test c = true)
  \/ (forall x, In x clusters -> test x = false).
Proof.
  induction clusters as [|c clusters IH]; [right; intros x []|].
  destruct (test c) eqn:Hc.
  - left. exists [], c, clusters. repeat split; auto. intros x [].
  - destruct IH as [(before & c' & after & -> & Hbefore & Hc')|Hall].
    + left. exists (c :: before), c', after. repeat split; auto.
      intros x [<-|Hx]; auto.
    + right. intros x [<-|Hx]; auto.
Qed.

End FindAndUpdate.

Lemma within_test tolerance c p :
  Js.ltb (MapComponent.distanceBetween (Cluster.lat c) (Cluster.lng c)
            (LatLng.lat p) (LatLng.lng p)) tolerance = true
  <-> within tolerance c p.
Proof. apply ltb_true. Qed.

Lemma not_within_test tolerance c p :
  Js.ltb (MapComponent.distanceBetween (Cluster.lat c) (Cluster.lng c)
            (LatLng.lat p) (LatLng.lng p)) tolerance = false
  <-> ~ within tolerance c p.
Proof.
  rewrite <- within_test. destruct (Js.ltb _ _); split; congruence.
Qed.

(** The join branch and the new-cluster branch do what joining and starting
    a cluster mean, and nothing else does. *)
Lemma join_joined c object p :
  joined c object p (MapComponent.join c object (LatLng.lat p) (LatLng.lng p)).
Proof. repeat split. Qed.

Lemma joined_join c object p c' :
  joined c object p c' -> c' = MapComponent.join c object (LatLng.lat p) (LatLng.lng p).
Proof.
  destruct c' as [lat lng objects]. unfold joined, MapComponent.join. simpl.
  intros (-> & -> & ->). reflexivity.
Qed.

Lemma started_new object p c :
  started object p c <-> c = Cluster.mk (LatLng.lat p) (LatLng.lng p) [object].
Proof.
  destruct c as [lat lng objects]. unfold started. simpl. split.
  - intros (-> & -> & ->). reflexivity.
  - intros [= -> -> ->]. auto.
Qed.

(** The body of the clustering loop takes the greedy step. *)
Lemma cluster_object_greedy tolerance clusters object :
  greedy_step tolerance clusters object
    (MapComponent.cluster_object tolerance clusters object).
Proof.
  unfold MapComponent.cluster_object.
  destruct (MapComponent.getPrimaryCoordinates object) as [p|] eqn:Hp;
    [|now apply greedy_skip].
  set (test := fun item : Cluster.t => Js.ltb _ tolerance).
  set (update := fun c : Cluster.t => MapComponent.join c object _ _).
  destruct (first_hit_or_miss test clusters)
    as [(before & c & after & -> & Hbefore & Hc)|Hall].
  - rewrite (find_and_update_hit test update before c after Hbefore Hc).
    apply greedy_join with (p := p) (c := c); auto.
    + intros x Hx. apply not_within_test. now apply Hbefore.
    + now apply within_test.
    + apply join_joined.
  - rewrite (find_and_update_miss test update clusters Hall).
    apply greedy_new with (p := p); auto.
    + intros c Hc. apply not_within_test. now apply Hall.
    + now apply started_new.
Qed.

(** The greedy step leaves no choice. *)
Lemma greedy_step_cluster_object tolerance clusters object clusters' :
  greedy_step tolerance clusters object clusters' ->
  clusters' = MapComponent.cluster_object tolerance clusters object.
Proof.
  intros Hstep. unfold MapComponent.cluster_object.
  destruct Hstep as [Hp|p before c c' after Hp -> Hbefore Hc Hjoin|p c Hp Hall Hnew];
    rewrite Hp.
  - reflexivity.
  - apply joined_join in Hjoin as ->. rewrite find_and_update_hit; auto.
    + intros x Hx. apply not_within_test. now apply Hbefore.
    + now apply within_test.
  - apply started_new in Hnew as ->. rewrite find_and_update_miss; auto.
    intros x Hx. apply not_within_test. now apply Hall.
Qed.

Lemma cluster_pass_greedy tolerance items clusters :
  greedy_pass tolerance clusters items
    (fold_left (MapComponent.cluster_object tolerance) items clusters).
Proof.
  revert clusters. induction items as [|object items IH]; intros clusters; simpl.
  - constructor.
  - econstructor; [apply cluster_object_greedy | apply IH].
Qed.

Lemma greedy_pass_cluster_pass tolerance items clusters final :
  greedy_pass tolerance clusters items final ->
  final = fold_left (MapComponent.cluster_object tolerance) items clusters.
Proof.
  induction 1 as [|clusters clusters' final object items Hstep _ IH]; simpl.
  - reflexivity.
  - now rewrite <- (greedy_step_cluster_object _ _ _ _ Hstep).
Qed.



(** *** The running mean *)

Lemma sum_snoc xs x : fold_right Rplus 0 (xs ++ [x]) = fold_right Rplus 0 xs + x.
Proof. induction xs as [|y xs IH]; simpl; [lra | rewrite IH; lra]. Qed.

Lemma sum_perm xs ys :
  Permutation xs ys -> fold_right Rplus 0 xs = fold_right Rplus 0 ys.
Proof. induction 1; simpl; lra. Qed.

Lemma mean_perm xs ys : Permutation xs ys -> mean xs = mean ys.
Proof.
  intros H. unfold mean. now rewrite (sum_perm _ _ H), (Permutation_length H).
Qed.

(** The incremental update keeps the mean: with [n] values seen, the mean
    [m] becomes [m + (x - m) / (n + 1)]. *)
Lemma mean_snoc xs x :
  xs <> [] ->
  mean (xs ++ [x]) = mean xs + (x - mean xs) / INR (S (List.length xs)).
Proof.
  intros Hne. unfold mean. rewrite sum_snoc, length_app.
  replace (List.length xs + List.length [x])%nat with (S (List.length xs))
    by (simpl; lia).
  assert (Hn : INR (List.length xs) <> 0).
  { apply not_0_INR. destruct xs; [contradiction | discriminate]. }
  assert (HSn : INR (S (List.length xs)) <> 0) by (apply not_0_INR; discriminate).
  rewrite S_INR in *. field. split; assumption.
Qed.

Lemma mean_single x : mean [x] = x.
Proof. unfold mean. simpl. field. Qed.

Lemma holds_new object p :
  holds (Cluster.mk (LatLng.lat p) (LatLng.lng p) [object]) [(object, p)].
Proof.
  unfold holds. simpl. rewrite !mean_single. repeat split. discriminate.
Qed.

Lemma holds_join c members object p :
  holds c members ->
  holds (MapComponent.join c object (LatLng.lat p) (LatLng.lng p)) (members ++ [(object, p)]).
Proof.
  intros (Hne & Hobjs & Hlat & Hlng). unfold holds, MapComponent.join. simpl.
  rewrite !map_app. simpl.
  assert (Hlen : List.length (Cluster.objects c ++ [object]) = S (List.length members)).
  { rewrite length_app, Hobjs, length_map. simpl. lia. }
  rewrite Hlen, Hlat, Hlng, Hobjs.
  rewrite !mean_snoc by (destruct members; [contradiction | discriminate]).
  rewrite !length_map. repeat split.
  destruct members; [contradiction | discriminate].
Qed.

Lemma joined_in_order_holds first others :
  holds (joined_in_order first others) (first :: others).
Proof.
  unfold joined_in_order.
  assert (Hgen : forall c members,
             holds c members ->
             holds (fold_left
                      (fun c member =>
                         MapComponent.join c (fst member)
                           (LatLng.lat (snd member)) (LatLng.lng (snd member)))
                      others c)
                   (members ++ others)).
  { induction others as [|[o p] others IH]; intros c members Hc; simpl.
    - now rewrite app_nil_r.
    - change (members ++ (o, p) :: others) with (members ++ [(o, p)] ++ others).
      rewrite app_assoc. apply IH. now apply holds_join. }
  destruct first as [o p]. apply (Hgen _ [(o, p)]). apply holds_new.
Qed.

Lemma holds_centroid_is_mean c members :
  holds c members ->
  (forall m, In m members -> MapComponent.getPrimaryCoordinates (fst m) = Some (snd m)) ->
  centroid_is_mean c.
Proof.
  intros (Hne & Hobjs & Hlat & Hlng) Hcoords.
  exists (map snd members). rewrite Hobjs, !map_map. repeat split.
  - apply map_ext_in. exact Hcoords.
  - destruct members; [contradiction | discriminate].
  - exact Hlat.
  - exact Hlng.
Qed.

(** Every cluster of the pass holds members with their primary
    coordinates. *)
Lemma cluster_pass_holds tolerance items :
  Forall
    (fun c => exists members,
         holds c members
         /\ forall m, In m members ->
              MapComponent.getPrimaryCoordinates (fst m) = Some (snd m))
    (MapComponent.cluster_pass tolerance items).
Proof.
  unfold MapComponent.cluster_pass.
  assert (Hgen : forall clusters final,
             greedy_pass tolerance clusters items final ->
             Forall (fun c => exists members,
                        holds c members
                        /\ forall m, In m members ->
                             MapComponent.getPrimaryCoordinates (fst m) = Some (snd m))
                    clusters ->
             Forall (fun c => exists members,
                        holds c members
                        /\ forall m, In m members ->
                             MapComponent.getPrimaryCoordinates (fst m) = Some (snd m))
                    final).
  { induction 1 as [|clusters clusters' final object items' Hstep _ IH]; intros Hall;
      [exact Hall|].
    apply IH.
    destruct Hstep as [Hp|p before c c' after Hp -> Hbefore Hc Hjoin|p c Hp Hnone Hnew].
    - exact Hall.
    - apply joined_join in Hjoin as ->.
      apply Forall_app in Hall as [Hb Hca]. inversion Hca as [|? ? Hc' Ha]; subst.
      apply Forall_app. split; [exact Hb|]. constructor; [|exact Ha].
      destruct Hc' as (members & Hholds & Hcoords).
      exists (members ++ [(object, p)]). split; [now apply holds_join|].
      intros m Hm. apply in_app_or in Hm as [Hm|[<-|[]]]; auto.
    - apply started_new in Hnew as ->.
      apply Forall_app. split; [exact Hall|]. constructor; [|constructor].
      exists [(object, p)]. split; [apply holds_new|].
      intros m [<-|[]]. exact Hp. }
  apply (Hgen [] _ (cluster_pass_greedy tolerance items [])). constructor.
Qed.

(** C4. A cluster started by one member and joined by others, in any order,
    holds these members and has for centroid the arithmetic mean of their
    coordinates; two clusters built from the same members in different
    orders have the same centroid. In the clustering pass every cluster's
    centroid is the mean of the primary coordinates of its members. *)
Theorem centroid_is_arithmetic_mean :
  forall (first : DetectedObject * LatLng.t) (others : list (DetectedObject * LatLng.t)),
    let c := joined_in_order first others in
    Cluster.objects c = map fst (first :: others)
    /\ Cluster.lat c = mean (map (fun m => LatLng.lat (snd m)) (first :: others))
    /\ Cluster.lng c = mean (map (fun m => LatLng.lng (snd m)) (first :: others))
    /\ (forall first' others',
          Permutation (first :: others) (first' :: others') ->
          Cluster.lat (joined_in_order first' others') = Cluster.lat c
          /\ Cluster.lng (joined_in_order first' others') = Cluster.lng c)
    /\ (forall tolerance items c',
          In c' (MapComponent.cluster_pass tolerance items) -> centroid_is_mean c').
Proof.
  intros first others c.
  destruct (joined_in_order_holds first others) as (_ & Hobjs & Hlat & Hlng).
  repeat split; auto.
  - destruct (joined_in_order_holds first' others') as (_ & _ & Hlat' & _).
    fold c in Hlat. rewrite Hlat', Hlat.
    apply mean_perm. apply Permutation_map. now symmetry.
  - destruct (joined_in_order_holds first' others') as (_ & _ & _ & Hlng').
    fold c in Hlng. rewrite Hlng', Hlng.
    apply mean_perm. apply Permutation_map. now symmetry.
  - intros tolerance items c' Hc'.
    pose proof (cluster_pass_holds tolerance items) as Hall.
    rewrite Forall_forall in Hall.
    destruct (Hall c' Hc') as (members & Hholds & Hcoords).
    now apply holds_centroid_is_mean with (members := members).
Qed.

(* ================================================================= *)
(** ** GeofenceRingBuilder: [createCirclePolygon] *)

Lemma ring_loop_seq center radius steps turns i coords :
  MapComponent.ring_loop center radius steps turns i coords
  = coords ++ map (MapComponent.ring_point center radius steps) (seq i turns).
Proof.
  revert i coords. induction turns as [|turns IH]; intros i coords; simpl.
  - now rewrite app_nil_r.
  - rewrite IH, <- app_assoc. reflexivity.
Qed.

Lemma createCirclePolygon_seq center radius steps :
  MapComponent.createCirclePolygon center radius steps
  = map (MapComponent.ring_point center radius steps) (seq 0 (S steps)).
Proof. unfold MapComponent.createCirclePolygon. now rewrite ring_loop_seq. Qed.

(** The ring closes: the point of the last turn is the point of the first. *)
Lemma ring_point_closed center radius steps :
  MapComponent.ring_point center radius steps steps
  = MapComponent.ring_point center radius steps 0.
Proof.
  destruct steps as [|n]; [reflexivity|].
  unfold MapComponent.ring_point.
  assert (Hn : INR (S n) <> 0) by (apply not_0_INR; discriminate).
  replace (INR (S n) / INR (S n) * 2 * PI) with (2 * PI) by (field; exact Hn).
  replace (INR 0 / INR (S n) * 2 * PI) with 0 by (simpl; field; exact Hn).
  now rewrite cos_2PI, sin_2PI, cos_0, sin_0.
Qed.

(** C8. For every center, radius and step count, [createCirclePolygon]
    returns [steps + 1] pairs [[lng, lat]]; the first and the last are equal;
    the point of turn [i] is the center moved in latitude by the planar
    offset [dy] in degrees and in longitude by the planar offset [dx] in
    degrees scaled by [1 / cos] of the center latitude in radians (over the
    reals). *)
Theorem createCirclePolygon_closed_ring :
  forall (center : LatLng.t) (radiusMeters : R) (steps : nat),
    let ring := MapComponent.createCirclePolygon center radiusMeters steps in
    List.length ring = S steps
    /\ (forall d, nth 0 ring d = last ring d)
    /\ (forall i d, (i <= steps)%nat ->
          let angle := INR i / INR steps * (2 * PI) in
          let dx := radiusMeters / EARTH_RADIUS_METERS * cos angle in
          let dy := radiusMeters / EARTH_RADIUS_METERS * sin angle in
          nth i ring d
          = (LatLng.lng center
               + dx * 180 / PI * (1 / cos (LatLng.lat center * PI / 180)),
             LatLng.lat center + dy * 180 / PI)).
Proof.
  intros center radiusMeters steps ring. subst ring.
  rewrite createCirclePolygon_seq. split; [|split].
  - now rewrite length_map, length_seq.
  - intros d. rewrite seq_S, map_app. cbn [map]. rewrite last_last.
    destruct steps as [|n]; [reflexivity|].
    cbn [seq map app nth Nat.add]. symmetry. apply ring_point_closed.
  - intros i d Hi angle dx dy.
    rewrite (nth_indep _ d (MapComponent.ring_point center radiusMeters steps 0))
      by (rewrite length_map, length_seq; lia).
    rewrite (map_nth (MapComponent.ring_point center radiusMeters steps)).
    rewrite seq_nth by lia. simpl Nat.add.
    unfold MapComponent.ring_point. subst angle dx dy. f_equal.
    + replace (INR i / INR steps * 2 * PI) with (INR i / INR steps * (2 * PI)) by ring.
      unfold Rdiv. ring.
    + replace (INR i / INR steps * 2 * PI) with (INR i / INR steps * (2 * PI)) by ring.
      reflexivity.
Qed.

(* ================================================================= *)
(** ** Coordinate resolution *)

Lemma toValidNumber_Some v r :
  ObjectGeo.toValidNumber v = Some r
  <-> v = Js.Num (Js.Finite r) \/ exists s, v = Js.Str s /\ Js.parseFloat s = Js.Finite r.
Proof.
  unfold ObjectGeo.toValidNumber. split.
  - destruct v as [| |[x| | |]|s|props]; try discriminate.
    + intros [= ->]. now left.
    + destruct (Js.parseFloat s) as [x| | |] eqn:Hs; try discriminate.
      intros [= ->]. right. eauto.
  - intros [->|(s & -> & ->)]; reflexivity.
Qed.

Lemma toOptionalNumber_toValidNumber v :
  MapComponent.toOptionalNumber v = ObjectGeo.toValidNumber v.
Proof. reflexivity. Qed.

Lemma extractFromSource_cons props key keys :
  ObjectGeo.extractFromSource (Js.Obj props) (key :: keys)
  = match ObjectGeo.toValidNumber (Js.prop props key) with
    | Some numeric => Some numeric
    | None => ObjectGeo.extractFromSource (Js.Obj props) keys
    end.
Proof. reflexivity. Qed.

Lemma getPrimaryCoordinates_Some object p :
  MapComponent.getPrimaryCoordinates object = Some p
  <-> MapComponent.toOptionalNumber
        (Js.nullish (Js.prop (as_record object) "lat")
           (Js.nullish (Js.prop (as_record object) "latitude") Js.Null))
      = Some (LatLng.lat p)
      /\ MapComponent.toOptionalNumber
           (Js.nullish (Js.prop (as_record object) "lng")
              (Js.nullish (Js.prop (as_record object) "long")
                 (Js.nullish (Js.prop (as_record object) "lon") Js.Null)))
         = Some (LatLng.lng p).
Proof.
  unfold MapComponent.getPrimaryCoordinates.
  destruct (MapComponent.toOptionalNumber (Js.nullish (Js.prop (as_record object) "lat") _))
    as [lat|];
  destruct (MapComponent.toOptionalNumber (Js.nullish (Js.prop (as_record object) "lng") _))
    as [lng|];
  split; try discriminate; try (intros [? ?]; discriminate).
  - intros [= <-]. auto.
  - destruct p as [plat plng]. simpl. intros [[= ->] [= ->]]. reflexivity.
Qed.

Lemma scan_object_skips location radius seen obj :
  Js.Number_isFinite (Dashboard.coordinate_number (Js.prop (as_record obj) "lat")) = false
  \/ Js.Number_isFinite (Dashboard.coordinate_number (Js.prop (as_record obj) "lng")) = false ->
  Dashboard.scan_object location radius seen obj = seen.
Proof.
  unfold Dashboard.scan_object.
  destruct (Dashboard.coordinate_number (Js.prop (as_record obj) "lat"));
    destruct (Dashboard.coordinate_number (Js.prop (as_record obj) "lng"));
    simpl; intros [H|H]; try discriminate; reflexivity.
Qed.

(** C2, as the code has it. In objectGeo ([getObjectLatitude],
    [getObjectLongitude]) the object's direct fields take precedence over
    the telemetry blocks [details] and [detail], which are the fallback;
    numbers and numeric strings are accepted, and anything else gives null,
    never zero. Clustering ([getPrimaryCoordinates]) and alerting
    ([intruders]) accept the same encodings but read the object's direct
    fields only: an object whose direct latitude or longitude is absent or
    unparsable has no position there and is left out of the clusters and of
    the alert list, whatever its telemetry block carries. *)
Theorem coordinate_resolution_per_consumer :
  (forall object keys x,
      ObjectGeo.extractFromSource (Js.Obj (as_record object)) keys = Some x ->
      ObjectGeo.extractCoordinate object keys = Some x)
  /\ (forall object keys,
        ObjectGeo.extractFromSource (Js.Obj (as_record object)) keys = None ->
        ObjectGeo.extractCoordinate object keys
        = Js.nullish_opt
            (ObjectGeo.extractFromSource (Js.prop (as_record object) "details") keys)
            (ObjectGeo.extractFromSource (Js.prop (as_record object) "detail") keys))
  /\ (forall props key keys,
        ObjectGeo.extractFromSource (Js.Obj props) (key :: keys)
        = Js.nullish_opt (ObjectGeo.toValidNumber (Js.prop props key))
            (ObjectGeo.extractFromSource (Js.Obj props) keys))
  /\ (forall v r,
        ObjectGeo.toValidNumber v = Some r
        <-> v = Js.Num (Js.Finite r)
            \/ exists s, v = Js.Str s /\ Js.parseFloat s = Js.Finite r)
  /\ (forall v, MapComponent.toOptionalNumber v = ObjectGeo.toValidNumber v)
  /\ (forall object p,
        MapComponent.getPrimaryCoordinates object = Some p
        <-> MapComponent.toOptionalNumber
              (Js.nullish (Js.prop (as_record object) "lat")
                 (Js.nullish (Js.prop (as_record object) "latitude") Js.Null))
            = Some (LatLng.lat p)
            /\ MapComponent.toOptionalNumber
                 (Js.nullish (Js.prop (as_record object) "lng")
                    (Js.nullish (Js.prop (as_record object) "long")
                       (Js.nullish (Js.prop (as_record object) "lon") Js.Null)))
               = Some (LatLng.lng p))
  /\ (forall object tolerance clusters,
        MapComponent.getPrimaryCoordinates object = None ->
        MapComponent.cluster_object tolerance clusters object = clusters)
  /\ (forall v,
        Dashboard.coordinate_number v
        = match v with
          | Js.Num n => n
          | Js.Str s => Js.parseFloat s
          | _ => Js.NaN
          end)
  /\ (forall location radius seen obj,
        Js.Number_isFinite
          (Dashboard.coordinate_number (Js.prop (as_record obj) "lat")) = false
        \/ Js.Number_isFinite
             (Dashboard.coordinate_number (Js.prop (as_record obj) "lng")) = false ->
        Dashboard.scan_object location radius seen obj = seen).
Proof.
  repeat match goal with |- _ /\ _ => split end.
  - intros object keys x H. unfold ObjectGeo.extractCoordinate. now rewrite H.
  - intros object keys H. unfold ObjectGeo.extractCoordinate. rewrite H. simpl.
    now destruct (ObjectGeo.extractFromSource (Js.prop (raw object) "details") keys),
                 (ObjectGeo.extractFromSource (Js.prop (raw object) "detail") keys).
  - intros props key keys. rewrite extractFromSource_cons.
    now destruct (ObjectGeo.toValidNumber (Js.prop props key)).
  - apply toValidNumber_Some.
  - apply toOptionalNumber_toValidNumber.
  - apply getPrimaryCoordinates_Some.
  - intros object tolerance clusters H. unfold MapComponent.cluster_object. now rewrite H.
  - intros [| |n|s|props]; reflexivity.
  - apply scan_object_skips.
Qed.

(** C2, as the specification states it, fails on an object whose position is only in
    its telemetry block: objectGeo resolves the position from [details], but
    the object has no primary coordinates, gets no marker at any zoom, and
    is not in the alert list although its telemetry puts it on the defended
    point. *)
Lemma telemetry_only_object_is_excluded :
  Js.prop (as_record telemetry_only_object) "lat" = Js.Undefined
  /\ Js.prop (as_record telemetry_only_object) "lng" = Js.Undefined
  /\ ObjectGeo.getObjectLatitude telemetry_only_object = Some 14.297567
  /\ ObjectGeo.getObjectLongitude telemetry_only_object = Some 101.166279
  /\ MapComponent.getPrimaryCoordinates telemetry_only_object = None
  /\ MapComponent.getMarkerDescriptors [telemetry_only_object] 12 = []
  /\ MapComponent.getMarkerDescriptors [telemetry_only_object] 17 = []
  /\ Dashboard.intruders
       [event_of 1 "2025-01-01T00:00:00.000Z" (Some [telemetry_only_object])]
       1500 (Some Dashboard.DEFAULT_DEFENCE_LOCATION)
     = [].
Proof.
  repeat match goal with |- _ /\ _ => split end; try reflexivity.
  - unfold MapComponent.getMarkerDescriptors.
    rewrite (proj2 (leb_false 15 12)) by lra. reflexivity.
  - unfold MapComponent.getMarkerDescriptors.
    rewrite (proj2 (leb_true 15 17)) by lra. reflexivity.
  - rewrite intruders_run by lra. reflexivity.
Qed.

(** The alert pass on [sample_events]: the first sighting is recorded, with
    its coordinates parsed from strings, and the second one changes
    nothing. *)
Lemma sample_alert_entry :
  alert_entry Dashboard.DEFAULT_DEFENCE_LOCATION 1500 string_encoded_object
  = Some sample_intruder.
Proof.
  apply alert_entry_Some. repeat split.
  exists 14.297567, 101.166279. repeat split.
  change (Js.gt (Dashboard.calculateDistanceMeters Dashboard.DEFAULT_DEFENCE_LOCATION
                   Dashboard.DEFAULT_DEFENCE_LOCATION) (Js.Finite 1500) = false).
  rewrite calculateDistanceMeters_same by apply default_location_convertible.
  apply ltb_false. lra.
Qed.

Lemma sample_intruders :
  Dashboard.intruders sample_events 1500 (Some Dashboard.DEFAULT_DEFENCE_LOCATION)
  = [sample_intruder].
Proof.
  rewrite intruders_run by lra. rewrite seen_scan_order.
  change (scan_order sample_events) with [string_encoded_object; numeric_object].
  cbn [fold_left]. unfold set_once_step at 2. rewrite sample_alert_entry.
  cbn [Js.Map.has Js.Map.empty Js.Map.set obj_id string_encoded_object].
  unfold set_once_step.
  destruct (alert_entry Dashboard.DEFAULT_DEFENCE_LOCATION 1500 numeric_object);
    reflexivity.
Qed.

Lemma sample_intruder_recorded :
  In sample_intruder
    (Dashboard.intruders sample_events 1500 (Some Dashboard.DEFAULT_DEFENCE_LOCATION)).
Proof. rewrite sample_intruders. now left. Qed.


(** C6 on the sample events with a radius of 0. *)
Lemma intruders_empty_without_point_or_radius_witness :
  Dashboard.intruders sample_events 0 (Some Dashboard.DEFAULT_DEFENCE_LOCATION) = [].
Proof.
  apply (intruders_empty_without_point_or_radius sample_events 0
           (Some Dashboard.DEFAULT_DEFENCE_LOCATION)).
  right. lra.
Defined.

(** C10 on the sample events: the entry kept is the first sighting, whose
    speed is the string "10" and whose telemetry block has speed 5; its ETA
    is null. *)
Lemma eta_needs_numeric_legacy_speed_witness :
  Intruder.etaSeconds sample_intruder = None.
Proof.
  destruct (eta_needs_numeric_legacy_speed sample_events 1500
              (Some Dashboard.DEFAULT_DEFENCE_LOCATION) sample_intruder
              sample_intruder_recorded) as (_ & _ & Hstring & _).
  apply (Hstring "10"). reflexivity.
Defined.

(* ================================================================= *)
(** ** The passes on the sample payloads *)

(** The registry keeps the sighting that comes last in the array, here the
    one with the earlier timestamp. *)
Example registry_keeps_last_in_array :
  Dashboard.buildLatestObjects sample_getTime sample_events
  = [LatestObjectEntry.mk numeric_object "2025-01-01T00:00:00.000Z"].
Proof. reflexivity. Qed.

(** The alert list keeps the sighting that comes first in the array. *)
Example alert_keeps_first_in_array :
  map Intruder.object
    (Dashboard.intruders sample_events 1500 (Some Dashboard.DEFAULT_DEFENCE_LOCATION))
  = [string_encoded_object].
Proof. now rewrite sample_intruders. Qed.

(** Both sample objects sit on the same point: at zoom 12 they form one
    cluster there; at zoom 17 each has its own marker. *)
Example sample_objects_cluster :
  MapComponent.getMarkerDescriptors [string_encoded_object; numeric_object] 17
  = [single 14.297567 101.166279 string_encoded_object;
     single 14.297567 101.166279 numeric_object]
  /\ exists lat lng,
       MapComponent.getMarkerDescriptors [string_encoded_object; numeric_object] 12
       = [cluster lat lng [string_encoded_object; numeric_object]]
       /\ lat = 14.297567 /\ lng = 101.166279.
Proof.
  split.
  - unfold MapComponent.getMarkerDescriptors.
    rewrite (proj2 (leb_true 15 17)) by lra. reflexivity.
  - unfold MapComponent.getMarkerDescriptors, MapComponent.cluster_pass.
    rewrite (proj2 (leb_false 15 12)) by lra.
    unfold MapComponent.tolerance_of.
    rewrite (proj2 (leb_false 13 12)), (proj2 (leb_true 11 12)) by lra.
    cbn [fold_left]. unfold MapComponent.cluster_object at 2.
    change (MapComponent.getPrimaryCoordinates string_encoded_object)
      with (Some (LatLng.mk 14.297567 101.166279)).
    cbn [MapComponent.find_and_update app LatLng.lat LatLng.lng].
    unfold MapComponent.cluster_object.
    change (MapComponent.getPrimaryCoordinates numeric_object)
      with (Some (LatLng.mk 14.297567 101.166279)).
    cbn [MapComponent.find_and_update LatLng.lat LatLng.lng Cluster.lat Cluster.lng].
    assert (Hnear : Js.ltb (MapComponent.distanceBetween 14.297567 101.166279
                              14.297567 101.166279) 0.004 = true).
    { apply ltb_true. unfold MapComponent.distanceBetween.
      replace (14.297567 - 14.297567) with 0 by lra.
      replace (101.166279 - 101.166279) with 0 by lra.
      rewrite Rmult_0_r, Rplus_0_r, sqrt_0. lra. }
    rewrite Hnear. eexists _, _. split; [reflexivity|].
    unfold MapComponent.join. cbn [Cluster.lat Cluster.lng]. split; lra.
Qed.

(** The default ring has 65 points. *)
Example default_ring_length :
  List.length
    (MapComponent.createCirclePolygon Dashboard.DEFAULT_DEFENCE_LOCATION 1500
       MapComponent.default_steps)
  = 65%nat.
Proof. now rewrite createCirclePolygon_seq, length_map, length_seq. Qed.

(* ================================================================= *)
(** ** More on the markers of [getMarkerDescriptors] *)

Lemma descriptor_of_objects c :
  descriptor_objects (MapComponent.descriptor_of c) = Cluster.objects c.
Proof.
  unfold MapComponent.descriptor_of.
  destruct (Cluster.objects c) as [|o [|o' rest]]; reflexivity.
Qed.

Lemma concat_descriptors clusters :
  List.concat (map descriptor_objects (map MapComponent.descriptor_of clusters))
  = List.concat (map Cluster.objects clusters).
Proof.
  rewrite map_map. f_equal. apply map_ext. apply descriptor_of_objects.
Qed.

(** One turn of the clustering loop adds the object to the members, when it
    is located, and touches no other member. *)
Lemma cluster_object_members tolerance clusters object :
  Permutation
    (List.concat (map Cluster.objects (MapComponent.cluster_object tolerance clusters object)))
    (List.concat (map Cluster.objects clusters) ++ (if located object then [object] else [])).
Proof.
  unfold located.
  destruct (cluster_object_greedy tolerance clusters object)
    as [Hp|p before c c' after Hp -> Hbefore Hc Hjoin|p c Hp Hnone Hnew]; rewrite Hp.
  - now rewrite app_nil_r.
  - destruct Hjoin as (Hmembers & _). rewrite !map_app, !concat_app. simpl.
    rewrite Hmembers, <- !app_assoc. apply Permutation_app_head.
    apply Permutation_app_head. simpl. apply Permutation_cons_append.
  - destruct Hnew as (Hmembers & _). rewrite map_app, concat_app. simpl.
    now rewrite Hmembers.
Qed.

Lemma cluster_pass_members_from tolerance items clusters :
  Permutation
    (List.concat (map Cluster.objects
               (fold_left (MapComponent.cluster_object tolerance) items clusters)))
    (List.concat (map Cluster.objects clusters) ++ filter located items).
Proof.
  revert clusters. induction items as [|object items IH]; intros clusters; simpl.
  - now rewrite app_nil_r.
  - rewrite IH, cluster_object_members, <- app_assoc.
    apply Permutation_app_head. now destruct (located object).
Qed.

Lemma unclustered_markers items :
  Forall2 single_marker_of
    (flat_map
       (fun object =>
          match MapComponent.getPrimaryCoordinates object with
          | None => []
          | Some coords => [single (LatLng.lat coords) (LatLng.lng coords) object]
          end)
       items)
    (filter located items).
Proof.
  induction items as [|object items IH]; simpl; [constructor|].
  unfold located at 1.
  destruct (MapComponent.getPrimaryCoordinates object) as [p|] eqn:Hp; simpl; [|exact IH].
  constructor; [|exact IH]. exists p. auto.
Qed.

Lemma getMarkerDescriptors_zoomed_in items zoom :
  15 <= zoom ->
  Forall2 single_marker_of (MapComponent.getMarkerDescriptors items zoom)
    (filter located items).
Proof.
  intros Hz. unfold MapComponent.getMarkerDescriptors.
  destruct items as [|object items]; [constructor|].
  rewrite (proj2 (leb_true 15 zoom) Hz). apply unclustered_markers.
Qed.

Lemma getMarkerDescriptors_zoomed_out items zoom :
  zoom < 15 ->
  MapComponent.getMarkerDescriptors items zoom
  = map MapComponent.descriptor_of
      (MapComponent.cluster_pass (MapComponent.tolerance_of zoom) items).
Proof.
  intros Hz. unfold MapComponent.getMarkerDescriptors.
  destruct items as [|object items]; [reflexivity|].
  now rewrite (proj2 (leb_false 15 zoom) Hz).
Qed.

Lemma Forall2_single_objects ds objs :
  Forall2 single_marker_of ds objs -> List.concat (map descriptor_objects ds) = objs.
Proof.
  induction 1 as [|d o ds objs (p & _ & ->) _ IH]; simpl; [reflexivity|].
  now rewrite IH.
Qed.

(** X1. At zoom 15 and above nothing is clustered: the markers are, in input
    order, one [single] marker per object that has primary coordinates,
    placed at these coordinates. *)
Theorem zoomed_in_one_single_marker_per_located_object :
  forall (items : list DetectedObject) (zoom : R),
    15 <= zoom ->
    Forall2 single_marker_of (MapComponent.getMarkerDescriptors items zoom)
      (filter located items)
    /\ List.length (MapComponent.getMarkerDescriptors items zoom)
       = List.length (filter located items).
Proof.
  intros items zoom Hz.
  pose proof (getMarkerDescriptors_zoomed_in items zoom Hz) as H.
  split; [exact H | now apply Forall2_length in H].
Qed.

Lemma markers_members items zoom :
  Permutation
    (List.concat (map descriptor_objects (MapComponent.getMarkerDescriptors items zoom)))
    (filter located items).
Proof.
  destruct (Rle_lt_dec 15 zoom) as [Hz|Hz].
  - now rewrite (Forall2_single_objects _ _ (getMarkerDescriptors_zoomed_in items zoom Hz)).
  - rewrite (getMarkerDescriptors_zoomed_out items zoom Hz), concat_descriptors.
    unfold MapComponent.cluster_pass.
    now rewrite cluster_pass_members_from.
Qed.

(** X2. At every zoom the markers show exactly the located objects: the
    objects of all the markers together are the objects of the input that
    have primary coordinates, each as often as it occurs in the input; no
    object is lost, shown twice or invented. *)
Theorem markers_show_each_located_object_once :
  forall (items : list DetectedObject) (zoom : R),
    Permutation
      (List.concat (map descriptor_objects (MapComponent.getMarkerDescriptors items zoom)))
      (filter located items).
Proof. exact markers_members. Qed.

Lemma cluster_pass_nonempty tolerance items c :
  In c (MapComponent.cluster_pass tolerance items) -> Cluster.objects c <> [].
Proof.
  intros Hc. pose proof (cluster_pass_holds tolerance items) as Hall.
  rewrite Forall_forall in Hall.
  destruct (Hall c Hc) as (members & (Hne & Hobjs & _) & _).
  rewrite Hobjs. destruct members; [contradiction | discriminate].
Qed.

Lemma descriptor_shape items zoom d :
  In d (MapComponent.getMarkerDescriptors items zoom) ->
  match d with
  | single _ _ _ => True
  | cluster _ _ objs => (2 <= List.length objs)%nat
  end.
Proof.
  intros Hd. destruct (Rle_lt_dec 15 zoom) as [Hz|Hz].
  - pose proof (getMarkerDescriptors_zoomed_in items zoom Hz) as H.
    revert Hd. induction H as [|d' o ds objs (p & _ & ->) _ IH]; [intros []|].
    intros [<-|Hd]; [exact I | now apply IH].
  - rewrite (getMarkerDescriptors_zoomed_out items zoom Hz) in Hd.
    apply in_map_iff in Hd as (c & <- & Hc).
    apply cluster_pass_nonempty in Hc. unfold MapComponent.descriptor_of.
    destruct (Cluster.objects c) as [|o [|o' rest]]; [contradiction | exact I | simpl; lia].
Qed.

Lemma descriptor_objects_nonempty items zoom d :
  In d (MapComponent.getMarkerDescriptors items zoom) -> descriptor_objects d <> [].
Proof.
  intros Hd. apply descriptor_shape in Hd.
  destruct d as [lat lng o|lat lng objs]; simpl; [discriminate|].
  destruct objs; [simpl in Hd; lia | discriminate].
Qed.

Lemma length_concat_nonempty {A : Type} (ls : list (list A)) :
  (forall l, In l ls -> l <> []) -> (List.length ls <= List.length (List.concat ls))%nat.
Proof.
  induction ls as [|l ls IH]; simpl; intros Hall; [lia|].
  rewrite length_app.
  assert (l <> []) by (apply Hall; now left).
  assert (List.length ls <= List.length (List.concat ls))%nat
    by (apply IH; intros l' Hl'; apply Hall; now right).
  destruct l; [contradiction | simpl; lia].
Qed.

(** X3. A [cluster] marker always groups at least two objects (a group of
    one is shown as a [single] marker), and there are never more markers
    than objects with primary coordinates. *)
Theorem cluster_markers_group_at_least_two :
  forall (items : list DetectedObject) (zoom : R),
    let markers := MapComponent.getMarkerDescriptors items zoom in
    Forall
      (fun d =>
         match d with
         | single _ _ _ => True
         | cluster _ _ objs => (2 <= List.length objs)%nat
         end)
      markers
    /\ (List.length markers <= List.length (filter located items))%nat.
Proof.
  intros items zoom markers. split.
  - apply Forall_forall. intros d Hd. now apply descriptor_shape with (items := items) (zoom := zoom).
  - rewrite <- (Permutation_length (markers_members items zoom)).
    rewrite <- (length_map descriptor_objects markers).
    apply length_concat_nonempty. intros l Hl.
    apply in_map_iff in Hl as (d & <- & Hd).
    now apply descriptor_objects_nonempty with (items := items) (zoom := zoom).
Qed.

(** X4. There is no marker exactly when no object of the input has primary
    coordinates: an empty input, or objects that all lack a position, give
    an empty list, and a located object always gets a marker. *)
Theorem no_marker_iff_no_located_object :
  forall (items : list DetectedObject) (zoom : R),
    MapComponent.getMarkerDescriptors items zoom = [] <-> filter located items = [].
Proof.
  intros items zoom. pose proof (markers_members items zoom) as Hperm. split.
  - intros Hnil. rewrite Hnil in Hperm. simpl in Hperm.
    now apply Permutation_nil in Hperm.
  - intros Hnil. rewrite Hnil in Hperm.
    apply Permutation_sym, Permutation_nil in Hperm.
    destruct (MapComponent.getMarkerDescriptors items zoom) as [|d ds] eqn:Hm;
      [reflexivity|].
    exfalso. apply (descriptor_objects_nonempty items zoom d).
    + rewrite Hm. now left.
    + simpl in Hperm. now apply app_eq_nil in Hperm.
Qed.

(** *** The pass depends on the order of its input *)

Lemma within_same_lng tolerance c p :
  Cluster.lng c = LatLng.lng p ->
  within tolerance c p <-> Rabs (Cluster.lat c - LatLng.lat p) < tolerance.
Proof.
  intros Hlng. unfold within. rewrite Hlng.
  replace ((LatLng.lng p - LatLng.lng p) * (LatLng.lng p - LatLng.lng p)) with 0 by ring.
  rewrite Rplus_0_r. fold (Rsqr (Cluster.lat c - LatLng.lat p)).
  now rewrite sqrt_Rsqr_abs.
Qed.

Lemma object_at_coordinates name lat lng :
  MapComponent.getPrimaryCoordinates (object_at name lat lng) = Some (LatLng.mk lat lng).
Proof. reflexivity. Qed.

Lemma south_to_north_two_clusters :
  List.length (MapComponent.cluster_pass 0.002 [south_object; middle_object; north_object])
  = 2%nat.
Proof.
  set (c1 := Cluster.mk 0 0 [south_object]).
  set (c2 := MapComponent.join c1 middle_object 0.001 0).
  set (c3 := Cluster.mk 0.0028 0 [north_object]).
  assert (H : greedy_pass 0.002 [] [south_object; middle_object; north_object] [c2; c3]).
  { eapply greedy_next.
    { apply (greedy_new 0.002 [] south_object (LatLng.mk 0 0) c1).
      - apply object_at_coordinates.
      - intros c [].
      - now apply started_new. }
    eapply greedy_next.
    { apply (greedy_join 0.002 [c1] middle_object (LatLng.mk 0.001 0) [] c1 c2 []).
      - apply object_at_coordinates.
      - reflexivity.
      - intros c' [].
      - apply within_same_lng; [reflexivity|]. simpl.
        apply Rabs_def1; lra.
      - apply join_joined. }
    eapply greedy_next; [|apply greedy_done].
    apply (greedy_new 0.002 [c2] north_object (LatLng.mk 0.0028 0) c3).
    - apply object_at_coordinates.
    - intros c [<-|[]] Hc. apply within_same_lng in Hc; [|simpl; lra].
      simpl in Hc. apply Rabs_def2 in Hc. lra.
    - now apply started_new. }
  apply greedy_pass_cluster_pass in H. unfold MapComponent.cluster_pass.
  now rewrite <- H.
Qed.

Lemma north_to_south_one_cluster :
  List.length (MapComponent.cluster_pass 0.002 [north_object; middle_object; south_object])
  = 1%nat.
Proof.
  set (c1 := Cluster.mk 0.0028 0 [north_object]).
  set (c2 := MapComponent.join c1 middle_object 0.001 0).
  set (c3 := MapComponent.join c2 south_object 0 0).
  assert (H : greedy_pass 0.002 [] [north_object; middle_object; south_object] [c3]).
  { eapply greedy_next.
    { apply (greedy_new 0.002 [] north_object (LatLng.mk 0.0028 0) c1).
      - apply object_at_coordinates.
      - intros c [].
      - now apply started_new. }
    eapply greedy_next.
    { apply (greedy_join 0.002 [c1] middle_object (LatLng.mk 0.001 0) [] c1 c2 []).
      - apply object_at_coordinates.
      - reflexivity.
      - intros c' [].
      - apply within_same_lng; [reflexivity|]. simpl.
        apply Rabs_def1; lra.
      - apply join_joined. }
    eapply greedy_next; [|apply greedy_done].
    apply (greedy_join 0.002 [c2] south_object (LatLng.mk 0 0) [] c2 c3 []).
    - apply object_at_coordinates.
    - reflexivity.
    - intros c' [].
    - apply within_same_lng; [simpl; lra|]. simpl.
      apply Rabs_def1; lra.
    - apply join_joined. }
  apply greedy_pass_cluster_pass in H. unfold MapComponent.cluster_pass.
  now rewrite <- H.
Qed.

(** X5. The markers depend on the order of the input: there are two
    orderings of the same objects for which [getMarkerDescriptors], at the
    same zoom, returns different numbers of markers. *)
Theorem markers_depend_on_input_order :
  exists (items items' : list DetectedObject) (zoom : R),
    Permutation items items'
    /\ List.length (MapComponent.getMarkerDescriptors items zoom)
       <> List.length (MapComponent.getMarkerDescriptors items' zoom).
Proof.
  exists [south_object; middle_object; north_object],
         [north_object; middle_object; south_object], 14.
  split.
  - change [north_object; middle_object; south_object]
      with (rev [south_object; middle_object; north_object]).
    apply Permutation_rev.
  - rewrite !getMarkerDescriptors_zoomed_out by lra. rewrite !length_map.
    unfold MapComponent.tolerance_of. rewrite (proj2 (leb_true 13 14)) by lra.
    rewrite south_to_north_two_clusters, north_to_south_one_cluster. discriminate.
Qed.

(* ================================================================= *)
(** ** More on the registry of [buildLatestObjects] *)

Lemma last_write_app {B V : Type} (keyB : B -> string) (entry : B -> V) xs ys k e :
  last_write keyB entry (xs ++ ys) k e
  <-> last_write keyB entry ys k e
      \/ (~ In k (map keyB ys) /\ last_write keyB entry xs k e).
Proof.
  induction ys as [|y ys IH] using rev_ind.
  - rewrite app_nil_r. split; [intros H; right; split; [intros [] | exact H]|].
    intros [(before & y & after & Heq & _)|[_ H]]; [now destruct before | exact H].
  - rewrite app_assoc, !last_write_snoc, IH, map_app, in_app_iff. simpl.
    destruct (string_dec (keyB y) k) as [Hk|Hk].
    + split.
      * intros [[_ He]|[Hne _]]; [|contradiction]. left. left. auto.
      * intros [[[_ He]|[Hne _]]|[Hnotin _]]; [left; auto | contradiction |].
        exfalso. apply Hnotin. right. now left.
    + split.
      * intros [[Hk' _]|[_ [H|[Hnotin H]]]]; [contradiction | left; right; auto |].
        right. split; [|exact H]. intros [Hin|[Hin|[]]]; auto.
      * intros [[[Hk' _]|[_ H]]|[Hnotin H]]; [contradiction | right; auto |].
        right. split; [exact Hk|]. right. split; [|exact H].
        intros Hin. apply Hnotin. now left.
Qed.

Lemma registry_entry_iff Date_getTime events e :
  In e (Dashboard.buildLatestObjects Date_getTime events)
  <-> last_write (fun p => obj_id (fst p)) entry_of (occurrences events) (entry_id e) e.
Proof.
  unfold Dashboard.buildLatestObjects. rewrite Array_sort_In.
  rewrite <- (proj2 (latest_map_spec events)). unfold Js.Map.values. split.
  - intros Hin. apply in_map_iff in Hin as ([k e'] & <- & H). simpl.
    now rewrite <- (latest_map_key _ _ _ H).
  - intros H. apply in_map_iff. now exists (entry_id e, e).
Qed.

Lemma last_write_key {B V : Type} (keyB : B -> string) (entry : B -> V) ys k e :
  last_write keyB entry ys k e -> In k (map keyB ys).
Proof.
  intros (before & y & after & -> & <- & _).
  rewrite map_app. apply in_or_app. right. now left.
Qed.

Lemma occurrences_cons ev events :
  occurrences (ev :: events)
  = match objects ev with
    | Some objs => map (fun obj => (obj, timestamp ev)) objs
    | None => []
    end ++ occurrences events.
Proof. reflexivity. Qed.

(** X6. A live event is put in front of the event list, and the registry
    keeps the last occurrence of an id: so a pushed event never changes the
    entry of an id that the list already holds. Every entry of the registry
    stays as it is, and the only new entries are for ids not seen before,
    with an object and the timestamp of the pushed event. *)
Theorem pushed_event_never_refreshes_known_object :
  forall (Date_getTime : string -> Js.number) (event : DetectionEvent)
         (prev : list DetectionEvent),
    let before := Dashboard.buildLatestObjects Date_getTime prev in
    let after :=
      Dashboard.buildLatestObjects Date_getTime (DroneFeed.on_realtime (Some event) prev) in
    (forall e, In e before -> In e after)
    /\ (forall e, In e after ->
          In e before
          \/ (~ In (entry_id e) (map entry_id before)
              /\ LatestObjectEntry.lastSeen e = timestamp event
              /\ exists objs,
                   objects event = Some objs /\ In (LatestObjectEntry.object e) objs)).
Proof.
  intros Date_getTime event prev before after. subst before after. simpl.
  split.
  - intros e He. apply registry_entry_iff. apply registry_entry_iff in He.
    rewrite occurrences_cons. apply last_write_app. now left.
  - intros e He. apply registry_entry_iff in He.
    rewrite occurrences_cons in He. apply last_write_app in He as [He|[Hnew He]].
    + left. now apply registry_entry_iff.
    + right. split; [|].
      * intros Hin. apply in_map_iff in Hin as (e' & Hid & He').
        apply registry_entry_iff, last_write_key in He'. rewrite Hid in He'. contradiction.
      * destruct He as (b & p & a & Heq & _ & <- & _).
        destruct (objects event) as [objs|]; [|now destruct b].
        assert (Hp : In p (map (fun obj => (obj, timestamp event)) objs))
          by (rewrite Heq; apply in_or_app; right; now left).
        apply in_map_iff in Hp as (o & <- & Ho). simpl. eauto.
Qed.

(** Two comparators that order the elements of a list alike sort it
    alike. *)
Lemma insert_ext {A : Type} (c1 c2 : A -> A -> Js.number) (x : A) (l : list A) :
  (forall y, In y l -> Js.gt0 (c1 x y) = Js.gt0 (c2 x y)) ->
  Js.insert c1 x l = Js.insert c2 x l.
Proof.
  induction l as [|y l IH]; simpl; intros Hc; [reflexivity|].
  rewrite (Hc y (or_introl eq_refl)), IH; auto.
Qed.

Lemma Array_sort_ext {A : Type} (c1 c2 : A -> A -> Js.number) (l : list A) :
  (forall x y, In x l -> In y l -> Js.gt0 (c1 x y) = Js.gt0 (c2 x y)) ->
  Js.Array_sort c1 l = Js.Array_sort c2 l.
Proof.
  induction l as [|x l IH]; simpl; intros Hc; [reflexivity|].
  rewrite IH by (intros; apply Hc; auto).
  apply insert_ext. intros y Hy. apply Array_sort_In in Hy. apply Hc; auto.
Qed.

Lemma StronglySorted_weaken {A : Type} (R1 R2 : A -> A -> Prop) (l : list A) :
  (forall a b, R1 a b -> R2 a b) -> StronglySorted R1 l -> StronglySorted R2 l.
Proof.
  intros Himp. induction 1 as [|x l Hs IH Hall]; constructor; [exact IH|].
  eapply Forall_impl; [|exact Hall]. intros b. apply Himp.
Qed.



(* ================================================================= *)
(** ** More on the alert list of [intruders] *)

Lemma in_range_positioned location radius obj d :
  in_range location radius obj d
  <-> exists p, positioned obj p
                /\ d = Dashboard.calculateDistanceMeters location p
                /\ Js.gt d (Js.Finite radius) = false.
Proof.
  unfold in_range, positioned. split.
  - intros (lat & lng & Hlat & Hlng & Hd & Hle). exists (LatLng.mk lat lng). auto.
  - intros ([lat lng] & [Hlat Hlng] & Hd & Hle). exists lat, lng. auto.
Qed.

Lemma intruder_ids_iff events radius location k :
  0 < radius ->
  In k (map intruder_id (Dashboard.intruders events radius (Some location)))
  <-> exists o d, In o (scan_order events) /\ obj_id o = k /\ in_range location radius o d.
Proof.
  intros Hr. split.
  - intros Hk. apply in_map_iff in Hk as (e & <- & He).
    apply intruders_recorded in He as (loc & [= <-] & _ & Hfirst).
    apply first_write_occurs in Hfirst as (o & Ho & Hid & He).
    apply alert_entry_Some in He as (_ & Hin & _). eauto.
  - intros (o & d & Ho & <- & Hd).
    assert (He : alert_entry location radius o
                 = Some (Intruder.mk o d (Dashboard.eta_of (Dashboard.legacy_speed o) d)))
      by (apply alert_entry_Some; auto).
    destruct (first_write_exists obj_id (alert_entry location radius)
                (scan_order events) (obj_id o) o _ Ho eq_refl He) as [e' He'].
    rewrite (intruders_run _ _ _ Hr).
    apply in_map_iff. exists e'. split.
    + destruct He' as (b & y & a & _ & Hy & Hentry & _).
      apply alert_entry_Some in Hentry as (Hobj & _). unfold intruder_id. congruence.
    + apply Array_sort_In. apply seen_spec in He'.
      unfold Js.Map.values. apply in_map_iff. now exists (obj_id o, e').
Qed.

(** The range test [d > radius] on each kind of number. *)
Lemma gt_radius_false d radius :
  Js.gt d (Js.Finite radius) = false
  <-> d = Js.NaN \/ d = Js.NegInfinity \/ exists x, d = Js.Finite x /\ x <= radius.
Proof.
  destruct d as [x| | |]; simpl.
  - rewrite ltb_false. split.
    + intros H. right. right. eauto.
    + intros [H|[H|(y & [= <-] & H)]]; [discriminate | discriminate | exact H].
  - split; auto.
  - split; [discriminate|]. intros [H|[H|(y & H & _)]]; discriminate.
  - split; auto.
Qed.

Lemma gt_radius_mono d r1 r2 :
  r1 <= r2 -> Js.gt d (Js.Finite r1) = false -> Js.gt d (Js.Finite r2) = false.
Proof.
  intros Hle. rewrite !gt_radius_false.
  intros [H|[H|(x & H & Hx)]]; auto. right. right. exists x. split; [exact H | lra].
Qed.

(** X8. Widening the radius never takes an object off the alert list: every
    id listed for a radius is listed for every larger radius. *)
Theorem wider_radius_keeps_every_intruder :
  forall (events : list DetectionEvent) (location : LatLng.t) (r1 r2 : R),
    r1 <= r2 ->
    forall k,
      In k (map intruder_id (Dashboard.intruders events r1 (Some location))) ->
      In k (map intruder_id (Dashboard.intruders events r2 (Some location))).
Proof.
  intros events location r1 r2 Hle k Hk.
  destruct (Rle_lt_dec r1 0) as [Hr1|Hr1].
  - unfold Dashboard.intruders in Hk.
    rewrite (proj2 (leb_true r1 0) Hr1) in Hk. destruct Hk.
  - apply intruder_ids_iff in Hk as (o & d & Ho & Hid & lat & lng & Hlat & Hlng & Hd & Hin);
      [|exact Hr1].
    apply intruder_ids_iff; [lra|].
    exists o, d. repeat split; auto. exists lat, lng. repeat split; auto.
    now apply (gt_radius_mono d r1 r2).
Qed.

(** X9. Over real arithmetic in the range of the doubles, the haversine
    distance is symmetric and is never an infinity: it is NaN, or a number
    between 0 and half the circumference of the Earth
    ([EARTH_RADIUS_METERS * PI]). For measurable points it is the number
    that real arithmetic gives, which is zero from a point to itself; it is
    NaN as soon as a conversion to radians leaves the range of the
    doubles. *)
Theorem calculateDistanceMeters_symmetric_and_bounded :
  forall (from to : LatLng.t),
    Dashboard.calculateDistanceMeters from to = Dashboard.calculateDistanceMeters to from
    /\ (Dashboard.calculateDistanceMeters from to = Js.NaN
        \/ exists d,
             Dashboard.calculateDistanceMeters from to = Js.Finite d
             /\ 0 <= d <= EARTH_RADIUS_METERS * PI)
    /\ (measurable from to ->
        Dashboard.calculateDistanceMeters from to = Js.Finite (great_circle_meters from to))
    /\ (convertible (LatLng.lat from) ->
        Dashboard.calculateDistanceMeters from from = Js.Finite 0)
    /\ (~ measurable from to -> Dashboard.calculateDistanceMeters from to = Js.NaN).
Proof.
  intros from to. split; [|split; [|split; [|split]]].
  - destruct (calculateDistanceMeters_cases from to) as [[Hm ->]|[Hm ->]].
    + rewrite (calculateDistanceMeters_measurable to from) by now apply measurable_sym.
      now rewrite great_circle_sym.
    + destruct (calculateDistanceMeters_cases to from) as [[Hm' _]|[_ ->]]; [|reflexivity].
      apply measurable_sym in Hm'. contradiction.
  - apply calculateDistanceMeters_range.
  - apply calculateDistanceMeters_measurable.
  - apply calculateDistanceMeters_same.
  - intros Hm. destruct (calculateDistanceMeters_cases from to) as [[Hm' _]|[_ Heq]];
      [contradiction | exact Heq].
Qed.

(** The distance of an entry of the alert list. *)
Lemma intruder_distance events radius location e :
  In e (Dashboard.intruders events radius location) ->
  Intruder.distance e = Js.NaN
  \/ exists d, Intruder.distance e = Js.Finite d /\ 0 <= d <= radius.
Proof.
  intros He. apply intruders_recorded in He as (loc & _ & _ & Hfirst).
  apply first_write_occurs in Hfirst as (o & _ & _ & Ho).
  apply alert_entry_Some in Ho as (_ & (lat & lng & _ & _ & Hd & Hle) & _).
  destruct (calculateDistanceMeters_range loc (LatLng.mk lat lng)) as [Hnan|(d & Heq & Hd0 & _)].
  - left. congruence.
  - right. exists d. rewrite <- Hd in Heq. split; [exact Heq|]. split; [exact Hd0|].
    apply gt_radius_false in Hle as [H|[H|(x & H & Hx)]]; congruence.
Qed.

(** A quotient of a number that is not negative by a number greater than
    0. *)
Lemma eta_of_nonneg speed d t :
  0 <= d ->
  Dashboard.eta_of speed (Js.Finite d) = Some t ->
  t = Js.PosInfinity \/ exists r, t = Js.Finite r /\ 0 <= r.
Proof.
  intros Hd. unfold Dashboard.eta_of. destruct speed as [s|]; [|discriminate].
  destruct (Js.truthy s && Js.gt0 s)%bool eqn:Hs; [|discriminate].
  apply andb_true_iff in Hs as [_ Hgt]. intros [= <-].
  destruct s as [r| | |]; simpl in Hgt; try discriminate.
  - apply ltb_true in Hgt. cbn [Js.div]. destruct (Req_dec_T r 0) as [H|_]; [lra|].
    assert (Hq : 0 <= d / r).
    { unfold Rdiv. apply Rmult_le_pos; [exact Hd|]. left. now apply Rinv_0_lt_compat. }
    pose proof overflow_threshold_pos as Hpos.
    destruct (of_real_cases (d / r)) as [[_ ->]|[[_ ->]|[H _]]]; [eauto | auto | lra].
  - right. exists 0. split; [reflexivity | lra].
Qed.

Lemma eta_of_NaN speed t : Dashboard.eta_of speed Js.NaN = Some t -> t = Js.NaN.
Proof.
  unfold Dashboard.eta_of. destruct speed as [s|]; [|discriminate].
  destruct (Js.truthy s && Js.gt0 s)%bool; [|discriminate]. now intros [= <-].
Qed.

Lemma StronglySorted_weaken_in {A : Type} (R1 R2 : A -> A -> Prop) (l : list A) :
  (forall a b, In a l -> In b l -> R1 a b -> R2 a b) ->
  StronglySorted R1 l -> StronglySorted R2 l.
Proof.
  intros Himp Hsorted. induction Hsorted as [|x l Hs IH Hall].
  - constructor.
  - constructor.
    + apply IH. intros a b Ha Hb. apply Himp; now right.
    + rewrite Forall_forall in *. intros b Hb.
      apply Himp; [now left | now right | now apply Hall].
Qed.

(** Sorting by a key that is a finite number on every element gives a list
    in ascending order of the key. *)
Lemma sort_by_finite_key {A : Type} (key : A -> Js.number) (l : list A) :
  (forall x, In x l -> exists r, key x = Js.Finite r) ->
  StronglySorted (fun a b => at_most (key a) (key b))
    (Js.Array_sort (fun a b => Js.sub (key a) (key b)) l).
Proof.
  intros Hfinite.
  set (value := fun x => match key x with Js.Finite r => r | _ => 0 end).
  assert (Hvalue : forall x, In x l -> key x = Js.Finite (value x)).
  { intros x Hx. destruct (Hfinite x Hx) as [r Hr]. unfold value. now rewrite Hr. }
  rewrite (Array_sort_ext _ (by_key value)).
  - pose proof (Array_sort_by_key_sorted value l) as Hsorted.
    eapply StronglySorted_weaken_in; [|exact Hsorted].
    intros a b Ha Hb Hab. apply Array_sort_In in Ha, Hb.
    unfold at_most. rewrite (Hvalue a Ha), (Hvalue b Hb). now apply leb_true.
  - intros a b Ha Hb. rewrite (Hvalue a Ha), (Hvalue b Hb). cbn [Js.sub].
    now rewrite gt0_of_real.
Qed.

(** X10. Every entry of the alert list has passed the range test: its
    distance is NaN or a number between 0 and the radius, never an infinity.
    Its ETA is null, NaN, +Infinity or a number that is not negative. When
    no entry has a NaN distance, the list is in ascending order of
    distance. *)
Theorem intruder_distance_and_eta_are_not_negative :
  forall (events : list DetectionEvent) (radius : R) (location : option LatLng.t),
    let result := Dashboard.intruders events radius location in
    (forall e, In e result ->
       (Intruder.distance e = Js.NaN
        \/ exists d, Intruder.distance e = Js.Finite d /\ 0 <= d <= radius)
       /\ forall t, Intruder.etaSeconds e = Some t ->
            t = Js.NaN \/ t = Js.PosInfinity \/ exists r, t = Js.Finite r /\ 0 <= r)
    /\ ((forall e, In e result -> Intruder.distance e <> Js.NaN) ->
        StronglySorted (fun a b => at_most (Intruder.distance a) (Intruder.distance b))
          result).
Proof.
  intros events radius location result. split.
  - intros e He. pose proof (intruder_distance _ _ _ _ He) as Hdist.
    split; [exact Hdist|]. intros t Ht.
    apply intruders_recorded in He as (loc & _ & _ & Hfirst).
    apply first_write_occurs in Hfirst as (o & _ & _ & Ho).
    apply alert_entry_Some in Ho as (_ & _ & Heta). rewrite Heta in Ht.
    destruct Hdist as [Hnan|(d & Hd & Hd0 & _)].
    + rewrite Hnan in Ht. left. now apply eta_of_NaN in Ht.
    + rewrite Hd in Ht. right. now apply eta_of_nonneg in Ht.
  - intros Hnumbers. subst result. unfold Dashboard.intruders in *.
    destruct location as [loc|]; [|constructor].
    destruct (Js.leb radius 0) eqn:Hr; [constructor|].
    apply sort_by_finite_key. intros e He.
    assert (He' : In e (Dashboard.intruders events radius (Some loc))).
    { unfold Dashboard.intruders. rewrite Hr. now apply Array_sort_In. }
    destruct (intruder_distance _ _ _ _ He') as [Hnan|(d & Hd & _)]; [|eauto].
    exfalso. apply (Hnumbers e); [|exact Hnan]. now apply Array_sort_In.
Qed.

(** X11. With a radius of half the circumference of the Earth or more the
    geofence excludes nothing: the ids on the alert list are exactly the
    ids of the objects that have finite coordinates in their own [lat] and
    [lng]. *)
Theorem radius_of_half_circumference_lists_every_positioned_object :
  forall (events : list DetectionEvent) (location : LatLng.t) (radius : R),
    EARTH_RADIUS_METERS * PI <= radius ->
    forall k,
      In k (map intruder_id (Dashboard.intruders events radius (Some location)))
      <-> exists o p, In o (scan_order events) /\ obj_id o = k /\ positioned o p.
Proof.
  intros events location radius Hr k.
  assert (Hpos : 0 < radius).
  { pose proof PI_RGT_0. unfold EARTH_RADIUS_METERS in Hr. nra. }
  rewrite (intruder_ids_iff _ _ _ _ Hpos). split.
  - intros (o & d & Ho & Hid & Hin).
    apply in_range_positioned in Hin as (p & Hp & _). eauto.
  - intros (o & p & Ho & Hid & Hp).
    exists o, (Dashboard.calculateDistanceMeters location p). repeat split; auto.
    apply in_range_positioned. exists p. split; [exact Hp|]. split; [reflexivity|].
    apply gt_radius_false.
    destruct (calculateDistanceMeters_range location p) as [Hnan|(d & Hd & _ & Hmax)];
      [now left|].
    right. right. exists d. split; [exact Hd | lra].
Qed.

(* ================================================================= *)
(** ** More on the ring of [createCirclePolygon] *)

Lemma ring_nth center radius steps i d :
  (i <= steps)%nat ->
  nth i (MapComponent.createCirclePolygon center radius steps) d
  = MapComponent.ring_point center radius steps i.
Proof.
  intros Hi. rewrite createCirclePolygon_seq.
  rewrite (nth_indep _ d (MapComponent.ring_point center radius steps 0))
    by (rewrite length_map, length_seq; lia).
  rewrite (map_nth (MapComponent.ring_point center radius steps)).
  now rewrite seq_nth by lia.
Qed.

(** X13. Away from the poles every point of the ring is at the radius from
    the center in the flat projection the ring is drawn in: with the
    latitude offset and the longitude offset, shrunk by the cosine of the
    center latitude, both taken in meters on the sphere, the squares of the
    two offsets add up to the square of the radius. *)
Theorem ring_points_are_at_the_radius :
  forall (center : LatLng.t) (radiusMeters : R) (steps i : nat) (d : R * R),
    (i <= steps)%nat ->
    cos (LatLng.lat center * PI / 180) <> 0 ->
    let point := nth i (MapComponent.createCirclePolygon center radiusMeters steps) d in
    let north := (snd point - LatLng.lat center) * PI / 180 * EARTH_RADIUS_METERS in
    let east :=
      (fst point - LatLng.lng center) * PI / 180
      * cos (LatLng.lat center * PI / 180) * EARTH_RADIUS_METERS in
    east * east + north * north = radiusMeters * radiusMeters.
Proof.
  intros center radiusMeters steps i d Hi Hcos point north east.
  subst point north east. rewrite (ring_nth _ _ _ _ _ Hi).
  unfold MapComponent.ring_point. cbn [fst snd].
  set (angle := INR i / INR steps * 2 * PI).
  pose proof (sin2_cos2 angle) as Hunit. unfold Rsqr in Hunit.
  pose proof PI_neq0 as Hpi.
  assert (HE : EARTH_RADIUS_METERS <> 0) by (unfold EARTH_RADIUS_METERS; lra).
  replace ((LatLng.lat center + radiusMeters / EARTH_RADIUS_METERS * sin angle * 180 / PI
            - LatLng.lat center) * PI / 180 * EARTH_RADIUS_METERS)
    with (radiusMeters * sin angle) by (field; auto).
  replace ((LatLng.lng center
            + radiusMeters / EARTH_RADIUS_METERS * cos angle * 180 / PI
              / cos (LatLng.lat center * PI / 180)
            - LatLng.lng center) * PI / 180
           * cos (LatLng.lat center * PI / 180) * EARTH_RADIUS_METERS)
    with (radiusMeters * cos angle) by (field; auto).
  replace (radiusMeters * cos angle * (radiusMeters * cos angle)
           + radiusMeters * sin angle * (radiusMeters * sin angle))
    with (radiusMeters * radiusMeters * (sin angle * sin angle + cos angle * cos angle))
    by ring.
  rewrite Hunit. ring.
Qed.

Lemma ring_point_mirror center radius steps i :
  (i <= steps)%nat -> (0 < steps)%nat ->
  fst (MapComponent.ring_point center radius steps (steps - i))
  = fst (MapComponent.ring_point center radius steps i)
  /\ snd (MapComponent.ring_point center radius steps (steps - i)) - LatLng.lat center
     = - (snd (MapComponent.ring_point center radius steps i) - LatLng.lat center).
Proof.
  intros Hi Hsteps. unfold MapComponent.ring_point. cbn [fst snd].
  assert (Hn : INR steps <> 0) by (apply not_0_INR; lia).
  rewrite minus_INR by exact Hi.
  replace ((INR steps - INR i) / INR steps * 2 * PI)
    with (2 * PI - INR i / INR steps * 2 * PI) by (field; exact Hn).
  set (angle := INR i / INR steps * 2 * PI).
  rewrite cos_minus, sin_minus, cos_2PI, sin_2PI. split.
  - f_equal. f_equal. f_equal. f_equal. ring.
  - unfold Rdiv. ring.
Qed.

(** X14. The ring stays in the box that the radius spans around the center:
    no point is farther from the center latitude than the radius in
    degrees. The ring is symmetric about the parallel of the center: the
    points of turns [i] and [steps - i] have the same longitude and
    latitudes mirrored in the center latitude. *)
Theorem ring_latitude_bound_and_symmetry :
  forall (center : LatLng.t) (radiusMeters : R) (steps i : nat) (d : R * R),
    (i <= steps)%nat ->
    let ring := MapComponent.createCirclePolygon center radiusMeters steps in
    Rabs (snd (nth i ring d) - LatLng.lat center)
    <= Rabs radiusMeters / EARTH_RADIUS_METERS * 180 / PI
    /\ ((0 < steps)%nat ->
        fst (nth (steps - i) ring d) = fst (nth i ring d)
        /\ snd (nth (steps - i) ring d) - LatLng.lat center
           = - (snd (nth i ring d) - LatLng.lat center)).
Proof.
  intros center radiusMeters steps i d Hi ring. subst ring. split.
  - rewrite (ring_nth _ _ _ _ _ Hi). unfold MapComponent.ring_point. cbn [snd].
    set (angle := INR i / INR steps * 2 * PI).
    pose proof PI_RGT_0 as Hpi.
    replace (LatLng.lat center + radiusMeters / EARTH_RADIUS_METERS * sin angle * 180 / PI
             - LatLng.lat center)
      with (radiusMeters * (sin angle * (180 / (EARTH_RADIUS_METERS * PI))))
      by (unfold EARTH_RADIUS_METERS; field; lra).
    replace (Rabs radiusMeters / EARTH_RADIUS_METERS * 180 / PI)
      with (Rabs radiusMeters * (1 * (180 / (EARTH_RADIUS_METERS * PI))))
      by (unfold EARTH_RADIUS_METERS; field; lra).
    rewrite Rabs_mult. apply Rmult_le_compat_l; [apply Rabs_pos|].
    assert (Hk : 0 < 180 / (EARTH_RADIUS_METERS * PI)).
    { unfold EARTH_RADIUS_METERS. apply Rdiv_lt_0_compat; nra. }
    rewrite Rabs_mult, (Rabs_pos_eq (180 / _)) by lra.
    apply Rmult_le_compat_r; [lra|].
    pose proof (SIN_bound angle) as [Hlo Hhi]. apply Rabs_le. lra.
  - intros Hsteps. rewrite (ring_nth _ _ _ _ _ Hi).
    rewrite ring_nth by lia. now apply ring_point_mirror.
Qed.

(* ================================================================= *)
(** ** More on coordinate resolution *)

(** The loop of [extractFromSource] returns the number of the first key, in
    the order of [keys], whose value is a number or a numeric string. *)
Lemma extractFromSource_truthy source key keys :
  Js.truthy_value source = true ->
  ObjectGeo.extractFromSource source (key :: keys)
  = match ObjectGeo.toValidNumber (Js.get source key) with
    | Some numeric => Some numeric
    | None => ObjectGeo.extractFromSource source keys
    end.
Proof. intros H. unfold ObjectGeo.extractFromSource. now rewrite H. Qed.

Lemma extractFromSource_nil source : ObjectGeo.extractFromSource source [] = None.
Proof. unfold ObjectGeo.extractFromSource. now destruct (Js.truthy_value source). Qed.

Lemma extractFromSource_falsy source keys :
  Js.truthy_value source = false -> ObjectGeo.extractFromSource source keys = None.
Proof. intros H. unfold ObjectGeo.extractFromSource. now rewrite H. Qed.

Lemma extractFromSource_first_of source keys r :
  Js.truthy_value source = true ->
  ObjectGeo.extractFromSource source keys = Some r
  <-> exists before key after,
        keys = before ++ key :: after
        /\ ObjectGeo.toValidNumber (Js.get source key) = Some r
        /\ forall k, In k before -> ObjectGeo.toValidNumber (Js.get source k) = None.
Proof.
  intros Htruthy. induction keys as [|key keys IH].
  - rewrite extractFromSource_nil. split; [discriminate|].
    intros (before & k & after & Heq & _). now destruct before.
  - rewrite extractFromSource_truthy by exact Htruthy.
    destruct (ObjectGeo.toValidNumber (Js.get source key)) as [x|] eqn:Hkey.
    + split.
      * intros [= ->]. exists [], key, keys. repeat split; auto. intros k [].
      * intros ([|k0 before] & k & after & Heq & Hk & Hbefore).
        -- injection Heq as <- _. congruence.
        -- injection Heq as <- _. rewrite (Hbefore key (or_introl eq_refl)) in Hkey.
           discriminate.
    + rewrite IH. split.
      * intros (before & k & after & -> & Hk & Hbefore).
        exists (key :: before), k, after. repeat split; auto.
        intros k' [<-|Hk']; auto.
      * intros ([|k0 before] & k & after & Heq & Hk & Hbefore).
        -- injection Heq as <- _. congruence.
        -- injection Heq as _ ->. exists before, k, after. repeat split; auto.
           intros k' Hk'. apply Hbefore. now right.
Qed.

Lemma extractFromSource_none_of source keys :
  ObjectGeo.extractFromSource source keys = None
  <-> Js.truthy_value source = false
      \/ forall k, In k keys -> ObjectGeo.toValidNumber (Js.get source k) = None.
Proof.
  destruct (Js.truthy_value source) eqn:Htruthy.
  - split.
    + intros Hnone. right. intros k Hk.
      destruct (ObjectGeo.toValidNumber (Js.get source k)) as [x|] eqn:Hx; [|reflexivity].
      exfalso. revert Hnone Hk. clear -Hx Htruthy.
      induction keys as [|key keys IH]; [intros _ []|].
      rewrite extractFromSource_truthy by exact Htruthy.
      destruct (ObjectGeo.toValidNumber (Js.get source key)) eqn:Hkey; [discriminate|].
      intros Hnone [->|Hk]; [congruence | auto].
    + intros [H|Hall]; [discriminate|].
      destruct (ObjectGeo.extractFromSource source keys) as [r|] eqn:Hr; [|reflexivity].
      apply extractFromSource_first_of in Hr as (before & key & after & -> & Hk & _);
        [|exact Htruthy].
      rewrite Hall in Hk; [discriminate|]. apply in_or_app. right. now left.
  - split; [now left|]. intros _. now apply extractFromSource_falsy.
Qed.

(** X15. [extractFromSource] returns null at once for a falsy source
    ([undefined], [null], [0], NaN, the empty string). Any other source is
    indexed: the result is the number of the first key, in the order given,
    whose value is a finite number or a numeric string, keys with other
    values are passed over, and the result is null when no key has such a
    value. A source that is a number has no such key; a source that is a
    string has its [length] and its characters, so that
    [extractFromSource("abc", ["length"])] is 3, and nothing else: for keys
    that are neither [length] nor an index it gives null. *)
Theorem extractFromSource_takes_first_valid_key :
  forall (keys : list string),
    (forall source r,
        Js.truthy_value source = true ->
        (ObjectGeo.extractFromSource source keys = Some r
         <-> exists before key after,
               keys = before ++ key :: after
               /\ ObjectGeo.toValidNumber (Js.get source key) = Some r
               /\ forall k, In k before ->
                    ObjectGeo.toValidNumber (Js.get source k) = None))
    /\ (forall source,
          ObjectGeo.extractFromSource source keys = None
          <-> Js.truthy_value source = false
              \/ forall k, In k keys -> ObjectGeo.toValidNumber (Js.get source k) = None)
    /\ (forall props key, Js.get (Js.Obj props) key = Js.prop props key)
    /\ (forall n, ObjectGeo.extractFromSource (Js.Num n) keys = None)
    /\ ObjectGeo.extractFromSource (Js.Str "abc") ["length"] = Some 3
    /\ ObjectGeo.extractFromSource (Js.Str "a7") ["1"] = Some 7
    /\ (forall s,
          (forall k, In k keys -> k <> "length" /\ Js.index_of k = None) ->
          ObjectGeo.extractFromSource (Js.Str s) keys = None).
Proof.
  intros keys. repeat match goal with |- _ /\ _ => split end.
  - intros source r Htruthy. now apply extractFromSource_first_of.
  - intros source. apply extractFromSource_none_of.
  - reflexivity.
  - intros n. apply (proj2 (extractFromSource_none_of _ _)). right. reflexivity.
  - unfold ObjectGeo.extractFromSource. simpl. f_equal. lra.
  - unfold ObjectGeo.extractFromSource. simpl. f_equal.
    unfold Js.parseFloat. simpl. unfold Q2R. simpl. lra.
  - intros s Hkeys. apply (proj2 (extractFromSource_none_of _ _)). right. intros k Hk.
    destruct (Hkeys k Hk) as [Hlength Hindex]. unfold Js.get.
    rewrite (proj2 (String.eqb_neq k "length") Hlength), Hindex. reflexivity.
Qed.

Lemma nullish_valid a b r :
  ObjectGeo.toValidNumber (Js.nullish a b) = Some r ->
  ObjectGeo.toValidNumber a = Some r
  \/ (ObjectGeo.toValidNumber a = None /\ ObjectGeo.toValidNumber b = Some r).
Proof.
  destruct a; simpl; auto.
Qed.

Lemma direct_coordinate object keys r :
  ObjectGeo.extractFromSource (Js.Obj (as_record object)) keys = Some r ->
  ObjectGeo.extractCoordinate object keys = Some r.
Proof. intros H. unfold ObjectGeo.extractCoordinate. now rewrite H. Qed.

(** X16. An object that gets a marker has a position in the popup too, with
    the same latitude. The longitude is the same as well, except when the
    object carries both a [lon] and a [long] number: the marker reads [long]
    before [lon], the popup [lon] before [long]. *)
Theorem marker_and_popup_coordinates_agree :
  forall (object : DetectedObject) (p : LatLng.t),
    MapComponent.getPrimaryCoordinates object = Some p ->
    ObjectGeo.getObjectLatitude object = Some (LatLng.lat p)
    /\ exists lng,
         ObjectGeo.getObjectLongitude object = Some lng
         /\ (lng = LatLng.lng p
             \/ (ObjectGeo.toValidNumber (Js.prop (as_record object) "lon") = Some lng
                 /\ ObjectGeo.toValidNumber (Js.prop (as_record object) "long")
                    = Some (LatLng.lng p))).
Proof.
  intros object p Hp. apply getPrimaryCoordinates_Some in Hp as [Hlat Hlng].
  rewrite toOptionalNumber_toValidNumber in Hlat, Hlng.
  split.
  - apply direct_coordinate. rewrite !extractFromSource_cons.
    apply nullish_valid in Hlat as [Hlat|[Hlat Hlat']]; rewrite Hlat; [reflexivity|].
    apply nullish_valid in Hlat' as [Hlat'|[_ Hnull]]; [|discriminate].
    now rewrite Hlat'.
  - apply nullish_valid in Hlng as [Hlng|[Hlng Hrest]].
    + exists (LatLng.lng p). split; [|now left].
      apply direct_coordinate. rewrite extractFromSource_cons. now rewrite Hlng.
    + destruct (ObjectGeo.toValidNumber (Js.prop (as_record object) "lon"))
        as [lon|] eqn:Hlon.
      * exists lon. split.
        -- apply direct_coordinate. rewrite !extractFromSource_cons.
           now rewrite Hlng, Hlon.
        -- apply nullish_valid in Hrest as [Hlong|[Hlong Hrest]]; [right; auto|].
           apply nullish_valid in Hrest as [Hrest|[_ Hnull]]; [|discriminate].
           left. congruence.
      * exists (LatLng.lng p). split; [|now left].
        apply direct_coordinate. rewrite !extractFromSource_cons. rewrite Hlng, Hlon.
        apply nullish_valid in Hrest as [Hlong|[Hlong Hrest]]; [now rewrite Hlong|].
        apply nullish_valid in Hrest as [Hrest|[_ Hnull]]; [congruence | discriminate].
Qed.

(** X17. A value of [lat] that is present but not numeric hides [latitude]
    from the markers and not from the popup: with a [lat] that is neither
    absent, null nor numeric and a numeric [latitude], the popup shows the
    latitude and the object gets no marker. *)
Theorem unparsable_lat_hides_latitude_from_markers :
  forall (object : DetectedObject) (r : R),
    Js.prop (as_record object) "lat" <> Js.Undefined ->
    Js.prop (as_record object) "lat" <> Js.Null ->
    ObjectGeo.toValidNumber (Js.prop (as_record object) "lat") = None ->
    ObjectGeo.toValidNumber (Js.prop (as_record object) "latitude") = Some r ->
    ObjectGeo.getObjectLatitude object = Some r
    /\ MapComponent.getPrimaryCoordinates object = None
    /\ forall zoom, MapComponent.getMarkerDescriptors [object] zoom = [].
Proof.
  intros object r Hundef Hnull Hlat Hlatitude.
  assert (Hprimary : MapComponent.getPrimaryCoordinates object = None).
  { unfold MapComponent.getPrimaryCoordinates.
    replace (Js.nullish (Js.prop (as_record object) "lat")
               (Js.nullish (Js.prop (as_record object) "latitude") Js.Null))
      with (Js.prop (as_record object) "lat")
      by (destruct (Js.prop (as_record object) "lat"); try reflexivity; contradiction).
    rewrite toOptionalNumber_toValidNumber, Hlat. reflexivity. }
  split; [|split; [exact Hprimary|]].
  - apply direct_coordinate. rewrite !extractFromSource_cons. now rewrite Hlat, Hlatitude.
  - intros zoom. unfold MapComponent.getMarkerDescriptors, MapComponent.cluster_pass.
    simpl. unfold MapComponent.cluster_object. rewrite Hprimary.
    now destruct (Js.leb 15 zoom).
Qed.

(* ================================================================= *)
(** ** Marker colours *)

Lemma ToInt32_range z : (- 2 ^ 31 <= Palette.ToInt32 z < 2 ^ 31)%Z.
Proof.
  unfold Palette.ToInt32.
  pose proof (Z.mod_pos_bound (z + 2 ^ 31) (2 ^ 32) ltac:(lia)). lia.
Qed.

Lemma charCode_range c : (0 <= Palette.charCode c < 256)%Z.
Proof.
  unfold Palette.charCode. pose proof (nat_ascii_bounded c). lia.
Qed.

Lemma hash_loop_bound objectId hash :
  (Z.abs (Palette.hash_loop objectId hash)
   <= Z.abs hash + Z.of_nat (String.length objectId) * (2 ^ 31 + 255))%Z.
Proof.
  revert hash. induction objectId as [|c rest IH]; intros hash.
  - simpl. lia.
  - cbn [Palette.hash_loop String.length]. specialize (IH (Palette.charCode c
      + (Palette.shiftLeft hash 5 - hash))%Z).
    pose proof (charCode_range c).
    pose proof (ToInt32_range (Palette.ToInt32 hash * 2 ^ 5)) as Hshift.
    fold (Palette.shiftLeft hash 5) in Hshift.
    rewrite Nat2Z.inj_succ. lia.
Qed.

Lemma collision_or_NoDup {A : Type} (f : A -> string) (l : list A) :
  NoDup l ->
  NoDup (map f l) \/ exists x y, In x l /\ In y l /\ x <> y /\ f x = f y.
Proof.
  induction 1 as [|x l Hx Hnd IH]; simpl; [left; constructor|].
  destruct IH as [IH|(a & b & Ha & Hb & Hab & Hf)].
  - destruct (in_dec string_dec (f x) (map f l)) as [Hin|Hnotin].
    + right. apply in_map_iff in Hin as (y & Hy & Hin).
      exists x, y. repeat split; auto. intros ->. contradiction.
    + left. now constructor.
  - right. exists a, b. auto.
Qed.

(** X18. [getColorForObjectId] always returns one of the fifteen colours of
    the palette, also when the hash is negative; the hash stays an exactly
    representable integer (below [2^53] in magnitude) for ids of up to four
    million characters. The colours are not unique per id: among any
    sixteen distinct ids two have the same colour. *)
Theorem getColorForObjectId_in_palette :
  (forall objectId, In (Palette.getColorForObjectId objectId) Palette.colors)
  /\ (forall objectId,
        (Z.of_nat (String.length objectId) <= 4000000)%Z ->
        (Z.abs (Palette.hash_loop objectId 0) < 2 ^ 53)%Z)
  /\ (forall ids,
        NoDup ids -> (15 < List.length ids)%nat ->
        exists id1 id2,
          In id1 ids /\ In id2 ids /\ id1 <> id2
          /\ Palette.getColorForObjectId id1 = Palette.getColorForObjectId id2).
Proof.
  assert (Hin : forall objectId, In (Palette.getColorForObjectId objectId) Palette.colors).
  { intros objectId. unfold Palette.getColorForObjectId. apply nth_In.
    change (Z.of_nat (List.length Palette.colors)) with 15%Z.
    change (List.length Palette.colors) with 15%nat.
    pose proof (Z.mod_pos_bound (Z.abs (Palette.hash_loop objectId 0)) 15 ltac:(lia)).
    lia. }
  split; [exact Hin|]. split.
  - intros objectId Hlen. pose proof (hash_loop_bound objectId 0) as Hb.
    change (Z.abs 0) with 0%Z in Hb.
    assert (Hk : (2 ^ 31 + 255 = 2147483903)%Z) by reflexivity.
    assert (Hp : (2 ^ 53 = 9007199254740992)%Z) by reflexivity.
    rewrite Hk in Hb. rewrite Hp. nia.
  - intros ids Hnd Hlen.
    destruct (collision_or_NoDup Palette.getColorForObjectId ids Hnd) as [Hnd'|Hcol];
      [|exact Hcol].
    exfalso.
    assert (Hincl : incl (map Palette.getColorForObjectId ids) Palette.colors).
    { intros c Hc. apply in_map_iff in Hc as (x & <- & _). apply Hin. }
    pose proof (NoDup_incl_length Hnd' Hincl) as Hle.
    rewrite length_map in Hle. simpl in Hle. lia.
Qed.

(* ================================================================= *)
(** ** The texts of [formatEta] and [formatDistance] *)

Lemma string_app_assoc (a b c : string) : ((a ++ b) ++ c = a ++ (b ++ c))%string.
Proof. induction a as [|x a IH]; simpl; [reflexivity | now rewrite IH]. Qed.

Lemma not_available_suffix (a : string) (c : ascii) :
  c <> "A"%char -> (a ++ String c "")%string <> "N/A".
Proof.
  intros Hc H. destruct a as [|x [|y [|z a]]]; simpl in H; try discriminate.
  - injection H as _ _ Hc'. congruence.
  - injection H as _ _ _ H. destruct a; discriminate.
Qed.

Lemma Math_round_near x :
  IZR (Format.Math_round x) - 1 / 2 <= x < IZR (Format.Math_round x) + 1 / 2.
Proof.
  unfold Format.Math_round. pose proof (Zfloor_bound (x + 1 / 2)). lra.
Qed.

Lemma Math_round_below x z : x < IZR z + 1 / 2 -> (Format.Math_round x <= z)%Z.
Proof.
  intros Hx. pose proof (Math_round_near x) as [Hlo _].
  assert (H : IZR (Format.Math_round x) < IZR (z + 1)) by (rewrite plus_IZR; lra).
  apply lt_IZR in H. lia.
Qed.

Lemma Math_round_above x z : IZR z - 1 / 2 <= x -> (z <= Format.Math_round x)%Z.
Proof.
  intros Hx. unfold Format.Math_round. apply Zfloor_lub. lra.
Qed.

Lemma formatEta_under_60 divide s :
  s < 60 ->
  Format.formatEta divide (Some (Js.Finite s))
  = (Format.String_of_integer (Z.max 1 (Format.Math_round s)) ++ "s")%string.
Proof.
  intros Hs. unfold Format.formatEta. now rewrite (proj2 (ltb_true s 60) Hs).
Qed.

(** The seconds of an ETA of a minute or more: what is left of it over the
    whole minutes, rounded. *)
Lemma seconds_left s :
  60 <= s ->
  let secs := Format.Math_round (Format.remainder s 60) in
  Format.remainder s 60 = s - 60 * IZR (Zfloor (s / 60))
  /\ 0 <= Format.remainder s 60 < 60
  /\ (0 <= secs <= 60)%Z.
Proof.
  intros Hs secs. subst secs.
  assert (Hq : 1 <= s / 60) by lra.
  assert (Hrem : Format.remainder s 60 = s - 60 * IZR (Zfloor (s / 60))).
  { unfold Format.remainder, Format.truncate.
    destruct (Rlt_dec (s / 60) 0); [lra | reflexivity]. }
  pose proof (Zfloor_bound (s / 60)) as [Hlo Hhi].
  assert (Hr : 0 <= Format.remainder s 60 < 60) by (rewrite Hrem; lra).
  repeat split; try tauto; try lra.
  - apply Math_round_above. simpl. lra.
  - apply Math_round_below. lra.
Qed.

Lemma formatEta_from_60 divide s :
  60 <= s ->
  let minutes := Format.Math_floor (divide s 60) in
  let secs := Format.Math_round (Format.remainder s 60) in
  Format.formatEta divide (Some (Js.Finite s))
  = if (0 <? secs)%Z then
      (Format.String_of_integer minutes ++ "m " ++ Format.String_of_integer secs ++ "s")%string
    else (Format.String_of_integer minutes ++ "m")%string.
Proof.
  intros Hs minutes secs. unfold Format.formatEta.
  now rewrite (proj2 (ltb_false s 60) Hs).
Qed.

(** X19. [formatEta] gives "N/A" exactly for a null, NaN or infinite ETA.
    An ETA under a minute is shown as whole seconds, between "1s" and
    "60s" and never "0s": the seconds are the ETA rounded to the nearest
    integer whenever the ETA is half a second or more. *)
Theorem formatEta_under_a_minute :
  forall (divide : R -> R -> R),
    (forall seconds,
        Format.formatEta divide seconds = "N/A"
        <-> seconds = None \/ exists n, seconds = Some n /\ Js.Number_isFinite n = false)
    /\ (forall s,
          s < 60 ->
          exists n,
            (1 <= n <= 60)%Z
            /\ Format.formatEta divide (Some (Js.Finite s))
               = (Format.String_of_integer n ++ "s")%string
            /\ (1 / 2 <= s -> IZR n - 1 / 2 <= s < IZR n + 1 / 2)).
Proof.
  intros divide. split.
  - intros seconds. split.
    + destruct seconds as [[s| | |]|]; try (intros _; right; eexists; split; reflexivity).
      * intros H. exfalso. destruct (Rlt_le_dec s 60) as [Hs|Hs].
        -- rewrite (formatEta_under_60 divide s Hs) in H.
           now apply not_available_suffix in H.
        -- rewrite (formatEta_from_60 divide s Hs) in H.
           destruct (0 <? _)%Z.
           ++ rewrite <- !string_app_assoc in H. now apply not_available_suffix in H.
           ++ now apply not_available_suffix in H.
      * intros _. now left.
    + intros [->|(n & -> & Hn)]; [reflexivity|].
      destruct n; [discriminate | reflexivity..].
  - intros s Hs. exists (Z.max 1 (Format.Math_round s)).
    assert (Hle : (Format.Math_round s <= 60)%Z) by (apply Math_round_below; lra).
    split; [lia|]. split; [now apply formatEta_under_60|].
    intros Hhalf.
    assert (Hge : (1 <= Format.Math_round s)%Z) by (apply Math_round_above; simpl; lra).
    rewrite Z.max_r by exact Hge. apply Math_round_near.
Qed.

(** *** The rounding of a quotient *)

Lemma Rabs_bound a b : Rabs a <= b -> - b <= a <= b.
Proof.
  intros H. pose proof (Rle_abs a) as Hpos. pose proof (Rle_abs (- a)) as Hneg.
  rewrite Rabs_Ropp in Hneg. lra.
Qed.

Lemma pow2_53 : 2 ^ 53 = 9007199254740992.
Proof.
  change 2 with (IZR 2). rewrite pow_IZR. f_equal.
Qed.

Lemma exact_division_rounds : rounds_to_nearest (fun x y => x / y).
Proof.
  split; [|split; auto].
  intros x y _ [Hq _]. replace (x / y - x / y) with 0 by ring. rewrite Rabs_R0.
  assert (Hu : 0 < / 2 ^ 53) by (apply Rinv_0_lt_compat, pow_lt; lra). nra.
Qed.

(** A rounded quotient between 1 and [2^1023] is within [2^-53] of the
    exact one in proportion. *)
Lemma rounded_quotient divide x y :
  rounds_to_nearest divide ->
  0 < y -> 1 <= x / y <= 2 ^ 1023 ->
  - (x / y * / 2 ^ 53) <= divide x y - x / y <= x / y * / 2 ^ 53.
Proof.
  intros (Hnear & _) Hy Hq. now apply Rabs_bound, Hnear.
Qed.

(** The whole part of a rounded quotient is the whole part of the exact
    one, or one more. *)
Lemma rounded_floor divide x y :
  rounds_to_nearest divide ->
  0 < y -> 0 <= x / y <= 2 ^ 52 ->
  (Zfloor (x / y) <= Zfloor (divide x y) <= Zfloor (x / y) + 1)%Z.
Proof.
  intros (_ & Hbelow & Habove) Hy [Hq0 Hq].
  pose proof (Zfloor_bound (x / y)) as [Hlo Hhi].
  assert (H0 : (0 <= Zfloor (x / y))%Z) by (apply Zfloor_lub; exact Hq0).
  assert (H52 : (Zfloor (x / y) <= 2 ^ 52)%Z).
  { apply le_IZR. change (2 ^ 52)%Z with (2 ^ Z.of_nat 52)%Z. rewrite <- pow_IZR. lra. }
  assert (H53 : (2 ^ 52 + 1 <= 2 ^ 53)%Z) by (vm_compute; discriminate).
  split.
  - apply Zfloor_lub. apply Hbelow; [exact Hy | lia | exact Hlo].
  - assert (Hup : divide x y <= IZR (Zfloor (x / y) + 1)).
    { apply Habove; [exact Hy | lia | rewrite plus_IZR; lra]. }
    pose proof (Zfloor_bound (divide x y)) as [Hdlo _].
    apply le_IZR. lra.
Qed.

(** X20. An ETA of a minute or more, up to [6 * 10^16] seconds, is shown as
    minutes, at least "1m", followed by the seconds left over, rounded,
    unless they round to zero. The minutes are the whole part of the
    quotient by 60 as the doubles round it: the whole minutes of the ETA, or
    one more when the quotient is within its rounding of the next whole
    number. The seconds are taken from the exact remainder and are not
    carried into the minutes: they range from 1 to 60, and half a second
    before a full minute the text ends in "60s" (and reads "60s" alone half
    a second before the first minute). *)
Theorem formatEta_minutes_and_seconds :
  forall (divide : R -> R -> R),
    rounds_to_nearest divide ->
    (forall s,
        60 <= s < 6 * 10 ^ 16 ->
        exists minutes secs,
          (1 <= minutes < 10 ^ 21)%Z /\ (0 <= secs <= 60)%Z
          /\ IZR minutes <= divide s 60 < IZR minutes + 1
          /\ (Zfloor (s / 60) <= minutes <= Zfloor (s / 60) + 1)%Z
          /\ IZR minutes <= s / 60 + s / 60 * / 2 ^ 53
          /\ IZR secs - 1 / 2 <= s - 60 * IZR (Zfloor (s / 60)) < IZR secs + 1 / 2
          /\ Format.formatEta divide (Some (Js.Finite s))
             = if (secs =? 0)%Z then (Format.String_of_integer minutes ++ "m")%string
               else (Format.String_of_integer minutes ++ "m "
                     ++ Format.String_of_integer secs ++ "s")%string)
    /\ (forall minutes,
          (1 <= minutes < 10 ^ 13)%Z ->
          Format.formatEta divide (Some (Js.Finite (60 * IZR minutes + 59.5)))
          = (Format.String_of_integer minutes ++ "m 60s")%string)
    /\ Format.formatEta divide (Some (Js.Finite 59.5)) = "60s".
Proof.
  intros divide Hdivide.
  assert (H1016 : 10 ^ 16 = 10000000000000000) by (simpl; lra).
  assert (H252 : 2 ^ 52 = 4503599627370496) by (simpl; lra).
  assert (Hmax : 2 ^ 52 <= 2 ^ 1023) by (apply Rle_pow; [lra | lia]).
  split; [|split].
  - intros s [Hs Hbig].
    destruct (seconds_left s Hs) as (Hrem & Hr & Hk).
    pose proof (rounded_quotient divide s 60 Hdivide ltac:(lra) ltac:(lra)) as Herr.
    pose proof (rounded_floor divide s 60 Hdivide ltac:(lra) ltac:(lra)) as Hfloor.
    pose proof (Zfloor_bound (divide s 60)) as [Hlo Hhi].
    assert (Hone : (1 <= Zfloor (s / 60))%Z) by (apply Zfloor_lub; simpl; lra).
    exists (Format.Math_floor (divide s 60)), (Format.Math_round (Format.remainder s 60)).
    unfold Format.Math_floor.
    split.
    { split; [lia|].
      apply lt_IZR. change (10 ^ 21)%Z with (10 ^ Z.of_nat 21)%Z. rewrite <- pow_IZR.
      assert (Hpow : 10 ^ 21 = 100000 * 10 ^ 16) by (simpl; lra).
      assert (Hu : / 2 ^ 53 <= 1) by (rewrite pow2_53; lra).
      assert (Hu0 : 0 < / 2 ^ 53) by (apply Rinv_0_lt_compat, pow_lt; lra).
      nra. }
    split; [exact Hk|]. split; [lra|]. split; [exact Hfloor|]. split; [lra|].
    split; [rewrite <- Hrem; apply Math_round_near|].
    rewrite (formatEta_from_60 divide s Hs). unfold Format.Math_floor.
    destruct (Z.ltb_spec 0 (Format.Math_round (Format.remainder s 60))) as [Hpos|Hzero].
    + now rewrite (proj2 (Z.eqb_neq _ 0)) by lia.
    + now rewrite (proj2 (Z.eqb_eq _ 0)) by lia.
  - intros minutes [Hmin Hmax13].
    assert (Hm : 1 <= IZR minutes) by (apply (IZR_le 1); exact Hmin).
    assert (Hm13 : IZR minutes <= 10 ^ 13).
    { rewrite pow_IZR. apply IZR_le. simpl. lia. }
    assert (H1013 : 10 ^ 13 = 10000000000000) by (simpl; lra).
    set (s := 60 * IZR minutes + 59.5).
    assert (Hs : 60 <= s) by (unfold s; lra).
    pose proof (rounded_quotient divide s 60 Hdivide ltac:(lra) ltac:(unfold s; lra))
      as Herr.
    assert (Hu : s / 60 * / 2 ^ 53 <= 1 / 240).
    { rewrite pow2_53. unfold s. lra. }
    rewrite (formatEta_from_60 divide s Hs).
    assert (Hfloor : Format.Math_floor (divide s 60) = minutes).
    { unfold Format.Math_floor. apply Zfloor_eq. unfold s in *. lra. }
    assert (Hrem : Format.remainder s 60 = 59.5).
    { unfold Format.remainder, Format.truncate.
      destruct (Rlt_dec (s / 60) 0); [lra|].
      assert (Hexact : Zfloor (s / 60) = minutes) by (apply Zfloor_eq; unfold s; lra).
      rewrite Hexact. unfold s. lra. }
    rewrite Hfloor, Hrem.
    assert (Hround : Format.Math_round 59.5 = 60%Z).
    { unfold Format.Math_round. apply Zfloor_eq. simpl. lra. }
    rewrite Hround. reflexivity.
  - rewrite formatEta_under_60 by lra.
    assert (Hround : Format.Math_round 59.5 = 60%Z).
    { unfold Format.Math_round. apply Zfloor_eq. simpl. lra. }
    rewrite Hround. reflexivity.
Qed.

(** *** Decimal digits *)

Lemma digits_of_fuel f1 f2 n :
  (1 <= f1)%nat -> (1 <= f2)%nat ->
  (0 <= n < 10 ^ Z.of_nat f1)%Z -> (n < 10 ^ Z.of_nat f2)%Z ->
  Format.digits_of f1 n = Format.digits_of f2 n.
Proof.
  revert f2 n. induction f1 as [|f1 IH]; intros f2 n H1 H2 Hn1 Hn2; [lia|].
  destruct f2 as [|f2]; [lia|]. cbn [Format.digits_of].
  destruct (Z.ltb_spec n 10) as [Hsmall|Hbig]; [reflexivity|].
  f_equal. rewrite Nat2Z.inj_succ, Z.pow_succ_r in Hn1, Hn2 by lia.
  assert (Hq1 : (n / 10 < 10 ^ Z.of_nat f1)%Z) by (apply Z.div_lt_upper_bound; lia).
  assert (Hq2 : (n / 10 < 10 ^ Z.of_nat f2)%Z) by (apply Z.div_lt_upper_bound; lia).
  assert (Hq0 : (1 <= n / 10)%Z) by (apply Z.div_le_lower_bound; lia).
  apply IH; try lia.
  - destruct f1; [simpl in Hq1; lia | lia].
  - destruct f2; [simpl in Hq2; lia | lia].
Qed.

Lemma below_power_of_log2 n : (0 <= n)%Z -> (n < 10 ^ Z.of_nat (S (Z.to_nat (Z.log2 n))))%Z.
Proof.
  intros Hn. rewrite Nat2Z.inj_succ, Z2Nat.id by apply Z.log2_nonneg.
  destruct (Z.eq_dec n 0) as [->|Hne]; [reflexivity|].
  pose proof (Z.log2_spec n ltac:(lia)) as [_ Hlt].
  eapply Z.lt_le_trans; [exact Hlt|].
  apply Z.pow_le_mono_l. lia.
Qed.

(** The digits of [n >= 10] are the digits of [n / 10] followed by the
    digit of [n mod 10]. *)
Lemma String_of_natural_step n :
  (10 <= n)%Z ->
  Format.String_of_natural n
  = (Format.String_of_natural (n / 10) ++ String (Format.digit (n mod 10)) "")%string.
Proof.
  intros Hn. unfold Format.String_of_natural at 1. cbn [Format.digits_of].
  rewrite (proj2 (Z.ltb_ge n 10)) by lia. f_equal.
  assert (Hq0 : (1 <= n / 10)%Z) by (apply Z.div_le_lower_bound; lia).
  assert (Hlog : (3 <= Z.log2 n)%Z).
  { change 3%Z with (Z.log2 8). apply Z.log2_le_mono. lia. }
  assert (Hq : (n / 10 < 10 ^ Z.of_nat (Z.to_nat (Z.log2 n)))%Z).
  { rewrite Z2Nat.id by lia.
    pose proof (Z.log2_spec n ltac:(lia)) as [_ Hlt].
    rewrite Z.pow_succ_r in Hlt by lia.
    apply Z.div_lt_upper_bound; [lia|].
    assert (2 ^ Z.log2 n <= 10 ^ Z.log2 n)%Z by (apply Z.pow_le_mono_l; lia).
    lia. }
  unfold Format.String_of_natural. apply digits_of_fuel; try lia.
  apply below_power_of_log2. lia.
Qed.

Lemma String_of_natural_length n : (1 <= String.length (Format.String_of_natural n))%nat.
Proof.
  unfold Format.String_of_natural. cbn [Format.digits_of].
  destruct (n <? 10)%Z; [simpl; lia|].
  generalize (Format.digits_of (Z.to_nat (Z.log2 n)) (n / 10)). intros a.
  induction a as [|c a IH]; simpl; lia.
Qed.

Lemma string_length_app (a b : string) :
  String.length (a ++ b)%string = (String.length a + String.length b)%nat.
Proof. induction a as [|c a IH]; simpl; [reflexivity | now rewrite IH]. Qed.

Lemma substring_prefix (a b : string) : substring 0 (String.length a) (a ++ b)%string = a.
Proof. induction a as [|c a IH]; simpl; [now destruct b | now rewrite IH]. Qed.

Lemma substring_all (b : string) : substring 0 (String.length b) b = b.
Proof. induction b as [|c b IH]; simpl; [reflexivity | now rewrite IH]. Qed.

Lemma substring_suffix (a b : string) :
  substring (String.length a) (String.length b) (a ++ b)%string = b.
Proof. induction a as [|c a IH]; simpl; [apply substring_all | exact IH]. Qed.

(** [toFixed(0)] of a number that is not negative: the nearest integer. *)
Lemma toFixed_0 x :
  0 <= x -> Format.toFixed x 0 = Format.String_of_integer (Format.Math_round x).
Proof.
  intros Hx. unfold Format.toFixed.
  rewrite (proj2 (ltb_false x 0) Hx), Rabs_pos_eq by exact Hx.
  unfold Format.Math_round. f_equal. f_equal. simpl. lra.
Qed.

(** [toFixed(2)] of a number that rounds to 1.00 or more: the integer part,
    a point, and two digits. *)
Lemma toFixed_2 x :
  995 / 1000 <= x ->
  let n := Zfloor (x * 100 + 1 / 2) in
  Format.toFixed x 2
  = (Format.String_of_integer (n / 100) ++ "."
     ++ String (Format.digit (n mod 100 / 10)) (String (Format.digit (n mod 10)) ""))%string.
Proof.
  intros Hx n.
  assert (Hn : (100 <= n)%Z) by (apply Zfloor_lub; lra).
  unfold Format.toFixed.
  rewrite (proj2 (ltb_false x 0)), Rabs_pos_eq by lra.
  replace (x * 10 ^ 2 + 1 / 2) with (x * 100 + 1 / 2) by (simpl; lra). fold n.
  assert (Hdigits :
            Format.String_of_integer n
            = (Format.String_of_integer (n / 100)
               ++ String (Format.digit (n mod 100 / 10))
                    (String (Format.digit (n mod 10)) ""))%string).
  { unfold Format.String_of_integer.
    rewrite (proj2 (Z.ltb_ge n 0)) by lia.
    assert (Hq : (1 <= n / 100)%Z) by (apply Z.div_le_lower_bound; lia).
    rewrite (proj2 (Z.ltb_ge (n / 100) 0)) by lia.
    rewrite (String_of_natural_step n) by lia.
    assert (Hq10 : (10 <= n / 10)%Z) by (apply Z.div_le_lower_bound; lia).
    rewrite (String_of_natural_step (n / 10)) by exact Hq10.
    rewrite Z.div_div by lia. change (10 * 10)%Z with 100%Z.
    rewrite string_app_assoc. simpl.
    replace (n / 10 mod 10)%Z with (n mod 100 / 10)%Z; [reflexivity|].
    change 100%Z with (10 * 10)%Z. rewrite Z.rem_mul_r by lia.
    rewrite Z.mul_comm, Z.div_add by lia.
    rewrite (Z.div_small (n mod 10) 10) by (apply Z.mod_pos_bound; lia). lia. }
  rewrite Hdigits.
  set (a := Format.String_of_integer (n / 100)).
  set (b := String (Format.digit (n mod 100 / 10)) (String (Format.digit (n mod 10)) "")).
  assert (Ha : (1 <= String.length a)%nat).
  { unfold a, Format.String_of_integer.
    assert (Hq : (1 <= n / 100)%Z) by (apply Z.div_le_lower_bound; lia).
    rewrite (proj2 (Z.ltb_ge (n / 100) 0)) by lia. apply String_of_natural_length. }
  assert (Hlen : String.length (a ++ b)%string = (String.length a + 2)%nat)
    by (rewrite string_length_app; reflexivity).
  rewrite !Hlen.
  assert (Hz : (3 - (String.length a + 2) = 0)%nat) by lia. rewrite Hz.
  cbn [Format.zeros append String.length Nat.add]. rewrite !Hlen.
  assert (Hk : (String.length a + 2 - 2 = String.length a)%nat) by lia. rewrite Hk.
  rewrite substring_prefix.
  change 2%nat with (String.length b). now rewrite substring_suffix.
Qed.

Lemma formatDistance_below_1000 divide m :
  0 <= m < 1000 ->
  Format.formatDistance divide (Js.Finite m)
  = (Format.String_of_integer (Format.Math_round m) ++ " m")%string.
Proof.
  intros [H0 H1]. unfold Format.formatDistance.
  rewrite (proj2 (leb_false 1000 m) H1). now rewrite toFixed_0.
Qed.

Lemma formatDistance_available divide m : Format.formatDistance divide (Js.Finite m) <> "N/A".
Proof.
  unfold Format.formatDistance. intros H. destruct (Js.leb 1000 m).
  - change (Format.toFixed (divide m 1000) 2 ++ " km")%string
      with (Format.toFixed (divide m 1000) 2 ++ " k" ++ "m")%string in H.
    rewrite <- string_app_assoc in H. now apply not_available_suffix in H.
  - change (Format.toFixed m 0 ++ " m")%string
      with (Format.toFixed m 0 ++ " " ++ "m")%string in H.
    rewrite <- string_app_assoc in H. now apply not_available_suffix in H.
Qed.

(** X21. [formatDistance] gives "N/A" exactly for NaN and the infinities. A
    distance from 0 up to, not including, 1000 meters is shown in whole
    meters, rounded to the nearest integer (half up); the switch to
    kilometers is decided before rounding, so from 999.5 meters on the text
    reads "1000 m". *)
Theorem formatDistance_whole_meters :
  forall (divide : R -> R -> R),
    (forall meters,
        Format.formatDistance divide meters = "N/A" <-> Js.Number_isFinite meters = false)
    /\ (forall m,
          0 <= m < 1000 ->
          exists n,
            (0 <= n <= 1000)%Z
            /\ IZR n - 1 / 2 <= m < IZR n + 1 / 2
            /\ Format.formatDistance divide (Js.Finite m)
               = (Format.String_of_integer n ++ " m")%string)
    /\ (forall m,
          999.5 <= m < 1000 -> Format.formatDistance divide (Js.Finite m) = "1000 m").
Proof.
  intros divide. split; [|split].
  - intros [m| | |]; try (split; reflexivity).
    split; [|discriminate]. intros H. now apply formatDistance_available in H.
  - intros m Hm. exists (Format.Math_round m). split; [|split].
    + split; [apply Math_round_above; simpl; lra | apply Math_round_below; lra].
    + apply Math_round_near.
    + now apply formatDistance_below_1000.
  - intros m Hm. rewrite formatDistance_below_1000 by lra.
    assert (Hround : Format.Math_round m = 1000%Z).
    { unfold Format.Math_round. apply Zfloor_eq. lra. }
    rewrite Hround. reflexivity.
Qed.

(** The kilometers text: the hundredths of a kilometer nearest to the
    rounded quotient, the larger on a tie. *)
Lemma formatDistance_from_1000 divide m :
  1000 <= m ->
  995 / 1000 <= divide m 1000 ->
  let n := Zfloor (divide m 1000 * 100 + 1 / 2) in
  (100 <= n)%Z
  /\ Format.formatDistance divide (Js.Finite m)
     = (Format.String_of_integer (n / 100) ++ "."
        ++ String (Format.digit ((n mod 100) / 10))
             (String (Format.digit ((n mod 100) mod 10)) "")
        ++ " km")%string.
Proof.
  intros Hm Hq n. assert (Hn : (100 <= n)%Z) by (apply Zfloor_lub; lra).
  split; [exact Hn|].
  unfold Format.formatDistance. rewrite (proj2 (leb_true 1000 m) Hm).
  rewrite toFixed_2 by exact Hq. fold n.
  assert (Hmod : ((n mod 100) mod 10 = n mod 10)%Z).
  { Z.div_mod_to_equations. lia. }
  rewrite Hmod. now rewrite !string_app_assoc.
Qed.

(** X22. A distance of 1000 meters or more (below [10^23]) is shown in
    kilometers with exactly two decimals: the whole kilometers, a point, the
    two digits of the hundredths, and " km". The hundredths are those
    nearest to the quotient by 1000 as the doubles round it, so the text is
    the distance to the nearest ten meters up to that rounding, and a tie is
    decided on the rounded quotient: 1005 meters read "1.00 km" when the
    quotient is rounded below 1.005, as the double nearest to 1.005 is, and
    "1.01 km" otherwise. *)
Theorem formatDistance_kilometers :
  forall (divide : R -> R -> R),
    rounds_to_nearest divide ->
    (forall m,
        1000 <= m < 10 ^ 23 ->
        exists km hundredths,
          (1 <= km)%Z /\ (0 <= hundredths < 100)%Z
          /\ IZR (100 * km + hundredths) - 1 / 2 <= divide m 1000 * 100
             < IZR (100 * km + hundredths) + 1 / 2
          /\ Rabs (divide m 1000 * 100 - m / 10) <= m / 10 * / 2 ^ 53
          /\ Format.formatDistance divide (Js.Finite m)
             = (Format.String_of_integer km ++ "."
                ++ String (Format.digit (hundredths / 10))
                     (String (Format.digit (hundredths mod 10)) "")
                ++ " km")%string)
    /\ (divide 1005 1000 < 1005 / 1000 ->
        Format.formatDistance divide (Js.Finite 1005) = "1.00 km")
    /\ (1005 / 1000 <= divide 1005 1000 ->
        Format.formatDistance divide (Js.Finite 1005) = "1.01 km").
Proof.
  intros divide Hdivide.
  assert (Hu : 0 < / 2 ^ 53) by (apply Rinv_0_lt_compat, pow_lt; lra).
  assert (Hu53 : / 2 ^ 53 <= 1 / 1000000).
  { rewrite pow2_53. lra. }
  assert (Hnear : forall m, 1000 <= m < 10 ^ 23 ->
            Rabs (divide m 1000 - m / 1000) <= m / 1000 * / 2 ^ 53).
  { intros m [Hm Hbig]. apply Hdivide; [lra|]. split; [lra|].
    assert (H23 : 10 ^ 23 <= 2 ^ 1023).
    { apply Rle_trans with (2 ^ 92).
      - change 10 with (IZR 10). change 2 with (IZR 2). rewrite !pow_IZR.
        apply IZR_le. vm_compute. discriminate.
      - apply Rle_pow; [lra | lia]. }
    lra. }
  split; [|split].
  - intros m Hm. pose proof (Hnear m Hm) as Herr. destruct Hm as [Hm Hbig].
    pose proof (Rabs_bound _ _ Herr) as Hb.
    assert (Hq : 995 / 1000 <= divide m 1000) by nra.
    destruct (formatDistance_from_1000 divide m Hm Hq) as [Hn Htext].
    set (n := Zfloor (divide m 1000 * 100 + 1 / 2)) in *.
    exists (n / 100)%Z, (n mod 100)%Z.
    split; [apply Z.div_le_lower_bound; lia|].
    split; [apply Z.mod_pos_bound; lia|].
    split.
    { rewrite <- Z.div_mod by lia.
      pose proof (Zfloor_bound (divide m 1000 * 100 + 1 / 2)) as Hf. fold n in Hf. lra. }
    split; [|exact Htext].
    apply Rabs_le. lra.
  - intros Hbelow.
    assert (Hm : 1000 <= 1005 < 10 ^ 23).
    { split; [lra|]. assert (10 ^ 4 <= 10 ^ 23) by (apply Rle_pow; [lra | lia]).
      simpl in H. lra. }
    pose proof (Rabs_bound _ _ (Hnear 1005 Hm)) as Hb.
    assert (Hq : 995 / 1000 <= divide 1005 1000) by lra.
    destruct (formatDistance_from_1000 divide 1005 (proj1 Hm) Hq) as [_ ->].
    assert (Hn : Zfloor (divide 1005 1000 * 100 + 1 / 2) = 100%Z)
      by (apply Zfloor_eq; simpl; lra).
    rewrite Hn. reflexivity.
  - intros Habove.
    assert (Hm : 1000 <= 1005 < 10 ^ 23).
    { split; [lra|]. assert (10 ^ 4 <= 10 ^ 23) by (apply Rle_pow; [lra | lia]).
      simpl in H. lra. }
    pose proof (Rabs_bound _ _ (Hnear 1005 Hm)) as Hb.
    assert (Hq : 995 / 1000 <= divide 1005 1000) by lra.
    destruct (formatDistance_from_1000 divide 1005 (proj1 Hm) Hq) as [_ ->].
    assert (Hn : Zfloor (divide 1005 1000 * 100 + 1 / 2) = 101%Z)
      by (apply Zfloor_eq; simpl; lra).
    rewrite Hn. reflexivity.
Qed.

Lemma formatEta_available divide s : Format.formatEta divide (Some (Js.Finite s)) <> "N/A".
Proof.
  intros H. destruct (Rlt_le_dec s 60) as [Hs|Hs].
  - rewrite (formatEta_under_60 divide s Hs) in H. now apply not_available_suffix in H.
  - rewrite (formatEta_from_60 divide s Hs) in H. destruct (0 <? _)%Z.
    + rewrite <- !string_app_assoc in H. now apply not_available_suffix in H.
    + now apply not_available_suffix in H.
Qed.

(** The ETA of an entry is not finite exactly when its distance is NaN or
    the quotient by the speed is beyond the doubles. *)
Lemma eta_not_finite d n :
  Js.gt0 n = true ->
  0 <= d ->
  Js.Number_isFinite (Js.div (Js.Finite d) n) = false
  <-> exists s, n = Js.Finite s /\ Js.overflow_threshold <= d / s.
Proof.
  intros Hgt Hd. pose proof overflow_threshold_pos as Hpos.
  destruct n as [s| | |]; simpl in Hgt; try discriminate.
  - apply ltb_true in Hgt. cbn [Js.div]. destruct (Req_dec_T s 0) as [H|_]; [lra|].
    assert (Hq : 0 <= d / s).
    { unfold Rdiv. apply Rmult_le_pos; [exact Hd|]. left. now apply Rinv_0_lt_compat. }
    destruct (of_real_cases (d / s)) as [[Hin ->]|[[Hout ->]|[Hout _]]]; [| |lra].
    + apply Rabs_def2 in Hin. split; [discriminate|].
      intros (s' & [= <-] & H). lra.
    + split; [|reflexivity]. intros _. eauto.
  - simpl. split; [discriminate|]. intros (s & H & _). discriminate.
Qed.

(** X23. On the alert list the distance reads "N/A" exactly for the entries
    whose distance is NaN. The ETA reads "N/A" exactly for the entries whose
    object has no number greater than 0 in its own [speed], or whose
    distance is NaN, or whose distance divided by the speed is beyond the
    doubles. *)
Theorem alert_texts_not_available :
  forall (divide : R -> R -> R) (events : list DetectionEvent) (radius : R)
         (location : option LatLng.t) (e : Intruder.t),
    In e (Dashboard.intruders events radius location) ->
    (distance_text divide e = "N/A" <-> Intruder.distance e = Js.NaN)
    /\ (eta_text divide e = "N/A"
        <-> (~ exists n,
               Js.prop (as_record (Intruder.object e)) "speed" = Js.Num n
               /\ Js.gt0 n = true)
            \/ Intruder.distance e = Js.NaN
            \/ exists d s,
                 Intruder.distance e = Js.Finite d
                 /\ Js.prop (as_record (Intruder.object e)) "speed" = Js.Num (Js.Finite s)
                 /\ 0 < s
                 /\ Js.overflow_threshold <= d / s).
Proof.
  intros divide events radius location e He.
  pose proof (intruder_distance _ _ _ _ He) as Hdist. split.
  - unfold distance_text. destruct Hdist as [->|(d & -> & _)].
    + split; reflexivity.
    + split; [|discriminate]. intros H. now apply formatDistance_available in H.
  - apply intruders_recorded in He as (loc & _ & _ & Hfirst).
    apply first_write_occurs in Hfirst as (y & _ & _ & Hy).
    apply alert_entry_Some in Hy as (<- & _ & Heta).
    unfold eta_text. rewrite Heta. unfold Dashboard.eta_of, Dashboard.legacy_speed.
    destruct (Js.prop (as_record (Intruder.object e)) "speed") as [| |n|s|props] eqn:Hspeed;
      try (split; [intros _; left; intros (n & H & _); discriminate | reflexivity]).
    destruct (Js.gt0 n) eqn:Hgt.
    + rewrite (gt0_truthy n Hgt). cbn [andb].
      destruct Hdist as [Hnan|(d & Hd & Hd0 & _)].
      * rewrite Hnan. split; [auto | reflexivity].
      * rewrite Hd. pose proof (eta_not_finite d n Hgt Hd0) as Hfinite.
        destruct (Js.div (Js.Finite d) n) as [t| | |] eqn:Hdiv.
        -- split; [intros H; now apply formatEta_available in H|].
           intros [H|[H|(d' & s & [= <-] & [= ->] & Hs & Hover)]].
           ++ exfalso. apply H. eauto.
           ++ discriminate.
           ++ assert (Hno : Js.Number_isFinite (Js.Finite t) = false)
                by (apply Hfinite; eauto).
              discriminate.
        -- split; [|reflexivity]. intros _.
           destruct (proj1 Hfinite eq_refl) as (s & -> & Hover).
           right. right. exists d, s. simpl in Hgt. apply ltb_true in Hgt. auto.
        -- split; [|reflexivity]. intros _.
           destruct (proj1 Hfinite eq_refl) as (s & -> & Hover).
           right. right. exists d, s. simpl in Hgt. apply ltb_true in Hgt. auto.
        -- split; [|reflexivity]. intros _.
           destruct (proj1 Hfinite eq_refl) as (s & -> & Hover).
           right. right. exists d, s. simpl in Hgt. apply ltb_true in Hgt. auto.
    + rewrite andb_false_r. split; [|reflexivity]. intros _. left.
      intros (n' & [= <-] & H). congruence.
Qed.

(* ================================================================= *)
(** ** The history list of [filteredEvents] *)

Lemma lt_NaN_l n : Js.lt Js.NaN n = false.
Proof. now destruct n. Qed.

Lemma lt_NaN_r n : Js.lt n Js.NaN = false.
Proof. now destruct n. Qed.

Lemma in_period_spec dayjs_valueOf startTime endTime event :
  History.in_period dayjs_valueOf startTime endTime event = true
  <-> (forall s, startTime = Some s ->
         Js.lt (dayjs_valueOf (timestamp event)) s = false)
      /\ (forall e, endTime = Some e ->
            Js.lt e (dayjs_valueOf (timestamp event)) = false).
Proof.
  unfold History.in_period. destruct startTime as [s|], endTime as [e|].
  - destruct (Js.lt (dayjs_valueOf (timestamp event)) s) eqn:Hs.
    + split; [discriminate|]. intros [H _]. now rewrite (H s eq_refl) in Hs.
    + destruct (Js.lt e (dayjs_valueOf (timestamp event))) eqn:He.
      * split; [discriminate|]. intros [_ H]. now rewrite (H e eq_refl) in He.
      * split; [|reflexivity]. intros _. split; intros ? [= <-]; assumption.
  - destruct (Js.lt (dayjs_valueOf (timestamp event)) s) eqn:Hs.
    + split; [discriminate|]. intros [H _]. now rewrite (H s eq_refl) in Hs.
    + split; [|reflexivity]. intros _. split; [intros ? [= <-]; assumption | discriminate].
  - destruct (Js.lt e (dayjs_valueOf (timestamp event))) eqn:He.
    + split; [discriminate|]. intros [_ H]. now rewrite (H e eq_refl) in He.
    + split; [|reflexivity]. intros _. split; [discriminate | intros ? [= <-]; assumption].
  - split; [|reflexivity]. intros _. split; discriminate.
Qed.

Lemma filter_all {A : Type} (f : A -> bool) (l : list A) :
  (forall x, In x l -> f x = true) -> filter f l = l.
Proof.
  induction l as [|x l IH]; simpl; intros Hall; [reflexivity|].
  rewrite (Hall x (or_introl eq_refl)), IH; auto.
Qed.

(** X24. The history list holds exactly the events of the period, each as
    often as in the input: an event is listed when its time is neither
    before the start nor after the end, where a date that is not set bounds
    nothing. An event whose timestamp is not a date is listed whatever the
    period is, and with no date set every event is listed. *)
Theorem filteredEvents_keeps_the_period :
  forall (dayjs_valueOf Date_getTime : string -> Js.number)
         (events : list DetectionEvent) (startTime endTime : option Js.number),
    let listed :=
      History.filteredEvents dayjs_valueOf Date_getTime events startTime endTime in
    Permutation listed (filter (History.in_period dayjs_valueOf startTime endTime) events)
    /\ (forall event,
          In event listed
          <-> In event events
              /\ (forall s, startTime = Some s ->
                    Js.lt (dayjs_valueOf (timestamp event)) s = false)
              /\ (forall e, endTime = Some e ->
                    Js.lt e (dayjs_valueOf (timestamp event)) = false))
    /\ (forall event,
          In event events -> dayjs_valueOf (timestamp event) = Js.NaN -> In event listed)
    /\ Permutation
         (History.filteredEvents dayjs_valueOf Date_getTime events None None) events.
Proof.
  intros dayjs_valueOf Date_getTime events startTime endTime listed.
  assert (Hperm : Permutation listed
                    (filter (History.in_period dayjs_valueOf startTime endTime) events))
    by apply Array_sort_perm.
  assert (Hin : forall event,
            In event listed
            <-> In event events
                /\ History.in_period dayjs_valueOf startTime endTime event = true).
  { intros event. rewrite <- filter_In. split; apply Permutation_in;
      [exact Hperm | now symmetry]. }
  split; [exact Hperm|]. split; [|split].
  - intros event. rewrite Hin, in_period_spec. tauto.
  - intros event Hev Hnan. apply Hin. split; [exact Hev|].
    apply in_period_spec. rewrite Hnan.
    split; intros; [apply lt_NaN_l | apply lt_NaN_r].
  - unfold History.filteredEvents. rewrite Array_sort_perm.
    now rewrite filter_all.
Qed.

(** Sorting with [(a, b) => time(b) - time(a)] on finite times gives a list
    in descending order of time. *)
Lemma sort_newest_first {A : Type} (time : A -> Js.number) (value : A -> R) (l : list A) :
  (forall x, In x l -> time x = Js.Finite (value x)) ->
  StronglySorted (fun a b => value b <= value a)
    (Js.Array_sort (fun a b => Js.sub (time b) (time a)) l).
Proof.
  intros Hfinite.
  rewrite (Array_sort_ext _ (by_key (fun x => - value x))).
  - pose proof (Array_sort_by_key_sorted (fun x => - value x) l) as Hsorted.
    eapply StronglySorted_weaken; [|exact Hsorted].
    unfold ascending. intros a b Hab. lra.
  - intros a b Ha Hb. rewrite (Hfinite a Ha), (Hfinite b Hb). cbn [Js.sub].
    rewrite gt0_of_real. unfold by_key. cbn [Js.gt0]. unfold Js.ltb.
    destruct (Rlt_dec 0 (value b - value a));
      destruct (Rlt_dec 0 (- value a - - value b)); try reflexivity; lra.
Qed.

(** X25. When the timestamp of every event is a date, the history list is
    in descending order of time, newest first. *)
Theorem filteredEvents_newest_first :
  forall (dayjs_valueOf Date_getTime : string -> Js.number)
         (events : list DetectionEvent) (startTime endTime : option Js.number),
    (forall ev, In ev events -> exists t, Date_getTime (timestamp ev) = Js.Finite t) ->
    StronglySorted
      (fun a b => event_time Date_getTime b <= event_time Date_getTime a)
      (History.filteredEvents dayjs_valueOf Date_getTime events startTime endTime).
Proof.
  intros dayjs_valueOf Date_getTime events startTime endTime Hdates.
  unfold History.filteredEvents.
  apply (sort_newest_first (fun ev => Date_getTime (timestamp ev))
           (event_time Date_getTime)).
  intros ev Hev. apply filter_In in Hev as [Hev _].
  destruct (Hdates ev Hev) as [t Ht]. unfold event_time. now rewrite Ht.
Qed.

(* ================================================================= *)
(** ** The selected marker *)

Lemma stillVisible_single markers selected :
  SelectedMarker.stillVisible markers selected = true
  <-> exists lat lng object,
        In (single lat lng object) markers /\ obj_id object = obj_id selected.
Proof.
  unfold SelectedMarker.stillVisible. rewrite existsb_exists. split.
  - intros ([lat lng o|lat lng objs] & Hin & H); [|discriminate].
    apply String.eqb_eq in H. eauto.
  - intros (lat & lng & o & Hin & Hid). exists (single lat lng o).
    split; [exact Hin | now apply String.eqb_eq].
Qed.

Lemma marker_object_located items zoom d o :
  In d (MapComponent.getMarkerDescriptors items zoom) ->
  In o (descriptor_objects d) ->
  In o items /\ located o = true.
Proof.
  intros Hd Ho. apply filter_In.
  apply (Permutation_in _ (markers_members items zoom)).
  apply in_concat. exists (descriptor_objects d). split; [|exact Ho].
  now apply in_map.
Qed.

(** X26. The selection survives a change of the markers exactly when a
    [single] marker carries its id: it is closed when no object of that id
    with primary coordinates is left in the input, and also when that
    object is drawn inside a cluster. At zoom 15 and above, where nothing
    is clustered, it survives as long as the input holds an object of that
    id with primary coordinates. *)
Theorem selection_follows_single_markers :
  forall (items : list DetectedObject) (zoom : R) (selected : DetectedObject),
    let markers := MapComponent.getMarkerDescriptors items zoom in
    (SelectedMarker.after_markers markers (Some selected) = Some selected ->
     exists o, In o items /\ located o = true /\ obj_id o = obj_id selected)
    /\ ((forall d, In d markers ->
           match d with
           | single _ _ o => obj_id o <> obj_id selected
           | cluster _ _ _ => True
           end) ->
        SelectedMarker.after_markers markers (Some selected) = None)
    /\ (15 <= zoom ->
        (SelectedMarker.after_markers markers (Some selected) = Some selected
         <-> exists o, In o items /\ located o = true /\ obj_id o = obj_id selected)).
Proof.
  intros items zoom selected markers. unfold SelectedMarker.after_markers.
  assert (Hvisible : SelectedMarker.stillVisible markers selected = true ->
            exists o, In o items /\ located o = true /\ obj_id o = obj_id selected).
  { intros H. apply stillVisible_single in H as (lat & lng & o & Hin & Hid).
    exists o. destruct (marker_object_located items zoom _ o Hin) as [Ho Hloc];
      [now left | auto]. }
  split; [|split].
  - destruct (SelectedMarker.stillVisible markers selected) eqn:H; [auto | discriminate].
  - intros Hnone. destruct (SelectedMarker.stillVisible markers selected) eqn:H;
      [|reflexivity].
    apply stillVisible_single in H as (lat & lng & o & Hin & Hid).
    now destruct (Hnone _ Hin).
  - intros Hz. split.
    + destruct (SelectedMarker.stillVisible markers selected) eqn:H; [auto | discriminate].
    + intros (o & Ho & Hloc & Hid).
      assert (Hin : In o (filter located items)) by (apply filter_In; auto).
      pose proof (getMarkerDescriptors_zoomed_in items zoom Hz) as Hall.
      fold markers in Hall.
      assert (Hs : SelectedMarker.stillVisible markers selected = true).
      { apply stillVisible_single. clear -Hall Hin Hid.
        induction Hall as [|d o' ds objs (p & _ & ->) _ IH]; [destruct Hin|].
        destruct Hin as [->|Hin].
        - exists (LatLng.lat p), (LatLng.lng p), o. split; [now left | exact Hid].
        - destruct (IH Hin) as (lat & lng & o'' & Hd & Hid'').
          exists lat, lng, o''. split; [now right | exact Hid'']. }
      now rewrite Hs.
Qed.

(* ================================================================= *)
(** ** The properties above on the sample payloads *)

Lemma sample_events_are_dated :
  forall ev, In ev sample_events -> exists t, sample_getTime (timestamp ev) = Js.Finite t.
Proof.
  intros ev [<-|[<-|[]]]; eexists; reflexivity.
Qed.

Lemma sample_intruder_id :
  In "obj_002"
    (map intruder_id
       (Dashboard.intruders sample_events 1500 (Some Dashboard.DEFAULT_DEFENCE_LOCATION))).
Proof. rewrite sample_intruders. now left. Qed.

Lemma half_circumference_below : EARTH_RADIUS_METERS * PI <= 30000000.
Proof. pose proof PI_4. pose proof PI_RGT_0. unfold EARTH_RADIUS_METERS. nra. Qed.

Lemma zoomed_in_one_single_marker_per_located_object_witness :
  Forall2 single_marker_of
    (MapComponent.getMarkerDescriptors [telemetry_only_object; numeric_object] 17)
    (filter located [telemetry_only_object; numeric_object])
  /\ List.length (MapComponent.getMarkerDescriptors [telemetry_only_object; numeric_object] 17)
     = List.length (filter located [telemetry_only_object; numeric_object]).
Proof.
  apply (zoomed_in_one_single_marker_per_located_object
           [telemetry_only_object; numeric_object] 17).
  lra.
Defined.


Lemma wider_radius_keeps_every_intruder_witness :
  In "obj_002"
    (map intruder_id
       (Dashboard.intruders sample_events 5000 (Some Dashboard.DEFAULT_DEFENCE_LOCATION))).
Proof.
  apply (wider_radius_keeps_every_intruder sample_events
           Dashboard.DEFAULT_DEFENCE_LOCATION 1500 5000).
  - lra.
  - exact sample_intruder_id.
Defined.

Lemma radius_of_half_circumference_witness :
  In "obj_002"
    (map intruder_id
       (Dashboard.intruders sample_events 30000000
          (Some Dashboard.DEFAULT_OFFENCE_LOCATION)))
  <-> exists o p, In o (scan_order sample_events) /\ obj_id o = "obj_002" /\ positioned o p.
Proof.
  apply (radius_of_half_circumference_lists_every_positioned_object sample_events
           Dashboard.DEFAULT_OFFENCE_LOCATION 30000000).
  exact half_circumference_below.
Defined.

Lemma ring_points_are_at_the_radius_witness :
  let point := nth 16 (MapComponent.createCirclePolygon (LatLng.mk 0 101) 1500 64) (0, 0) in
  let north := (snd point - 0) * PI / 180 * EARTH_RADIUS_METERS in
  let east := (fst point - 101) * PI / 180 * cos (0 * PI / 180) * EARTH_RADIUS_METERS in
  east * east + north * north = 1500 * 1500.
Proof.
  apply (ring_points_are_at_the_radius (LatLng.mk 0 101) 1500 64 16 (0, 0)).
  - lia.
  - simpl. replace (0 * PI / 180) with 0 by field. rewrite cos_0. lra.
Defined.

Lemma ring_latitude_bound_and_symmetry_witness :
  let ring := MapComponent.createCirclePolygon Dashboard.DEFAULT_DEFENCE_LOCATION 1500 64 in
  Rabs (snd (nth 16 ring (0, 0)) - 14.297567) <= Rabs 1500 / EARTH_RADIUS_METERS * 180 / PI
  /\ ((0 < 64)%nat ->
      fst (nth (64 - 16) ring (0, 0)) = fst (nth 16 ring (0, 0))
      /\ snd (nth (64 - 16) ring (0, 0)) - 14.297567
         = - (snd (nth 16 ring (0, 0)) - 14.297567)).
Proof.
  apply (ring_latitude_bound_and_symmetry Dashboard.DEFAULT_DEFENCE_LOCATION 1500 64 16 (0, 0)).
  lia.
Defined.

Lemma marker_and_popup_coordinates_agree_witness :
  ObjectGeo.getObjectLatitude middle_object = Some 0.001
  /\ exists lng,
       ObjectGeo.getObjectLongitude middle_object = Some lng
       /\ (lng = 0
           \/ (ObjectGeo.toValidNumber (Js.prop (as_record middle_object) "lon") = Some lng
               /\ ObjectGeo.toValidNumber (Js.prop (as_record middle_object) "long")
                  = Some 0)).
Proof.
  apply (marker_and_popup_coordinates_agree middle_object (LatLng.mk 0.001 0)).
  reflexivity.
Defined.

Lemma unparsable_lat_hides_latitude_from_markers_witness :
  ObjectGeo.getObjectLatitude mislabelled_object = Some 14.3
  /\ MapComponent.getPrimaryCoordinates mislabelled_object = None
  /\ forall zoom, MapComponent.getMarkerDescriptors [mislabelled_object] zoom = [].
Proof.
  apply (unparsable_lat_hides_latitude_from_markers mislabelled_object 14.3).
  - discriminate.
  - discriminate.
  - reflexivity.
  - reflexivity.
Defined.

Lemma formatEta_minutes_and_seconds_witness :
  Format.formatEta (fun x y => x / y) (Some (Js.Finite (60 * IZR 1 + 59.5))) = "1m 60s".
Proof.
  destruct (formatEta_minutes_and_seconds (fun x y => x / y) exact_division_rounds)
    as (_ & Hedge & _).
  apply (Hedge 1%Z). lia.
Defined.

Lemma formatDistance_kilometers_witness :
  Format.formatDistance (fun x y => x / y) (Js.Finite 1005) = "1.01 km".
Proof.
  destruct (formatDistance_kilometers (fun x y => x / y) exact_division_rounds)
    as (_ & _ & Htie).
  apply Htie. lra.
Defined.

Lemma alert_texts_not_available_witness :
  (distance_text (fun x y => x / y) sample_intruder = "N/A"
   <-> Intruder.distance sample_intruder = Js.NaN)
  /\ (eta_text (fun x y => x / y) sample_intruder = "N/A"
      <-> (~ exists n,
             Js.prop (as_record (Intruder.object sample_intruder)) "speed" = Js.Num n
             /\ Js.gt0 n = true)
          \/ Intruder.distance sample_intruder = Js.NaN
          \/ exists d s,
               Intruder.distance sample_intruder = Js.Finite d
               /\ Js.prop (as_record (Intruder.object sample_intruder)) "speed"
                  = Js.Num (Js.Finite s)
               /\ 0 < s
               /\ Js.overflow_threshold <= d / s).
Proof.
  apply (alert_texts_not_available (fun x y => x / y) sample_events 1500
           (Some Dashboard.DEFAULT_DEFENCE_LOCATION) sample_intruder).
  exact sample_intruder_recorded.
Defined.

Lemma filteredEvents_newest_first_witness :
  StronglySorted
    (fun a b => event_time sample_getTime b <= event_time sample_getTime a)
    (History.filteredEvents sample_getTime sample_getTime sample_events None None).
Proof.
  apply (filteredEvents_newest_first sample_getTime sample_getTime sample_events None None).
  exact sample_events_are_dated.
Defined.

(** The texts of the scenario of the specification: an ETA of 100 seconds
    and a distance of 1000 meters, and some neighbours. *)
Example formatted_scenario :
  forall divide,
    rounds_to_nearest divide ->
    Format.formatEta divide (Some (Js.Finite 100)) = "1m 40s"
    /\ Format.formatEta divide (Some (Js.Finite 120)) = "2m"
    /\ Format.formatEta divide (Some (Js.Finite 0)) = "1s"
    /\ Format.formatDistance divide (Js.Finite 1000) = "1.00 km"
    /\ Format.formatDistance divide (Js.Finite 1234) = "1.23 km"
    /\ Format.formatDistance divide (Js.Finite 12.4) = "12 m".
Proof.
  intros divide Hdivide.
  assert (Hfloor : forall x z, IZR z <= x < IZR z + 1 -> Zfloor x = z)
    by (intros; now apply Zfloor_eq).
  assert (Hu : 0 < / 2 ^ 53) by (apply Rinv_0_lt_compat, pow_lt; lra).
  assert (Hu53 : / 2 ^ 53 <= 1 / 1000000) by (rewrite pow2_53; lra).
  assert (Hmax : 2 ^ 1 <= 2 ^ 1023) by (apply Rle_pow; [lra | lia]).
  simpl in Hmax.
  assert (Hnear : forall x y, 0 < y -> 1 <= x / y <= 2 ->
            - (x / y * / 2 ^ 53) <= divide x y - x / y <= x / y * / 2 ^ 53).
  { intros x y Hy Hxy. apply rounded_quotient; [exact Hdivide | exact Hy | lra]. }
  repeat split.
  - rewrite formatEta_from_60 by lra. unfold Format.Math_floor, Format.Math_round.
    assert (Hrem : Format.remainder 100 60 = 40).
    { unfold Format.remainder, Format.truncate.
      destruct (Rlt_dec (100 / 60) 0); [lra|]. rewrite (Hfloor _ 1%Z) by lra. lra. }
    pose proof (Hnear 100 60 ltac:(lra) ltac:(lra)) as Hq.
    rewrite Hrem, (Hfloor (divide 100 60) 1%Z), (Hfloor (40 + 1 / 2) 40%Z) by lra.
    reflexivity.
  - rewrite formatEta_from_60 by lra. unfold Format.Math_floor, Format.Math_round.
    assert (Hrem : Format.remainder 120 60 = 0).
    { unfold Format.remainder, Format.truncate.
      destruct (Rlt_dec (120 / 60) 0); [lra|]. rewrite (Hfloor _ 2%Z) by lra. lra. }
    assert (Hexact : divide 120 60 = 2).
    { destruct Hdivide as (_ & Hbelow & Habove).
      apply Rle_antisym.
      - apply (Habove 120 60 2%Z); [lra | vm_compute; discriminate | lra].
      - apply (Hbelow 120 60 2%Z); [lra | vm_compute; discriminate | lra]. }
    rewrite Hrem, Hexact, (Hfloor 2 2%Z), (Hfloor (0 + 1 / 2) 0%Z) by lra.
    reflexivity.
  - rewrite formatEta_under_60 by lra. unfold Format.Math_round.
    rewrite (Hfloor (0 + 1 / 2) 0%Z) by lra. reflexivity.
  - pose proof (Hnear 1000 1000 ltac:(lra) ltac:(lra)) as Hq.
    destruct (formatDistance_from_1000 divide 1000 ltac:(lra) ltac:(lra)) as [_ ->].
    rewrite (Hfloor _ 100%Z) by lra. reflexivity.
  - pose proof (Hnear 1234 1000 ltac:(lra) ltac:(lra)) as Hq.
    destruct (formatDistance_from_1000 divide 1234 ltac:(lra) ltac:(lra)) as [_ ->].
    rewrite (Hfloor _ 123%Z) by lra. reflexivity.
  - rewrite formatDistance_below_1000 by lra. unfold Format.Math_round.
    rewrite (Hfloor _ 12%Z) by lra. reflexivity.
Qed.
